(** * Autocomplete: a shallow embedding of [src/autocomplete.ts] and
      [src/autocomplete.js]

    The widget is a class whose private fields are mutated by DOM event
    handlers, by timer callbacks and by the continuation of an [await].
    It is embedded as explicit state passing: every method of the class is a
    function on [State]; the browser (timers, pending promises, dispatch of
    events to the listeners the constructor registered) is a step function
    over an [Event] type.  The TypeScript source and the hand-edited
    JavaScript build differ in three places (an [Array.isArray] guard around
    the fetched value, the positioning scheme of the panel, scroll listeners
    on the ancestors of the input); the parameter [Variant] selects the
    file. *)

From Stdlib Require Import ZArith List String Ascii Bool Lia Permutation DecimalString.
Import ListNotations.

Open Scope Z_scope.

(** ** JavaScript primitives used by the source *)

Module Js.

(** [String.prototype.trim] strips white space at both ends.  Strings are
    modelled as sequences of one-byte code units, so the white space is the
    ASCII part of the ECMAScript set: TAB, LF, VT, FF, CR and SPACE. *)
Definition is_space (c : ascii) : bool :=
  let n := nat_of_ascii c in
  ((9 <=? n)%nat && (n <=? 13)%nat) || (n =? 32)%nat.

Fixpoint trimStart (s : string) : string :=
  match s with
  | EmptyString => EmptyString
  | String c r => if is_space c then trimStart r else s
  end.

Fixpoint trimEnd (s : string) : string :=
  match s with
  | EmptyString => EmptyString
  | String c r =>
      match trimEnd r with
      | EmptyString => if is_space c then EmptyString else String c EmptyString
      | r' => String c r'
      end
  end.

Definition trim (s : string) : string := trimEnd (trimStart s).

(** [s.length] *)
Definition length (s : string) : Z := Z.of_nat (String.length s).

(** [arr.slice(0, e)] for an integral [e]: a negative end counts from the
    end of the array, and the end is clamped to [0 .. arr.length]. *)
Definition slice0 {A : Type} (arr : list A) (e : Z) : list A :=
  let len := Z.of_nat (List.length arr) in
  let final := if e <? 0 then Z.max (len + e) 0 else Z.min e len in
  firstn (Z.to_nat final) arr.

(** [element.classList]: an ordered set of class tokens. *)
Definition has_class (c : string) (l : list string) : bool :=
  existsb (String.eqb c) l.

Definition classList_add (c : string) (l : list string) : list string :=
  if has_class c l then l else l ++ [c].

Definition classList_remove (c : string) (l : list string) : list string :=
  filter (fun x => negb (String.eqb c x)) l.

End Js.

(** ** Exceptions

    A handler either runs to its end or lets an exception escape; in both
    cases the fields it has already written keep their new values. *)

Inductive Outcome (A : Type) : Type :=
| Done (a : A)
| Thrown (a : A).

Arguments Done {A} a.
Arguments Thrown {A} a.

(** [try { body } catch (error) { handler }] *)
Definition try_catch {A : Type} (body : Outcome A) (handler : A -> Outcome A)
  : Outcome A :=
  match body with
  | Done a => Done a
  | Thrown a => handler a
  end.

Definition state_of {A : Type} (o : Outcome A) : A :=
  match o with Done a => a | Thrown a => a end.

Definition completes {A : Type} (o : Outcome A) : bool :=
  match o with Done _ => true | Thrown _ => false end.

(** ** Data model *)

(** Which of the two source files is embedded. *)
Inductive Variant : Type :=
| TypeScript   (* src/autocomplete.ts *)
| JavaScript.  (* src/autocomplete.js *)

Inductive Display : Type := DisplayNone | DisplayBlock.

Inductive CssPosition : Type := Absolute | Fixed.

(** What an element shows: nothing yet, a text node written through
    [textContent], or markup parsed from a string written through
    [innerHTML]. *)
Inductive Content : Type :=
| NoContent
| TextContent (s : string)
| InnerHTML (html : string).

(** The part of a suggestion element a renderer can write to. *)
Record Node : Type := mkNode {
  classes : list string;
  role : string;
  content : Content
}.

(** Layout readings taken by [updateContainerPosition], in layout units:
    [inputElement.getBoundingClientRect()], [window.innerHeight],
    [window.scrollX], [window.scrollY] and [container.offsetHeight]. *)
Record Geometry : Type := mkGeometry {
  rect_top : Z;
  rect_bottom : Z;
  rect_left : Z;
  rect_width : Z;
  innerHeight : Z;
  scrollX : Z;
  scrollY : Z;
  offsetHeight : Z
}.

(** What the browser supplies when a handler runs: the clock in
    milliseconds and the layout of the page. *)
Record Env : Type := mkEnv {
  now : Z;
  geom : Geometry
}.

Section Widget.

(** The caller's suggestion items: opaque records the widget formats and
    hands back. *)
Context {T : Type}.

(** A suggestion element built by [render]: the node, and what the two
    listeners attached to it captured ([suggestion] by the click listener,
    [index] by the mouseenter listener). *)
Record Element : Type := mkElement {
  node : Node;
  click_suggestion : T;
  mouseenter_index : Z
}.

(** [this.container]: the floating panel. *)
Record Container : Type := mkContainer {
  container_classes : list string;
  style_position : CssPosition;
  style_display : Display;
  style_width : option Z;   (* in px *)
  style_left : option Z;
  style_top : option Z;
  children : list Element
}.

(** A value delivered by the suggestion source.  The declared type is
    [T[]]; at run time the source can also deliver a non-sequence, of which
    the model keeps [null] and [undefined]: both are falsy, fail
    [Array.isArray], and throw a [TypeError] on any property access. *)
Inductive Fetched : Type :=
| Items (items : list T)
| Nullish.

(** Callbacks passed to [setTimeout]. *)
Inductive TimerAction : Type :=
| FetchCallback (query : string)   (* the debounced arrow function *)
| HideCallback.                    (* [() => this.hide()] of the blur listener *)

Record Timer : Type := mkTimer {
  timer_id : nat;
  due : Z;
  action : TimerAction
}.

(** Calls that leave the widget, in the order they happen. *)
Inductive Effect : Type :=
| GetSuggestions (query : string)
| FormatSuggestionHTML (item : T)
| SanitizeHTML (html : string)
| OnSelect (item : T)
| ConsoleError
| PreventDefault.

Inductive Renderer : Type :=
| DefaultRenderer
| CustomRenderer (f : T -> Node -> Node).

(** [AutocompleteOptions<T>] as the caller writes it: [None] is an absent
    key.  [inputElement], [getSuggestions] and [onSelect] belong to the
    environment: the input is part of [State], the source answers through
    events, and calls of [onSelect] are recorded as effects.  The markup of
    the icon ([dropdownIconHtml]) is written once into the icon and read by
    nothing, and is left out. *)
Record UserOptions : Type := mkUserOptions {
  user_formatSelectedItem : T -> string;
  user_formatSuggestionHTML : option (T -> string);
  user_maxSuggestions : option Z;
  user_minChars : option Z;
  user_debounceTime : option Z;
  user_containerClass : option string;
  user_suggestionClass : option string;
  user_activeClass : option string;
  user_showDropdownIcon : option bool;
  user_dropdownIconClass : option string;
  user_allowHTML : option bool;
  user_sanitizeHTML : option (string -> string);
  user_renderSuggestion : option (T -> Node -> Node)
}.

(** [Required<AutocompleteOptions<T>>]: [this.options]. *)
Record Options : Type := mkOptions {
  formatSelectedItem : T -> string;
  formatSuggestionHTML : T -> string;
  maxSuggestions : Z;
  minChars : Z;
  debounceTime : Z;
  containerClass : string;
  suggestionClass : string;
  activeClass : string;
  showDropdownIcon : bool;
  dropdownIconClass : string;
  allowHTML : bool;
  sanitizeHTML : string -> string;
  renderSuggestion : Renderer
}.

(** The private fields of the class, the input element, and the part of
    the browser the widget talks to. *)
Record State : Type := mkState {
  suggestions : Fetched;
  activeIndex : Z;
  debounceTimer : option nat;
  container : Container;
  dropdownIcon : option (list string);   (* class list of the icon *)
  inputValue : string;                   (* inputElement.value *)
  focused : bool;                        (* document.activeElement === inputElement *)
  timers : list Timer;                   (* pending timeouts *)
  nextTimer : nat;
  inflight : nat;                        (* awaited source results *)
  trace : list Effect
}.

End Widget.

Arguments Element : clear implicits.
Arguments Container : clear implicits.
Arguments Fetched : clear implicits.
Arguments Effect : clear implicits.
Arguments Renderer : clear implicits.
Arguments UserOptions : clear implicits.
Arguments Options : clear implicits.
Arguments State : clear implicits.

(** ** The default sanitizer

    [sanitizeDefaultHTML] removes every match of a case-insensitive global
    pattern: the text [<script], a word boundary, any run of characters other
    than [<], then any number of groups made of a [<] that does not open
    [</script>] followed by a run of characters other than [<], and finally
    [</script>].  After the word boundary the pattern can consume anything
    except a [<] that opens the closing tag, so a match, when there is one,
    ends at the first closing tag. *)

Module Sanitizer.

Definition lower (c : ascii) : ascii :=
  let n := nat_of_ascii c in
  if ((65 <=? n) && (n <=? 90))%nat then ascii_of_nat (n + 32) else c.

Definition is_word (c : ascii) : bool :=
  let n := nat_of_ascii (lower c) in
  (((97 <=? n) && (n <=? 122)) || ((48 <=? n) && (n <=? 57)) || (n =? 95))%nat.

Fixpoint starts_with_ci (p s : string) : bool :=
  match p, s with
  | EmptyString, _ => true
  | String a p', String b s' => Ascii.eqb (lower a) (lower b) && starts_with_ci p' s'
  | String _ _, EmptyString => false
  end.

Fixpoint drop (n : nat) (s : string) : string :=
  match n, s with
  | S k, String _ r => drop k r
  | _, _ => s
  end.

(** Number of characters up to and including the first [</script>]. *)
Fixpoint close_index (s : string) : option nat :=
  match s with
  | EmptyString => None
  | String _ r =>
      if starts_with_ci "</script>" s then Some 9%nat
      else option_map S (close_index r)
  end.

(** Length of the match of the pattern at the head of [s]. *)
Definition script_match (s : string) : option nat :=
  if starts_with_ci "<script" s then
    match drop 7 s with
    | EmptyString => None
    | String c _ as rest =>
        if is_word c then None
        else option_map (Nat.add 7) (close_index rest)
    end
  else None.

(** The global replace: [skip] characters of the current match are still
    to be dropped. *)
Fixpoint strip (skip : nat) (s : string) : string :=
  match s with
  | EmptyString => EmptyString
  | String c r =>
      match skip with
      | S k => strip k r
      | O =>
          match script_match s with
          | Some (S k) => strip k r
          | _ => String c (strip 0 r)
          end
      end
  end.

Definition sanitizeDefaultHTML (html : string) : string := strip 0 html.

End Sanitizer.

(** ** Field updates *)

Section Updates.

Context {T : Type}.

Definition set_content (c : Content) (n : Node) : Node :=
  mkNode (classes n) (role n) c.

Definition set_classes (l : list string) (n : Node) : Node :=
  mkNode l (role n) (content n).

Definition set_node (n : Node) (e : Element T) : Element T :=
  mkElement n (click_suggestion e) (mouseenter_index e).

Definition set_container_classes (l : list string) (c : Container T) : Container T :=
  mkContainer l (style_position c) (style_display c) (style_width c)
              (style_left c) (style_top c) (children c).

Definition set_style_position (p : CssPosition) (c : Container T) : Container T :=
  mkContainer (container_classes c) p (style_display c) (style_width c)
              (style_left c) (style_top c) (children c).

Definition set_style_display (d : Display) (c : Container T) : Container T :=
  mkContainer (container_classes c) (style_position c) d (style_width c)
              (style_left c) (style_top c) (children c).

Definition set_style_width (w : Z) (c : Container T) : Container T :=
  mkContainer (container_classes c) (style_position c) (style_display c) (Some w)
              (style_left c) (style_top c) (children c).

Definition set_style_left (x : Z) (c : Container T) : Container T :=
  mkContainer (container_classes c) (style_position c) (style_display c)
              (style_width c) (Some x) (style_top c) (children c).

Definition set_style_top (y : Z) (c : Container T) : Container T :=
  mkContainer (container_classes c) (style_position c) (style_display c)
              (style_width c) (style_left c) (Some y) (children c).

Definition set_children (l : list (Element T)) (c : Container T) : Container T :=
  mkContainer (container_classes c) (style_position c) (style_display c)
              (style_width c) (style_left c) (style_top c) l.

Definition set_suggestions (v : Fetched T) (st : State T) : State T :=
  mkState v (activeIndex st) (debounceTimer st) (container st) (dropdownIcon st)
          (inputValue st) (focused st) (timers st) (nextTimer st) (inflight st)
          (trace st).

Definition set_activeIndex (i : Z) (st : State T) : State T :=
  mkState (suggestions st) i (debounceTimer st) (container st) (dropdownIcon st)
          (inputValue st) (focused st) (timers st) (nextTimer st) (inflight st)
          (trace st).

Definition set_debounceTimer (t : option nat) (st : State T) : State T :=
  mkState (suggestions st) (activeIndex st) t (container st) (dropdownIcon st)
          (inputValue st) (focused st) (timers st) (nextTimer st) (inflight st)
          (trace st).

Definition set_container (c : Container T) (st : State T) : State T :=
  mkState (suggestions st) (activeIndex st) (debounceTimer st) c (dropdownIcon st)
          (inputValue st) (focused st) (timers st) (nextTimer st) (inflight st)
          (trace st).

Definition set_dropdownIcon (i : option (list string)) (st : State T) : State T :=
  mkState (suggestions st) (activeIndex st) (debounceTimer st) (container st) i
          (inputValue st) (focused st) (timers st) (nextTimer st) (inflight st)
          (trace st).

Definition set_inputValue (v : string) (st : State T) : State T :=
  mkState (suggestions st) (activeIndex st) (debounceTimer st) (container st)
          (dropdownIcon st) v (focused st) (timers st) (nextTimer st) (inflight st)
          (trace st).

Definition set_focused (b : bool) (st : State T) : State T :=
  mkState (suggestions st) (activeIndex st) (debounceTimer st) (container st)
          (dropdownIcon st) (inputValue st) b (timers st) (nextTimer st)
          (inflight st) (trace st).

Definition set_timers (l : list Timer) (n : nat) (st : State T) : State T :=
  mkState (suggestions st) (activeIndex st) (debounceTimer st) (container st)
          (dropdownIcon st) (inputValue st) (focused st) l n (inflight st)
          (trace st).

Definition set_inflight (n : nat) (st : State T) : State T :=
  mkState (suggestions st) (activeIndex st) (debounceTimer st) (container st)
          (dropdownIcon st) (inputValue st) (focused st) (timers st) (nextTimer st)
          n (trace st).

(** Record the effects [l] after those already in the trace. *)
Definition emit (l : list (Effect T)) (st : State T) : State T :=
  mkState (suggestions st) (activeIndex st) (debounceTimer st) (container st)
          (dropdownIcon st) (inputValue st) (focused st) (timers st) (nextTimer st)
          (inflight st) (trace st ++ l).

Definition display (st : State T) : Display := style_display (container st).

Definition visible (st : State T) : bool :=
  match display st with DisplayBlock => true | DisplayNone => false end.

End Updates.

(** ** The methods of the class *)

Inductive Key : Type :=
| ArrowDown
| ArrowUp
| Enter
| Escape
| OtherKey (name : string).

Section Methods.

Context {T : Type}.
Variable variant : Variant.
Variable opts : Options T.

(** [window.setTimeout(callback, delay)]: the handle and the new state. *)
Definition setTimeout (a : TimerAction) (delay : Z) (env : Env) (st : State T)
  : nat * State T :=
  let id := nextTimer st in
  (id, set_timers (timers st ++ [mkTimer id (now env + Z.max delay 0) a]) (S id) st).

(** [window.clearTimeout(id)]; a handle that is no longer pending is ignored. *)
Definition clearTimeout (id : nat) (st : State T) : State T :=
  set_timers (filter (fun t => negb (timer_id t =? id)%nat) (timers st))
             (nextTimer st) st.

(** The constructor: initial field values, the panel created hidden with
    [containerClass], and the icon when [showDropdownIcon] is set.  [value]
    and [isFocused] describe the input element the caller passes. *)
Definition construct (value : string) (isFocused : bool) : State T :=
  {| suggestions := Items [];
     activeIndex := -1;
     debounceTimer := None;
     container :=
       {| container_classes := [containerClass opts];
          style_position :=
            match variant with TypeScript => Absolute | JavaScript => Fixed end;
          style_display := DisplayNone;
          style_width := None;
          style_left := None;
          style_top := None;
          children := [] |};
     dropdownIcon :=
       if showDropdownIcon opts then Some [dropdownIconClass opts] else None;
     inputValue := value;
     focused := isFocused;
     timers := [];
     nextTimer := 1;
     inflight := 0;
     trace := [] |}.

Definition updateContainerPosition (g : Geometry) (c : Container T) : Container T :=
  let containerHeight := offsetHeight g in
  let spaceBelow := innerHeight g - rect_bottom g in
  let spaceAbove := rect_top g in
  let c1 := set_style_width (rect_width g) c in
  let c2 :=
    match variant with
    | TypeScript => set_style_left (rect_left g + scrollX g) c1
    | JavaScript => set_style_left (rect_left g) (set_style_position Fixed c1)
    end in
  if (spaceBelow <? containerHeight) && (spaceAbove >? spaceBelow) then
    let c3 :=
      match variant with
      | TypeScript => set_style_top (rect_top g + scrollY g - containerHeight) c2
      | JavaScript => set_style_top (rect_top g - containerHeight) c2
      end in
    set_container_classes
      (Js.classList_remove "autocomplete-below"
         (Js.classList_add "autocomplete-above" (container_classes c3))) c3
  else
    let c3 :=
      match variant with
      | TypeScript => set_style_top (rect_bottom g + scrollY g) c2
      | JavaScript => set_style_top (rect_bottom g) c2
      end in
    set_container_classes
      (Js.classList_remove "autocomplete-above"
         (Js.classList_add "autocomplete-below" (container_classes c3))) c3.

Definition handlePositionUpdate (env : Env) (st : State T) : State T :=
  if visible st then set_container (updateContainerPosition (geom env) (container st)) st
  else st.

Definition hide (st : State T) : State T :=
  let st1 := set_container (set_style_display DisplayNone (container st)) st in
  let st2 := set_activeIndex (-1) st1 in
  match dropdownIcon st2 with
  | Some cl =>
      set_dropdownIcon (Some (Js.classList_remove "autocomplete-icon-active" cl)) st2
  | None => st2
  end.

Definition show (env : Env) (st : State T) : State T :=
  let st1 := set_container (set_style_display DisplayBlock (container st)) st in
  let st2 := set_container (updateContainerPosition (geom env) (container st1)) st1 in
  match dropdownIcon st2 with
  | Some cl =>
      set_dropdownIcon (Some (Js.classList_add "autocomplete-icon-active" cl)) st2
  | None => st2
  end.

(** [this.options.renderSuggestion(suggestion, element)]: the node as the
    renderer leaves it, and the option callbacks the default renderer
    called on the way. *)
Definition runRenderSuggestion (suggestion : T) (element : Node)
  : Node * list (Effect T) :=
  match renderSuggestion opts with
  | CustomRenderer f => (f suggestion element, [])
  | DefaultRenderer =>
      if allowHTML opts then
        let htmlContent := formatSuggestionHTML opts suggestion in
        (set_content (InnerHTML (sanitizeHTML opts htmlContent)) element,
         [FormatSuggestionHTML suggestion; SanitizeHTML htmlContent])
      else
        (set_content (TextContent (formatSelectedItem opts suggestion)) element, [])
  end.

(** The body of the [forEach] of [render], from index [index] on. *)
Fixpoint renderFrom (index : Z) (items : list T) : list (Element T) * list (Effect T) :=
  match items with
  | [] => ([], [])
  | suggestion :: rest =>
      let element := mkNode [suggestionClass opts] "option" NoContent in
      let (element', calls) := runRenderSuggestion suggestion element in
      let (elements, calls') := renderFrom (index + 1) rest in
      (mkElement element' suggestion index :: elements, calls ++ calls')
  end.

Definition render (st : State T) : Outcome (State T) :=
  let st1 := set_container (set_children [] (container st)) st in
  let st2 := set_activeIndex (-1) st1 in
  match suggestions st2 with
  | Nullish => Thrown st2
  | Items items =>
      let (elements, calls) := renderFrom 0 items in
      Done (emit calls (set_container (set_children elements (container st2)) st2))
  end.

(** The [forEach] of [highlightActive] over the elements matched by the
    selector [.suggestionClass]; [index] counts the matched elements. *)
Fixpoint highlightFrom (active index : Z) (els : list (Element T)) : list (Element T) :=
  match els with
  | [] => []
  | item :: rest =>
      if Js.has_class (suggestionClass opts) (classes (node item)) then
        let cl :=
          if index =? active
          then Js.classList_add (activeClass opts) (classes (node item))
          else Js.classList_remove (activeClass opts) (classes (node item)) in
        set_node (set_classes cl (node item)) item
          :: highlightFrom active (index + 1) rest
      else item :: highlightFrom active index rest
  end.

Definition highlightActive (st : State T) : State T :=
  set_container
    (set_children (highlightFrom (activeIndex st) 0 (children (container st)))
                  (container st)) st.

Definition selectSuggestion (suggestion : T) (st : State T) : State T :=
  let st1 := set_inputValue (formatSelectedItem opts suggestion) st in
  let st2 := emit [OnSelect suggestion] st1 in
  hide st2.

End Methods.

(** ** Event handlers, timer callbacks and the browser *)

(** What the source does when the timer callback calls it: it throws, or it
    returns a value or a promise, which the callback awaits. *)
Inductive SourceReply : Type :=
| ReplyThrows
| ReplyAwaited.

Section Handlers.

Context {T : Type}.
Variable variant : Variant.
Variable opts : Options T.

(** How an awaited source result settles. *)
Inductive Settlement : Type :=
| Fulfilled (v : Fetched T)
| Rejected.

Inductive Event : Type :=
| EvInput (value : string)   (* the user edits the field: it now holds [value] *)
| EvFocus
| EvBlur
| EvIconClick
| EvKeyDown (key : Key)
| EvMouseEnter (child : nat) (* the pointer enters a child of the panel *)
| EvClick (child : nat)
| EvTimer (id : nat) (reply : SourceReply)
| EvSettle (r : Settlement)
| EvReposition.              (* resize or scroll *)

Definition handleInput (env : Env) (st : State T) : State T :=
  let value := Js.trim (inputValue st) in
  let st1 :=
    match debounceTimer st with
    | Some id => clearTimeout id st
    | None => st
    end in
  if (Js.length value =? 0) && focused st1 then
    let (id, st2) := setTimeout (FetchCallback "") (debounceTime opts) env st1 in
    set_debounceTimer (Some id) st2
  else if Js.length value <? minChars opts then
    hide st1
  else
    let (id, st2) := setTimeout (FetchCallback value) (debounceTime opts) env st1 in
    set_debounceTimer (Some id) st2.

Definition handleKeyDown (key : Key) (st : State T) : Outcome (State T) :=
  if negb (visible st) then Done st
  else
    match key with
    | ArrowDown =>
        let st1 := emit [PreventDefault] st in
        match suggestions st1 with
        | Nullish => Thrown st1
        | Items items =>
            let i := Z.min (activeIndex st1 + 1) (Z.of_nat (List.length items) - 1) in
            Done (highlightActive opts (set_activeIndex i st1))
        end
    | ArrowUp =>
        let st1 := emit [PreventDefault] st in
        let i := Z.max (activeIndex st1 - 1) (-1) in
        Done (highlightActive opts (set_activeIndex i st1))
    | Enter =>
        if activeIndex st >=? 0 then
          let st1 := emit [PreventDefault] st in
          match suggestions st1 with
          | Nullish => Thrown st1
          | Items items =>
              match nth_error items (Z.to_nat (activeIndex st1)) with
              | Some suggestion => Done (selectSuggestion opts suggestion st1)
              | None =>
                  (* [suggestions[activeIndex]] is [undefined]: what the
                     caller's formatter does with it is not modelled *)
                  Thrown st1
              end
          end
        else Done st
    | Escape => Done (hide (emit [PreventDefault] st))
    | OtherKey _ => Done st
    end.

(** The listeners [render] attaches to a suggestion element. *)
Definition onMouseEnter (el : Element T) (st : State T) : State T :=
  highlightActive opts (set_activeIndex (mouseenter_index el) st).

Definition onClick (el : Element T) (st : State T) : State T :=
  selectSuggestion opts (click_suggestion el) st.

(** The blur listener. *)
Definition onBlur (env : Env) (st : State T) : State T :=
  snd (setTimeout HideCallback 150 env st).

(** The click listener of the icon; [inputElement.focus()] dispatches a
    focus event, hence a run of [handleInput], when the field did not have
    the focus. *)
Definition onIconClick (env : Env) (st : State T) : State T :=
  let st1 := if focused st then st else handleInput env (set_focused true st) in
  if visible st1 then hide st1 else handleInput env st1.

(** The [catch] clause of the debounced callback. *)
Definition onFetchError (st : State T) : Outcome (State T) :=
  Done (hide (emit [ConsoleError] st)).

(** The [try] block of the debounced callback from the point where the
    awaited value [v] arrives. *)
Definition afterAwait (env : Env) (v : Fetched T) (st : State T) : Outcome (State T) :=
  let st1 := set_suggestions v st in
  match suggestions st1 with
  | Items items =>
      let items' := Js.slice0 items (maxSuggestions opts) in
      let st2 := set_suggestions (Items items') st1 in
      if Z.of_nat (List.length items') >? 0 then
        match render opts st2 with
        | Done st3 => Done (show variant env st3)
        | Thrown st3 => Thrown st3
        end
      else Done (hide st2)
  | Nullish =>
      match variant with
      | TypeScript => Thrown st1   (* [this.suggestions.slice] *)
      | JavaScript => Done st1     (* the [Array.isArray] guard is false *)
      end
  end.

(** The debounced callback up to its [await]: the call of the source inside
    the [try] block. *)
Definition debounced (query : string) (reply : SourceReply) (st : State T)
  : Outcome (State T) :=
  let st1 := emit [GetSuggestions query] st in
  match reply with
  | ReplyThrows => try_catch (Thrown st1) onFetchError
  | ReplyAwaited => Done (set_inflight (S (inflight st1)) st1)
  end.

(** The callback of a timer that fires. *)
Definition runTimer (a : TimerAction) (reply : SourceReply) (st : State T) : State T :=
  match a with
  | HideCallback => hide st
  | FetchCallback query => state_of (debounced query reply st)
  end.

(** The debounced callback from its [await] on. *)
Definition settle (env : Env) (r : Settlement) (st : State T) : Outcome (State T) :=
  let st1 := set_inflight (Nat.pred (inflight st)) st in
  match r with
  | Fulfilled v => try_catch (afterAwait env v st1) onFetchError
  | Rejected => try_catch (Thrown st1) onFetchError
  end.

Definition pending (id : nat) (st : State T) : option Timer :=
  find (fun t => (timer_id t =? id)%nat) (timers st).

(** One turn of the event loop: the browser delivers [ev] to the listener
    registered for it.  [None] when the browser cannot deliver it: pointer
    events reach only elements of a displayed panel, a timer fires only
    when it is pending and due, a promise settles only when one is awaited,
    the icon exists only with [showDropdownIcon]. *)
Definition step (env : Env) (ev : Event) (st : State T) : option (State T) :=
  match ev with
  | EvInput value => Some (handleInput env (set_inputValue value st))
  | EvFocus => Some (handleInput env (set_focused true st))
  | EvBlur => Some (onBlur env (set_focused false st))
  | EvIconClick =>
      match dropdownIcon st with
      | Some _ => Some (onIconClick env st)
      | None => None
      end
  | EvKeyDown key => Some (state_of (handleKeyDown key st))
  | EvMouseEnter child =>
      if visible st then
        option_map (fun el => onMouseEnter el st) (nth_error (children (container st)) child)
      else None
  | EvClick child =>
      if visible st then
        option_map (fun el => onClick el st) (nth_error (children (container st)) child)
      else None
  | EvTimer id reply =>
      match pending id st with
      | Some t =>
          if due t <=? now env then Some (runTimer (action t) reply (clearTimeout id st))
          else None
      | None => None
      end
  | EvSettle r =>
      match inflight st with
      | O => None
      | S _ => Some (state_of (settle env r st))
      end
  | EvReposition => Some (handlePositionUpdate variant env st)
  end.

End Handlers.

Arguments Settlement : clear implicits.
Arguments Event : clear implicits.

(** ** Executions *)

Section Executions.

Context {T : Type}.
Variable variant : Variant.
Variable opts : Options T.

(** Deliver the events of [script] in order, each with the environment it
    happens in. *)
Fixpoint exec (script : list (Env * Event T)) (st : State T) : option (State T) :=
  match script with
  | [] => Some st
  | (env, ev) :: rest =>
      match step variant opts env ev st with
      | Some st' => exec rest st'
      | None => None
      end
  end.

(** The source honours its declared type [T[]]: no awaited result is
    fulfilled with a non-sequence. *)
Definition well_typed (ev : Event T) : bool :=
  match ev with
  | EvSettle (Fulfilled Nullish) => false
  | _ => true
  end.

(** States the widget can be in after construction. *)
Definition Reachable (st : State T) : Prop :=
  exists value isFocused script,
    exec script (construct variant opts value isFocused) = Some st.

(** The same, with a source that honours its declared type. *)
Definition ReachableTyped (st : State T) : Prop :=
  exists value isFocused script,
    forallb (fun p => well_typed (snd p)) script = true /\
    exec script (construct variant opts value isFocused) = Some st.

(** *** Timed executions

    The browser runs the callback of every timer that is due, earliest
    first and in order of registration among equals, before it delivers an
    event that happens later. *)

Fixpoint insertByDue (t : Timer) (l : list Timer) : list Timer :=
  match l with
  | [] => [t]
  | u :: rest => if due t <=? due u then t :: l else u :: insertByDue t rest
  end.

Definition sortByDue (l : list Timer) : list Timer := fold_right insertByDue [] l.

Definition fire (reply : nat -> SourceReply) (st : State T) (t : Timer) : State T :=
  runTimer (action t) (reply (timer_id t)) (clearTimeout (timer_id t) st).

Definition fireDue (reply : nat -> SourceReply) (env : Env) (st : State T) : State T :=
  fold_left (fire reply)
            (sortByDue (filter (fun t => due t <=? now env) (timers st))) st.

(** An input or a focus event, the two events [handleInput] listens to. *)
Inductive Typing : Type :=
| Edit (value : string)
| Focus.

Definition typingEvent (k : Typing) : Event T :=
  match k with
  | Edit value => EvInput value
  | Focus => EvFocus
  end.

(** Run the due timers, then deliver the event. *)
Definition deliver (reply : nat -> SourceReply) (env : Env) (k : Typing) (st : State T)
  : State T :=
  let st1 := fireDue reply env st in
  match step variant opts env (typingEvent k) st1 with
  | Some st2 => st2
  | None => st1
  end.

Fixpoint deliverAll (reply : nat -> SourceReply) (script : list (Env * Typing))
         (st : State T) : State T :=
  match script with
  | [] => st
  | (env, k) :: rest => deliverAll reply rest (deliver reply env k st)
  end.

(** Consecutive events of the script are less than [gap] milliseconds
    apart, and time does not run backwards. *)
Fixpoint rapid (gap : Z) (script : list (Env * Typing)) : Prop :=
  match script with
  | [] => True
  | (env, _) :: rest =>
      match rest with
      | [] => True
      | (env', _) :: _ => now env <= now env' < now env + gap /\ rapid gap rest
      end
  end.

(** The time of the last event of a script that starts after [t0]. *)
Fixpoint lastTime (t0 : Z) (script : list (Env * Typing)) : Z :=
  match script with
  | [] => t0
  | (env, _) :: rest => lastTime (now env) rest
  end.

(** The queries the source was called with. *)
Fixpoint queries (l : list (Effect T)) : list string :=
  match l with
  | [] => []
  | GetSuggestions q :: rest => q :: queries rest
  | _ :: rest => queries rest
  end.

(** Whether [handleInput] schedules a fetch for the field as it is. *)
Definition schedules (st : State T) : bool :=
  let value := Js.trim (inputValue st) in
  ((Js.length value =? 0) && focused st) || negb (Js.length value <? minChars opts).

End Executions.

(** ** The document: what the constructor and [destroy] do to the page

    The document is a tree of nodes; listeners are registered on a target
    under an event type with a function object.  [f.bind(this)] and an arrow
    function expression both create a new function object each time they are
    evaluated, and [removeEventListener] removes the registration of the very
    function object it is given. *)

Module Page.

Inductive NodeId : Type :=
| Html
| Body
| Input            (* options.inputElement *)
| Wrapper          (* this.wrapper *)
| Icon             (* this.dropdownIcon *)
| Panel            (* this.container *)
| Other (n : nat). (* the rest of the page *)

Definition node_eqb (a b : NodeId) : bool :=
  match a, b with
  | Html, Html | Body, Body | Input, Input | Wrapper, Wrapper
  | Icon, Icon | Panel, Panel => true
  | Other n, Other m => (n =? m)%nat
  | _, _ => false
  end.

(** Each node with its child nodes, in document order. *)
Definition Tree : Type := list (NodeId * list NodeId).

Definition childNodes (p : NodeId) (t : Tree) : list NodeId :=
  match find (fun e => node_eqb (fst e) p) t with
  | Some e => snd e
  | None => []
  end.

Definition parentNode (n : NodeId) (t : Tree) : option NodeId :=
  option_map fst (find (fun e => existsb (node_eqb n) (snd e)) t).

Definition setChildren (p : NodeId) (l : list NodeId) (t : Tree) : Tree :=
  if existsb (fun e => node_eqb (fst e) p) t
  then map (fun e => if node_eqb (fst e) p then (p, l) else e) t
  else t ++ [(p, l)].

(** A node that is inserted somewhere first leaves the place it was in. *)
Definition detach (n : NodeId) (t : Tree) : Tree :=
  map (fun e => (fst e, filter (fun c => negb (node_eqb c n)) (snd e))) t.

(** Insert [new] before [ref]; the callers below always pass a [ref] that
    is in the list. *)
Fixpoint insertAt (new ref : NodeId) (l : list NodeId) : list NodeId :=
  match l with
  | [] => [new]
  | c :: rest => if node_eqb c ref then new :: l else c :: insertAt new ref rest
  end.

Definition insertBefore (p new ref : NodeId) (t : Tree) : Tree :=
  let t1 := detach new t in
  setChildren p (insertAt new ref (childNodes p t1)) t1.

Definition appendChild (p new : NodeId) (t : Tree) : Tree :=
  let t1 := detach new t in
  setChildren p (childNodes p t1 ++ [new]) t1.

Definition removeChild (p child : NodeId) (t : Tree) : Tree :=
  setChildren p (filter (fun c => negb (node_eqb c child)) (childNodes p t)) t.

(** The [parentElement] chain of a node, nearest first. *)
Fixpoint ancestors (fuel : nat) (n : NodeId) (t : Tree) : list NodeId :=
  match fuel with
  | O => []
  | S k =>
      match parentNode n t with
      | Some p => p :: ancestors k p t
      | None => []
      end
  end.

Inductive Target : Type :=
| OnWindow
| OnNode (n : NodeId).

Definition target_eqb (a b : Target) : bool :=
  match a, b with
  | OnWindow, OnWindow => true
  | OnNode n, OnNode m => node_eqb n m
  | _, _ => false
  end.

(** The code a listener runs. *)
Inductive Code : Type :=
| HandleInput
| HandleKeyDown
| HandlePositionUpdate
| BlurArrow
| IconArrow.

Record Listener : Type := mkListener {
  target : Target;
  event : string;
  fn : nat;        (* identity of the function object *)
  code : Code
}.

Record Page : Type := mkPage {
  tree : Tree;
  listeners : list Listener;
  nextFn : nat;           (* function objects created so far *)
  paddingRight : string   (* inputElement.style.paddingRight *)
}.

Definition set_tree (t : Tree) (p : Page) : Page :=
  mkPage t (listeners p) (nextFn p) (paddingRight p).

Definition set_paddingRight (s : string) (p : Page) : Page :=
  mkPage (tree p) (listeners p) (nextFn p) s.

(** [target.addEventListener(type, <new function object running c>)] *)
Definition addEventListener (tg : Target) (type : string) (c : Code) (p : Page) : Page :=
  mkPage (tree p) (listeners p ++ [mkListener tg type (nextFn p) c])
         (S (nextFn p)) (paddingRight p).

(** [target.removeEventListener(type, <new function object running c>)] *)
Definition removeEventListener (tg : Target) (type : string) (c : Code) (p : Page) : Page :=
  let f := nextFn p in
  mkPage (tree p)
         (filter (fun l => negb (target_eqb (target l) tg && String.eqb (event l) type
                                 && (fn l =? f)%nat))
                 (listeners p))
         (S f) (paddingRight p).

(** [this.wrapper] and [this.dropdownIcon] are set exactly when the
    constructor ran [setupDropdownIcon]. *)
Definition setupDropdownIcon (p : Page) : Page :=
  let t1 :=
    match parentNode Input (tree p) with
    | Some parent => insertBefore parent Wrapper Input (tree p)
    | None => tree p
    end in
  let t2 := appendChild Wrapper Input t1 in
  let t3 := appendChild Wrapper Icon t2 in
  set_paddingRight "30px" (set_tree t3 p).

Definition setupEventListeners (variant : Variant) (hasIcon : bool) (p : Page) : Page :=
  let p1 := addEventListener (OnNode Input) "input" HandleInput p in
  let p2 := addEventListener (OnNode Input) "focus" HandleInput p1 in
  let p3 := addEventListener (OnNode Input) "blur" BlurArrow p2 in
  let p4 := if hasIcon then addEventListener (OnNode Icon) "click" IconArrow p3 else p3 in
  let p5 := addEventListener (OnNode Input) "keydown" HandleKeyDown p4 in
  let p6 := addEventListener OnWindow "resize" HandlePositionUpdate p5 in
  match variant with
  | TypeScript => addEventListener OnWindow "scroll" HandlePositionUpdate p6
  | JavaScript =>
      let p7 :=
        fold_left (fun q parent => addEventListener (OnNode parent) "scroll"
                                                    HandlePositionUpdate q)
                  (ancestors (List.length (tree p6)) Input (tree p6)) p6 in
      addEventListener OnWindow "scroll" HandlePositionUpdate p7
  end.

(** The constructor, as far as the page is concerned. *)
Definition attach (variant : Variant) (showDropdownIcon : bool) (p : Page) : Page :=
  let p1 := set_tree (appendChild Body Panel (tree p)) p in
  let p2 := if showDropdownIcon then setupDropdownIcon p1 else p1 in
  setupEventListeners variant showDropdownIcon p2.

Definition destroy (variant : Variant) (hasWrapper : bool) (p : Page) : Page :=
  let p1 :=
    if hasWrapper then
      let q := set_paddingRight "" p in
      match parentNode Wrapper (tree q) with
      | Some parent =>
          set_tree (removeChild parent Wrapper
                      (insertBefore parent Input Wrapper (tree q))) q
      | None => q
      end
    else p in
  let p2 :=
    match parentNode Panel (tree p1) with
    | Some parent => set_tree (removeChild parent Panel (tree p1)) p1
    | None => p1
    end in
  let p3 := removeEventListener (OnNode Input) "input" HandleInput p2 in
  let p4 := removeEventListener (OnNode Input) "focus" HandleInput p3 in
  let p5 := removeEventListener (OnNode Input) "keydown" HandleKeyDown p4 in
  match variant with
  | TypeScript => removeEventListener OnWindow "resize" HandlePositionUpdate p5
  | JavaScript =>
      let p6 :=
        fold_left (fun q parent => removeEventListener (OnNode parent) "scroll"
                                                       HandlePositionUpdate q)
                  (ancestors (List.length (tree p5)) Input (tree p5)) p5 in
      let p7 := removeEventListener OnWindow "scroll" HandlePositionUpdate p6 in
      removeEventListener OnWindow "resize" HandlePositionUpdate p7
  end.

(** The listeners registered on a target. *)
Definition listenersOn (tg : Target) (p : Page) : list Listener :=
  filter (fun l => target_eqb (target l) tg) (listeners p).

End Page.

(** Every registered listener holds a function object that already exists. *)
Definition KnownFunctions (p : Page.Page) : Prop :=
  forall l, In l (Page.listeners p) -> (Page.fn l < Page.nextFn p)%nat.

(** Each node has one entry in the tree. *)
Definition WellKeyed (t : Page.Tree) : Prop := NoDup (map fst t).

(** The node [x] is a child of [q] and of no other node. *)
Definition OnlyChildOf (x q : Page.NodeId) (t : Page.Tree) : Prop :=
  In x (Page.childNodes q t) /\
  forall n, In x (Page.childNodes n t) -> n = q.

(** The node [x] is nobody's child. *)
Definition Detached (x : Page.NodeId) (t : Page.Tree) : Prop :=
  forall n, ~ In x (Page.childNodes n t).

(** The page [q] has the listeners of [p], in order, followed by listeners
    whose function objects were created after [p]. *)
Definition Extends (p q : Page.Page) : Prop :=
  (Page.nextFn p <= Page.nextFn q)%nat /\
  exists added,
    Page.listeners q = Page.listeners p ++ added /\
    forall l, In l added -> (Page.nextFn p <= Page.fn l < Page.nextFn q)%nat.

(** ** Options: the defaults of the constructor *)

Section Defaults.

Context {T : Type}.

Definition withDefault {A : Type} (o : option A) (d : A) : A :=
  match o with Some a => a | None => d end.

(** [this.options = { ...defaults, ...options }] *)
Definition resolveOptions (u : UserOptions T) : Options T :=
  {| formatSelectedItem := user_formatSelectedItem u;
     formatSuggestionHTML :=
       withDefault (user_formatSuggestionHTML u) (user_formatSelectedItem u);
     maxSuggestions := withDefault (user_maxSuggestions u) 5;
     minChars := withDefault (user_minChars u) 2;
     debounceTime := withDefault (user_debounceTime u) 300;
     containerClass := withDefault (user_containerClass u) "autocomplete-container"%string;
     suggestionClass := withDefault (user_suggestionClass u) "autocomplete-suggestion"%string;
     activeClass := withDefault (user_activeClass u) "autocomplete-suggestion-active"%string;
     showDropdownIcon := withDefault (user_showDropdownIcon u) false;
     dropdownIconClass :=
       withDefault (user_dropdownIconClass u) "autocomplete-dropdown-icon"%string;
     allowHTML := withDefault (user_allowHTML u) false;
     sanitizeHTML := withDefault (user_sanitizeHTML u) Sanitizer.sanitizeDefaultHTML;
     renderSuggestion :=
       match user_renderSuggestion u with
       | Some f => CustomRenderer f
       | None => DefaultRenderer
       end |}.

(** Options that spell out only the required formatter. *)
Definition onlyFormatter (format : T -> string) : UserOptions T :=
  {| user_formatSelectedItem := format;
     user_formatSuggestionHTML := None;
     user_maxSuggestions := None;
     user_minChars := None;
     user_debounceTime := None;
     user_containerClass := None;
     user_suggestionClass := None;
     user_activeClass := None;
     user_showDropdownIcon := None;
     user_dropdownIconClass := None;
     user_allowHTML := None;
     user_sanitizeHTML := None;
     user_renderSuggestion := None |}.

End Defaults.

(** ** Invariants *)

Section Invariants.

Context {T : Type}.
Variable opts : Options T.

(** The children of the panel are the elements [render] built for
    [items]: one per item, in order, each listener holding its item and its
    position. *)
Definition Rendered (items : list T) (els : list (Element T)) : Prop :=
  map click_suggestion els = items /\
  map mouseenter_index els = map Z.of_nat (seq 0 (List.length els)).

(** The stored suggestions are a sequence that satisfies [ok], the active
    index is -1 or the position of one of them, a displayed panel shows
    them, and nothing is active while the panel is hidden. *)
Definition WidgetInv (ok : list T -> Prop) (st : State T) : Prop :=
  exists items,
    suggestions st = Items items /\
    -1 <= activeIndex st <= Z.of_nat (List.length items) - 1 /\
    ok items /\
    (visible st = true -> Rendered items (children (container st))) /\
    (visible st = false -> activeIndex st = -1).

(** Timer handles are never reused, and the only fetch that can still be
    pending is the one [this.debounceTimer] refers to. *)
Definition TimerInv (st : State T) : Prop :=
  (forall t, In t (timers st) -> (timer_id t < nextTimer st)%nat) /\
  NoDup (map timer_id (timers st)) /\
  (forall t q, In t (timers st) -> action t = FetchCallback q ->
               debounceTimer st = Some (timer_id t)).

(** A handler that leaves the timers of the browser and the handle the
    widget keeps as they are. *)
Definition sameTimers (st st' : State T) : Prop :=
  timers st' = timers st /\
  nextTimer st' = nextTimer st /\
  debounceTimer st' = debounceTimer st.

(** A handler that leaves the input element as it is. *)
Definition sameInput (st st' : State T) : Prop :=
  inputValue st' = inputValue st /\ focused st' = focused st.

(** The state [handleInput] goes on with once it has cleared the timeout
    [this.debounceTimer] refers to. *)
Definition cancelled (st : State T) : State T :=
  match debounceTimer st with
  | Some id => clearTimeout id st
  | None => st
  end.

(** The timer [handleInput] registers when it schedules a fetch. *)
Definition scheduled (env : Env) (st : State T) : Timer :=
  mkTimer (nextTimer st) (now env + Z.max (debounceTime opts) 0)
          (FetchCallback (Js.trim (inputValue st))).

Definition isFetch (t : Timer) : bool :=
  match action t with FetchCallback _ => true | HideCallback => false end.

(** Every child of the panel shows the formatter's string as plain text. *)
Definition PlainText (st : State T) : Prop :=
  forall el, In el (children (container st)) ->
             content (node el) = TextContent (formatSelectedItem opts (click_suggestion el)).

Definition isMarkupCall (e : Effect T) : bool :=
  match e with
  | FormatSuggestionHTML _ | SanitizeHTML _ => true
  | _ => false
  end.

(** When each pending fetch is due and what it will ask for. *)
Definition pendingFetches (l : list Timer) : list (Z * TimerAction) :=
  map (fun t => (due t, action t)) (filter isFetch l).

(** The queries the callbacks of [l] call the source with, in order. *)
Definition actionQueries (a : TimerAction) : list string :=
  match a with
  | FetchCallback q => [q]
  | HideCallback => []
  end.

(** After an input or focus event at time [t0]: exactly the fetch that
    event scheduled is pending, if it scheduled one. *)
Definition Armed (t0 : Z) (st : State T) : Prop :=
  pendingFetches (timers st) =
    if schedules opts st
    then [(t0 + Z.max (debounceTime opts) 0, FetchCallback (Js.trim (inputValue st)))]
    else [].

Definition MarkupFree (l : list (Effect T)) : Prop :=
  forall e, In e l -> isMarkupCall e = false.

(** A step that calls neither markup callback and that keeps, for every
    child of the panel, the content and the item of a child that was there
    before. *)
Definition Quiet (st st' : State T) : Prop :=
  (exists l, trace st' = trace st ++ l /\ MarkupFree l) /\
  (forall el, In el (children (container st')) ->
              exists el0, In el0 (children (container st)) /\
                          content (node el) = content (node el0) /\
                          click_suggestion el = click_suggestion el0).

Definition Plain (st : State T) : Prop := PlainText st /\ MarkupFree (trace st).

(** Where the left and top edges of the panel end up in the viewport: a
    [fixed] box is placed in viewport coordinates, an [absolute] child of
    [body] in document coordinates, which the scroll offsets shift. *)
Definition viewportLeft (g : Geometry) (c : Container T) : option Z :=
  match style_position c with
  | Fixed => style_left c
  | Absolute => option_map (fun x => x - scrollX g) (style_left c)
  end.

Definition viewportTop (g : Geometry) (c : Container T) : option Z :=
  match style_position c with
  | Fixed => style_top c
  | Absolute => option_map (fun y => y - scrollY g) (style_top c)
  end.

Definition markedAbove (c : Container T) : bool :=
  Js.has_class "autocomplete-above" (container_classes c)
  && negb (Js.has_class "autocomplete-below" (container_classes c)).

Definition markedBelow (c : Container T) : bool :=
  Js.has_class "autocomplete-below" (container_classes c)
  && negb (Js.has_class "autocomplete-above" (container_classes c)).

(** The positioning scheme each file gives the panel. *)
Definition scheme (variant : Variant) : CssPosition :=
  match variant with TypeScript => Absolute | JavaScript => Fixed end.

Definition PositionInv (variant : Variant) (st : State T) : Prop :=
  style_position (container st) = scheme variant.

End Invariants.

(** ** The demonstration page of the repository *)

Module Demo.

Record Country : Type := mkCountry { name : string; id : Z }.

Definition countries : list Country :=
  [ mkCountry "United States" 1; mkCountry "United Kingdom" 2;
    mkCountry "Canada" 3; mkCountry "Australia" 4; mkCountry "Germany" 5 ].

Definition canada : Country := mkCountry "Canada" 3.

Definition decimal (z : Z) : string := NilZero.string_of_int (Z.to_int z).

(** The options of the demonstration: markup allowed, one character
    suffices, at most ten suggestions. *)
Definition user : UserOptions Country :=
  {| user_formatSelectedItem := name;
     user_formatSuggestionHTML :=
       Some (fun c => name c ++ " <i>ID: " ++ decimal (id c) ++ "</i>")%string;
     user_maxSuggestions := Some 10;
     user_minChars := Some 1;
     user_debounceTime := Some 300;
     user_containerClass := None;
     user_suggestionClass := None;
     user_activeClass := None;
     user_showDropdownIcon := None;
     user_dropdownIconClass := None;
     user_allowHTML := Some true;
     user_sanitizeHTML := None;
     user_renderSuggestion := None |}.

Definition options : Options Country := resolveOptions user.

(** A caller that passes nothing but the formatter. *)
Definition plain : Options Country := resolveOptions (onlyFormatter name).

(** The same caller asking for at most two suggestions. *)
Definition atMostTwo : Options Country :=
  resolveOptions
    {| user_formatSelectedItem := name;
       user_formatSuggestionHTML := None;
       user_maxSuggestions := Some 2;
       user_minChars := None;
       user_debounceTime := None;
       user_containerClass := None;
       user_suggestionClass := None;
       user_activeClass := None;
       user_showDropdownIcon := None;
       user_dropdownIconClass := None;
       user_allowHTML := None;
       user_sanitizeHTML := None;
       user_renderSuggestion := None |}.

Definition geometry : Geometry :=
  {| rect_top := 100; rect_bottom := 130; rect_left := 40; rect_width := 200;
     innerHeight := 800; scrollX := 0; scrollY := 250; offsetHeight := 90 |}.

Definition at_ (ms : Z) : Env := mkEnv ms geometry.

(** The user types "can"; 300 ms later the timer fires and the source
    answers with Canada. *)
Definition typeCan : list (Env * Event Country) :=
  [ (at_ 0, EvFocus); (at_ 10, EvInput "can");
    (at_ 310, EvTimer 2 ReplyAwaited);
    (at_ 320, EvSettle (Fulfilled (Items [canada]))) ].

Definition shown (variant : Variant) (o : Options Country) : option (State Country) :=
  exec variant o typeCan (construct variant o "" false).

Definition shownState (variant : Variant) (o : Options Country) : State Country :=
  match shown variant o with
  | Some st => st
  | None => construct variant o "" false
  end.

(** The user then presses ArrowDown. *)
Definition highlighted (variant : Variant) (o : Options Country) : State Country :=
  match exec variant o (typeCan ++ [(at_ 500, EvKeyDown ArrowDown)])
             (construct variant o "" false) with
  | Some st => st
  | None => construct variant o "" false
  end.

(** After "can" is answered the user types on; the timer of the new value
    has fired and its result is awaited while the old suggestions show. *)
Definition refetching (variant : Variant) (o : Options Country) : State Country :=
  match exec variant o
             (typeCan ++ [(at_ 400, EvInput "cana"); (at_ 700, EvTimer 3 ReplyAwaited)])
             (construct variant o "" false) with
  | Some st => st
  | None => construct variant o "" false
  end.

(** The page of [index.html]: a form holding a label, the field and a
    button. *)
Definition page : Page.Page :=
  {| Page.tree :=
       [ (Page.Html, [Page.Body]);
         (Page.Body, [Page.Other 0]);
         (Page.Other 0, [Page.Other 1; Page.Input; Page.Other 2]) ];
     Page.listeners := [];
     Page.nextFn := 0;
     Page.paddingRight := "" |}.

End Demo.

(** ** Further invariants *)

(** A string that does not begin with white space. *)
Definition headTrimmed (s : string) : Prop :=
  match s with
  | EmptyString => True
  | String c _ => Js.is_space c = false
  end.

(** Some suffix of [s] begins with [p], letter case apart. *)
Fixpoint occurs_ci (p s : string) : bool :=
  match s with
  | EmptyString => Sanitizer.starts_with_ci p EmptyString
  | String _ r => Sanitizer.starts_with_ci p s || occurs_ci p r
  end.


Section MoreInvariants.

Context {T : Type}.
Variable opts : Options T.

(** The icon exists exactly when the caller asked for it, and carries the
    class of the open state exactly while the panel is displayed. *)
Definition IconInv (st : State T) : Prop :=
  match dropdownIcon st with
  | Some cl =>
      showDropdownIcon opts = true /\
      Js.has_class "autocomplete-icon-active" cl = visible st
  | None => showDropdownIcon opts = false
  end.

(** A displayed panel lists at least one suggestion. *)
Definition ShownInv (st : State T) : Prop :=
  visible st = true -> exists item items, suggestions st = Items (item :: items).


(** What the default renderer writes into the element of an item. *)
Definition defaultContent (item : T) : Content :=
  if allowHTML opts
  then InnerHTML (sanitizeHTML opts (formatSuggestionHTML opts item))
  else TextContent (formatSelectedItem opts item).

Definition ContentInv (st : State T) : Prop :=
  forall el, In el (children (container st)) ->
             content (node el) = defaultContent (click_suggestion el) /\
             role (node el) = "option"%string.

(** A query [handleInput] may schedule: trimmed, and either empty or at
    least [minChars] long. *)
Definition GoodQuery (q : string) : Prop :=
  Js.trim q = q /\ (q = EmptyString \/ minChars opts <= Js.length q).

Definition QueryInv (st : State T) : Prop :=
  (forall t q, In t (timers st) -> action t = FetchCallback q -> GoodQuery q) /\
  (forall q, In q (queries (trace st)) -> GoodQuery q).

End MoreInvariants.

(** ** Further example configurations *)

Module Examples.

(** The demonstration with the dropdown icon switched on. *)
Definition withIcon : Options Demo.Country :=
  resolveOptions
    {| user_formatSelectedItem := Demo.name;
       user_formatSuggestionHTML := None;
       user_maxSuggestions := None;
       user_minChars := None;
       user_debounceTime := None;
       user_containerClass := None;
       user_suggestionClass := None;
       user_activeClass := None;
       user_showDropdownIcon := Some true;
       user_dropdownIconClass := None;
       user_allowHTML := None;
       user_sanitizeHTML := None;
       user_renderSuggestion := None |}.


Definition afterScript (variant : Variant) (o : Options Demo.Country)
           (script : list (Env * Event Demo.Country)) : State Demo.Country :=
  match exec variant o script (construct variant o "" false) with
  | Some st => st
  | None => construct variant o "" false
  end.

End Examples.

(** * Properties *)

(** ** JavaScript primitives *)

Lemma length_zero_empty (s : string) : Js.length s = 0 -> s = EmptyString.
Proof.
  unfold Js.length; destruct s as [|c r]; [reflexivity | simpl; lia].
Qed.

Lemma slice0_nonneg {A : Type} (arr : list A) (e : Z) :
  0 <= e ->
  Js.slice0 arr e = firstn (Nat.min (List.length arr) (Z.to_nat e)) arr.
Proof.
  intros He; unfold Js.slice0.
  destruct (e <? 0) eqn:Hneg; [apply Z.ltb_lt in Hneg; lia |].
  f_equal; lia.
Qed.

Lemma slice0_length {A : Type} (arr : list A) (e : Z) :
  0 <= e -> Z.of_nat (List.length (Js.slice0 arr e)) <= e.
Proof.
  intros He; rewrite slice0_nonneg by assumption.
  rewrite length_firstn; lia.
Qed.

Lemma slice0_prefix {A : Type} (arr : list A) (e : Z) :
  exists rest, arr = Js.slice0 arr e ++ rest.
Proof.
  unfold Js.slice0; eexists; symmetry; apply firstn_skipn.
Qed.

Lemma has_class_app (c : string) (l l' : list string) :
  Js.has_class c (l ++ l') = Js.has_class c l || Js.has_class c l'.
Proof. unfold Js.has_class; apply existsb_app. Qed.

Lemma has_class_add_same (c : string) (l : list string) :
  Js.has_class c (Js.classList_add c l) = true.
Proof.
  unfold Js.classList_add; destruct (Js.has_class c l) eqn:H; [exact H |].
  rewrite has_class_app; simpl; rewrite String.eqb_refl, orb_true_r; reflexivity.
Qed.


Lemma has_class_remove_same (c : string) (l : list string) :
  Js.has_class c (Js.classList_remove c l) = false.
Proof.
  unfold Js.has_class, Js.classList_remove; induction l as [|x l IH]; [reflexivity |].
  simpl; destruct (String.eqb c x) eqn:H; simpl; [exact IH | rewrite H; exact IH].
Qed.

Lemma has_class_remove_other (c d : string) (l : list string) :
  String.eqb c d = false ->
  Js.has_class c (Js.classList_remove d l) = Js.has_class c l.
Proof.
  intros Hcd; unfold Js.has_class, Js.classList_remove; induction l as [|x l IH];
    [reflexivity |].
  simpl; destruct (String.eqb d x) eqn:H; simpl.
  - apply String.eqb_eq in H; subst x; rewrite Hcd; exact IH.
  - rewrite IH; reflexivity.
Qed.

Example trim_strips_both_ends : Js.trim "  a b  " = "a b"%string.
Proof. reflexivity. Qed.

Example slice0_truncates : Js.slice0 [1; 2; 3; 4; 5] 2 = [1; 2].
Proof. reflexivity. Qed.

Example slice0_negative_end : Js.slice0 [1; 2; 3] (-1) = [1; 2].
Proof. reflexivity. Qed.

Example sanitizer_strips_script_blocks :
  Sanitizer.sanitizeDefaultHTML "a<script>x()</SCRIPT>b<scriptx></script>c<script src=y>"
  = "ab<scriptx></script>c<script src=y>"%string.
Proof. reflexivity. Qed.

(** ** What each method writes *)

Ltac icon_cases :=
  intros; unfold hide, show, display, visible; simpl;
  repeat match goal with
         | |- context [dropdownIcon ?s] => destruct (dropdownIcon s)
         end;
  simpl; try reflexivity.

Section MethodFacts.

Context {T : Type}.
Variable variant : Variant.
Variable opts : Options T.

Implicit Types st : State T.

Lemma hide_suggestions st : suggestions (hide st) = suggestions st.
Proof. icon_cases. Qed.

Lemma hide_activeIndex st : activeIndex (hide st) = -1.
Proof. icon_cases. Qed.

Lemma hide_display st : display (hide st) = DisplayNone.
Proof. icon_cases. Qed.

Lemma hide_visible st : visible (hide st) = false.
Proof. icon_cases. Qed.

Lemma hide_children st : children (container (hide st)) = children (container st).
Proof. icon_cases. Qed.

Lemma hide_trace st : trace (hide st) = trace st.
Proof. icon_cases. Qed.

Lemma hide_timers st : timers (hide st) = timers st.
Proof. icon_cases. Qed.

Lemma hide_nextTimer st : nextTimer (hide st) = nextTimer st.
Proof. icon_cases. Qed.

Lemma hide_debounceTimer st : debounceTimer (hide st) = debounceTimer st.
Proof. icon_cases. Qed.

Lemma hide_inputValue st : inputValue (hide st) = inputValue st.
Proof. icon_cases. Qed.

Lemma hide_focused st : focused (hide st) = focused st.
Proof. icon_cases. Qed.

Lemma hide_inflight st : inflight (hide st) = inflight st.
Proof. icon_cases. Qed.

Lemma hide_style_position st :
  style_position (container (hide st)) = style_position (container st).
Proof. icon_cases. Qed.

Lemma update_children g (c : Container T) :
  children (updateContainerPosition variant g c) = children c.
Proof.
  unfold updateContainerPosition.
  destruct variant, (_ && _); reflexivity.
Qed.

Lemma update_display g (c : Container T) :
  style_display (updateContainerPosition variant g c) = style_display c.
Proof.
  unfold updateContainerPosition.
  destruct variant, (_ && _); reflexivity.
Qed.

Lemma show_suggestions env st : suggestions (show variant env st) = suggestions st.
Proof. icon_cases. Qed.

Lemma show_activeIndex env st : activeIndex (show variant env st) = activeIndex st.
Proof. icon_cases. Qed.

Lemma show_visible env st : visible (show variant env st) = true.
Proof.
  icon_cases; unfold display; simpl; rewrite update_display; reflexivity.
Qed.

Lemma show_children env st :
  children (container (show variant env st)) = children (container st).
Proof. icon_cases; rewrite update_children; reflexivity. Qed.

Lemma show_trace env st : trace (show variant env st) = trace st.
Proof. icon_cases. Qed.

Lemma show_timers env st : timers (show variant env st) = timers st.
Proof. icon_cases. Qed.

Lemma show_nextTimer env st : nextTimer (show variant env st) = nextTimer st.
Proof. icon_cases. Qed.

Lemma show_debounceTimer env st :
  debounceTimer (show variant env st) = debounceTimer st.
Proof. icon_cases. Qed.

Lemma show_inputValue env st : inputValue (show variant env st) = inputValue st.
Proof. icon_cases. Qed.

Lemma show_focused env st : focused (show variant env st) = focused st.
Proof. icon_cases. Qed.

(** *** [render] *)

Lemma renderFrom_click (k : Z) (items : list T) :
  map click_suggestion (fst (renderFrom opts k items)) = items.
Proof.
  revert k; induction items as [|s items IH]; intros k; [reflexivity |].
  simpl. destruct (runRenderSuggestion opts s _) as [el calls].
  specialize (IH (k + 1)). destruct (renderFrom opts (k + 1) items) as [els calls'].
  simpl in *; f_equal; exact IH.
Qed.

Lemma renderFrom_index (k : Z) (items : list T) :
  map mouseenter_index (fst (renderFrom opts k items))
  = map (fun i => k + Z.of_nat i) (seq 0 (List.length items)).
Proof.
  revert k; induction items as [|s items IH]; intros k; [reflexivity |].
  simpl. destruct (runRenderSuggestion opts s _) as [el calls].
  specialize (IH (k + 1)). destruct (renderFrom opts (k + 1) items) as [els calls'].
  simpl in *. f_equal; [lia |].
  rewrite IH, <- seq_shift, map_map. apply map_ext; intros i; lia.
Qed.

Lemma renderFrom_length (k : Z) (items : list T) :
  List.length (fst (renderFrom opts k items)) = List.length items.
Proof.
  rewrite <- (renderFrom_click k items) at 2. rewrite length_map; reflexivity.
Qed.

Lemma renderFrom_Rendered (items : list T) :
  Rendered items (fst (renderFrom opts 0 items)).
Proof.
  split; [apply renderFrom_click |].
  rewrite renderFrom_index, renderFrom_length. apply map_ext; intros i; lia.
Qed.

Lemma render_items st (items : list T) :
  suggestions st = Items items ->
  render opts st =
    Done (emit (snd (renderFrom opts 0 items))
            (set_container (set_children (fst (renderFrom opts 0 items)) (container st))
               (set_activeIndex (-1) st))).
Proof.
  intros H; unfold render; simpl; rewrite H.
  destruct (renderFrom opts 0 items); reflexivity.
Qed.

Lemma render_activeIndex st : activeIndex (state_of (render opts st)) = -1.
Proof.
  unfold render; simpl. destruct (suggestions st); [| reflexivity].
  destruct (renderFrom opts 0 items); reflexivity.
Qed.

(** *** [highlightActive] *)

Lemma highlightFrom_click (a k : Z) (els : list (Element T)) :
  map click_suggestion (highlightFrom opts a k els) = map click_suggestion els.
Proof.
  revert k; induction els as [|e els IH]; intros k; [reflexivity |].
  simpl; destruct (Js.has_class _ _); simpl; rewrite IH; reflexivity.
Qed.

Lemma highlightFrom_index (a k : Z) (els : list (Element T)) :
  map mouseenter_index (highlightFrom opts a k els) = map mouseenter_index els.
Proof.
  revert k; induction els as [|e els IH]; intros k; [reflexivity |].
  simpl; destruct (Js.has_class _ _); simpl; rewrite IH; reflexivity.
Qed.

Lemma highlightFrom_content (a k : Z) (els : list (Element T)) :
  map (fun e => content (node e)) (highlightFrom opts a k els)
  = map (fun e => content (node e)) els.
Proof.
  revert k; induction els as [|e els IH]; intros k; [reflexivity |].
  simpl; destruct (Js.has_class _ _); simpl; rewrite IH; reflexivity.
Qed.

Lemma highlightFrom_length (a k : Z) (els : list (Element T)) :
  List.length (highlightFrom opts a k els) = List.length els.
Proof.
  rewrite <- (length_map click_suggestion), highlightFrom_click, length_map.
  reflexivity.
Qed.

Lemma highlight_Rendered (a k : Z) (items : list T) (els : list (Element T)) :
  Rendered items els -> Rendered items (highlightFrom opts a k els).
Proof.
  intros [Hc Hi]; split.
  - rewrite highlightFrom_click; exact Hc.
  - rewrite highlightFrom_index, highlightFrom_length; exact Hi.
Qed.

Lemma Rendered_length (items : list T) (els : list (Element T)) :
  Rendered items els -> List.length els = List.length items.
Proof. intros [Hc _]; rewrite <- Hc, length_map; reflexivity. Qed.

Lemma Rendered_nth (items : list T) (els : list (Element T)) (i : nat) (el : Element T) :
  Rendered items els -> nth_error els i = Some el ->
  mouseenter_index el = Z.of_nat i /\ nth_error items i = Some (click_suggestion el).
Proof.
  intros [Hc Hi] Hn; split.
  - assert (Hlt : (i < List.length els)%nat)
      by (apply nth_error_Some; rewrite Hn; discriminate).
    pose proof (map_nth_error mouseenter_index i els Hn) as H.
    rewrite Hi in H.
    rewrite (map_nth_error Z.of_nat i (seq 0 (List.length els)) (d := i)) in H.
    + congruence.
    + rewrite nth_error_nth' with (d := O) by (rewrite length_seq; exact Hlt).
      rewrite seq_nth by exact Hlt; reflexivity.
  - rewrite <- Hc; apply map_nth_error; exact Hn.
Qed.

End MethodFacts.

(** ** [handleInput] *)

Section InputFacts.

Context {T : Type}.
Variable variant : Variant.
Variable opts : Options T.

Implicit Types st : State T.

Lemma cancelled_fields st :
  suggestions (cancelled st) = suggestions st /\
  activeIndex (cancelled st) = activeIndex st /\
  container (cancelled st) = container st /\
  trace (cancelled st) = trace st /\
  inputValue (cancelled st) = inputValue st /\
  focused (cancelled st) = focused st /\
  nextTimer (cancelled st) = nextTimer st /\
  debounceTimer (cancelled st) = debounceTimer st /\
  inflight (cancelled st) = inflight st.
Proof. unfold cancelled; destruct (debounceTimer st) eqn:E; simpl; rewrite ?E; tauto. Qed.

Lemma cancelled_timers st :
  timers (cancelled st) =
    match debounceTimer st with
    | Some id => filter (fun t => negb (timer_id t =? id)%nat) (timers st)
    | None => timers st
    end.
Proof. unfold cancelled; destruct (debounceTimer st); reflexivity. Qed.

(** [handleInput] either registers one timer for the trimmed value, or
    hides the panel; in both cases after clearing the previous timer. *)
Lemma handleInput_cases env st :
  handleInput opts env st =
    if schedules opts st
    then set_debounceTimer (Some (nextTimer st))
           (set_timers (timers (cancelled st) ++ [scheduled opts env st])
                       (S (nextTimer st)) (cancelled st))
    else hide (cancelled st).
Proof.
  unfold handleInput, schedules, scheduled. fold (cancelled st).
  destruct (cancelled_fields st) as (_ & _ & _ & _ & _ & Hf & Hn & _).
  rewrite Hf. unfold setTimeout. rewrite Hn.
  destruct (Js.length (Js.trim (inputValue st)) =? 0) eqn:Hz.
  - apply Z.eqb_eq in Hz. rewrite (length_zero_empty _ Hz).
    destruct (focused st); simpl; [reflexivity |].
    destruct (Js.length "" <? minChars opts); reflexivity.
  - simpl. destruct (Js.length _ <? minChars opts); reflexivity.
Qed.

End InputFacts.

(** ** The invariant of the suggestion list and the active index *)

Ltac inv_split := split; [| split; [| split; [| split]]].

Section WidgetInvariant.

Context {T : Type}.
Variable variant : Variant.
Variable opts : Options T.
Variable ok : list T -> Prop.

Implicit Types st : State T.

Lemma WidgetInv_ext st st' :
  suggestions st' = suggestions st ->
  activeIndex st' = activeIndex st ->
  visible st' = visible st ->
  children (container st') = children (container st) ->
  WidgetInv ok st -> WidgetInv ok st'.
Proof.
  intros Hs Ha Hv Hc (items & H1 & H2 & H3 & H4 & H5).
  exists items; rewrite Hs, Ha, Hv, Hc; auto.
Qed.

Lemma WidgetInv_hide st st' :
  suggestions st' = suggestions st ->
  WidgetInv ok st -> WidgetInv ok (hide st').
Proof.
  intros Hs (items & H1 & H2 & H3 & _).
  exists items. rewrite hide_suggestions, hide_activeIndex, hide_visible, Hs.
  inv_split; auto; try lia; try discriminate.
Qed.

Lemma WidgetInv_highlight st (items : list T) (i : Z) :
  WidgetInv ok st -> visible st = true -> suggestions st = Items items ->
  -1 <= i <= Z.of_nat (List.length items) - 1 ->
  WidgetInv ok (highlightActive opts (set_activeIndex i st)).
Proof.
  intros (items' & H1 & H2 & H3 & H4 & H5) Hv Hs Hi.
  rewrite Hs in H1; injection H1 as <-.
  assert (Hv' : visible (highlightActive opts (set_activeIndex i st)) = true)
    by exact Hv.
  exists items; inv_split; simpl; auto; try lia.
  - intros _. apply highlight_Rendered, H4, Hv.
  - rewrite Hv'; discriminate.
Qed.

Lemma WidgetInv_handleInput env st :
  WidgetInv ok st -> WidgetInv ok (handleInput opts env st).
Proof.
  intros H. rewrite handleInput_cases.
  destruct (cancelled_fields st) as (Hs & Ha & Hc & _).
  destruct (schedules opts st).
  - apply WidgetInv_ext with (st := st); simpl; auto.
    + unfold visible, display; simpl; rewrite Hc; reflexivity.
    + rewrite Hc; reflexivity.
  - apply WidgetInv_hide with (st := st); auto.
Qed.

Lemma WidgetInv_handleKeyDown key st :
  WidgetInv ok st -> WidgetInv ok (state_of (handleKeyDown opts key st)).
Proof.
  intros H. unfold handleKeyDown.
  destruct (visible st) eqn:Hv; simpl; [| exact H].
  destruct H as (items & H1 & H2 & H3 & H4 & H5).
  assert (Hinv : WidgetInv ok st) by (exists items; auto).
  destruct key; simpl; try exact Hinv.
  - rewrite H1.
    apply (WidgetInv_highlight (emit [PreventDefault] st) items); auto; simpl; lia.
  - apply (WidgetInv_highlight (emit [PreventDefault] st) items); auto; simpl; lia.
  - destruct (activeIndex st >=? 0); simpl; [| exact Hinv].
    rewrite H1. destruct (nth_error items _); simpl; [| exact Hinv].
    unfold selectSuggestion. apply WidgetInv_hide with (st := st); auto.
  - apply WidgetInv_hide with (st := st); auto.
Qed.

(** The continuation of the [await] when the source delivers a sequence. *)
Lemma settle_items env st (items : list T) :
  settle variant opts env (Fulfilled (Items items)) st =
    let items' := Js.slice0 items (maxSuggestions opts) in
    let st2 := set_suggestions (Items items') (set_inflight (Nat.pred (inflight st)) st) in
    Done (if Z.of_nat (List.length items') >? 0
          then show variant env
                 (emit (snd (renderFrom opts 0 items'))
                    (set_container
                       (set_children (fst (renderFrom opts 0 items')) (container st2))
                       (set_activeIndex (-1) st2)))
          else hide st2).
Proof.
  unfold settle, afterAwait; simpl.
  destruct (Z.of_nat (List.length (Js.slice0 items (maxSuggestions opts))) >? 0);
    [| reflexivity].
  rewrite render_items with (items := Js.slice0 items (maxSuggestions opts))
    by reflexivity.
  reflexivity.
Qed.

Lemma settle_rejected env st :
  settle variant opts env Rejected st =
    Done (hide (emit [ConsoleError] (set_inflight (Nat.pred (inflight st)) st))).
Proof. reflexivity. Qed.

Lemma WidgetInv_settle env st r :
  (forall items, ok (Js.slice0 items (maxSuggestions opts))) ->
  well_typed (EvSettle r) = true ->
  WidgetInv ok st -> WidgetInv ok (state_of (settle variant opts env r st)).
Proof.
  intros Hok Hty H. destruct r as [[items |] |]; try discriminate.
  - rewrite settle_items; simpl.
    pose proof (Hok items) as Hlen.
    set (items' := Js.slice0 items (maxSuggestions opts)) in *.
    destruct (Z.of_nat (List.length items') >? 0) eqn:Hpos.
    + exists items'.
      rewrite show_suggestions, show_activeIndex, show_visible, show_children; simpl.
      apply Z.gtb_lt in Hpos.
      inv_split; auto; try lia; try discriminate.
      intros _; apply renderFrom_Rendered.
    + exists items'.
      rewrite hide_suggestions, hide_activeIndex, hide_visible; simpl.
      inv_split; auto; try lia; try discriminate.
  - rewrite settle_rejected; simpl. apply WidgetInv_hide with (st := st); auto.
Qed.

End WidgetInvariant.

Section WidgetInvariantSteps.

Context {T : Type}.
Variable variant : Variant.
Variable opts : Options T.
Variable ok : list T -> Prop.
Hypothesis ok_nil : ok [].
Hypothesis ok_slice : forall items, ok (Js.slice0 items (maxSuggestions opts)).

Implicit Types st : State T.

Lemma WidgetInv_construct value isFocused :
  WidgetInv ok (construct variant opts value isFocused).
Proof.
  exists []; simpl. inv_split; auto; try lia; try discriminate.
Qed.

Lemma WidgetInv_runTimer a reply st st0 :
  suggestions st0 = suggestions st -> activeIndex st0 = activeIndex st ->
  container st0 = container st ->
  WidgetInv ok st -> WidgetInv ok (runTimer a reply st0).
Proof.
  intros Hs Ha Hc H. destruct a as [q |]; simpl.
  - destruct reply; simpl.
    + apply WidgetInv_hide with (st := st); auto.
    + apply WidgetInv_ext with (st := st); simpl; auto.
      * unfold visible, display; simpl; rewrite Hc; reflexivity.
      * rewrite Hc; reflexivity.
  - apply WidgetInv_hide with (st := st); auto.
Qed.

Lemma WidgetInv_reposition env st :
  WidgetInv ok st -> WidgetInv ok (handlePositionUpdate variant env st).
Proof.
  intros H. unfold handlePositionUpdate. destruct (visible st) eqn:Hv; [| exact H].
  apply WidgetInv_ext with (st := st); simpl; auto.
  - unfold visible, display in *; simpl; rewrite update_display; reflexivity.
  - apply update_children.
Qed.

Lemma WidgetInv_step env ev st st' :
  well_typed ev = true -> WidgetInv ok st ->
  step variant opts env ev st = Some st' -> WidgetInv ok st'.
Proof.
  intros Hty H Hstep. destruct ev; simpl in Hstep.
  - injection Hstep as <-. apply WidgetInv_handleInput.
    apply WidgetInv_ext with (st := st); auto.
  - injection Hstep as <-. apply WidgetInv_handleInput.
    apply WidgetInv_ext with (st := st); auto.
  - injection Hstep as <-. apply WidgetInv_ext with (st := st); auto.
  - destruct (dropdownIcon st); [| discriminate]. injection Hstep as <-.
    unfold onIconClick.
    assert (H1 : WidgetInv ok
                   (if focused st then st
                    else handleInput opts env (set_focused true st))).
    { destruct (focused st); [exact H |].
      apply WidgetInv_handleInput. apply WidgetInv_ext with (st := st); auto. }
    destruct (visible _).
    + eapply WidgetInv_hide; [reflexivity | exact H1].
    + apply WidgetInv_handleInput; exact H1.
  - injection Hstep as <-. apply WidgetInv_handleKeyDown; exact H.
  - destruct (visible st) eqn:Hv; [| discriminate].
    destruct (nth_error (children (container st)) child) as [el |] eqn:Hn;
      [| discriminate].
    injection Hstep as <-.
    destruct H as (items & H1 & H2 & H3 & H4 & H5).
    destruct (Rendered_nth items _ child el (H4 Hv) Hn) as [Hi Hitem].
    assert (Hlt : (child < List.length items)%nat)
      by (apply nth_error_Some; rewrite Hitem; discriminate).
    unfold onMouseEnter.
    apply (WidgetInv_highlight opts ok st items); auto; [| lia].
    exists items; auto.
  - destruct (visible st); [| discriminate].
    destruct (nth_error (children (container st)) child) as [el |];
      [| discriminate].
    injection Hstep as <-. unfold onClick, selectSuggestion.
    apply WidgetInv_hide with (st := st); auto.
  - destruct (pending id st) as [t |]; [| discriminate].
    destruct (due t <=? now env); [| discriminate].
    injection Hstep as <-. apply WidgetInv_runTimer with (st := st); auto.
  - destruct (inflight st); [discriminate |]. injection Hstep as <-.
    apply WidgetInv_settle; auto.
  - injection Hstep as <-. apply WidgetInv_reposition; exact H.
Qed.

Lemma WidgetInv_exec script st st' :
  forallb (fun p => well_typed (snd p)) script = true ->
  WidgetInv ok st -> exec variant opts script st = Some st' -> WidgetInv ok st'.
Proof.
  revert st; induction script as [| [env ev] script IH]; intros st Hty H Hex.
  - injection Hex as <-; exact H.
  - simpl in Hty, Hex. apply andb_prop in Hty as [Hev Hrest].
    destruct (step variant opts env ev st) as [st1 |] eqn:Hstep; [| discriminate].
    apply (IH st1); auto. eapply WidgetInv_step; eauto.
Qed.

Lemma WidgetInv_reachable st : ReachableTyped variant opts st -> WidgetInv ok st.
Proof.
  intros (value & isFocused & script & Hty & Hex).
  eapply WidgetInv_exec; eauto. apply WidgetInv_construct.
Qed.

End WidgetInvariantSteps.

(** ** The active index stays in range *)

(** C1: in every state the widget can reach (with a source that delivers
    sequences and a configured maximum that is a count), the active index
    lies in [-1 .. suggestions.length - 1] and the stored suggestions are at
    most [maxSuggestions]; [render] and [hide] reset the index to -1,
    ArrowDown moves it up by one but not past the last suggestion, ArrowUp
    moves it down by one but not below -1, hovering a child of the panel sets
    it to the position of that child, and every event leads to a state in
    which the bounds hold again. *)
Theorem active_index_in_range {T : Type} (variant : Variant) (opts : Options T)
        (st : State T) :
  0 <= maxSuggestions opts ->
  ReachableTyped variant opts st ->
  exists items,
    suggestions st = Items items /\
    -1 <= activeIndex st <= Z.of_nat (List.length items) - 1 /\
    Z.of_nat (List.length items) <= maxSuggestions opts /\
    activeIndex (state_of (render opts st)) = -1 /\
    activeIndex (hide st) = -1 /\
    (visible st = true ->
     activeIndex (state_of (handleKeyDown opts ArrowDown st))
     = Z.min (activeIndex st + 1) (Z.of_nat (List.length items) - 1)) /\
    (visible st = true ->
     activeIndex (state_of (handleKeyDown opts ArrowUp st))
     = Z.max (activeIndex st - 1) (-1)) /\
    (forall env child st',
        step variant opts env (EvMouseEnter child) st = Some st' ->
        activeIndex st' = Z.of_nat child /\ (child < List.length items)%nat) /\
    (forall env ev st',
        well_typed ev = true ->
        step variant opts env ev st = Some st' ->
        exists items',
          suggestions st' = Items items' /\
          -1 <= activeIndex st' <= Z.of_nat (List.length items') - 1 /\
          Z.of_nat (List.length items') <= maxSuggestions opts).
Proof.
  intros Hmax Hreach.
  set (ok := fun items : list T => Z.of_nat (List.length items) <= maxSuggestions opts).
  assert (Hnil : ok []) by exact Hmax.
  assert (Hslice : forall items, ok (Js.slice0 items (maxSuggestions opts)))
    by (intros items; apply slice0_length; exact Hmax).
  pose proof (WidgetInv_reachable variant opts ok Hnil Hslice st Hreach) as Hinv.
  destruct Hinv as (items & H1 & H2 & H3 & H4 & H5).
  exists items. repeat (split; [assumption || lia |]).
  split; [apply render_activeIndex |].
  split; [apply hide_activeIndex |].
  split; [| split; [| split]].
  - intros Hv. unfold handleKeyDown. rewrite Hv; simpl. rewrite H1; reflexivity.
  - intros Hv. unfold handleKeyDown. rewrite Hv; reflexivity.
  - intros env child st' Hstep. simpl in Hstep.
    destruct (visible st) eqn:Hv; [| discriminate].
    destruct (nth_error (children (container st)) child) as [el |] eqn:Hn;
      [| discriminate].
    injection Hstep as <-.
    destruct (Rendered_nth items _ child el (H4 eq_refl) Hn) as [Hi Hitem].
    split; [exact Hi |]. apply nth_error_Some; rewrite Hitem; discriminate.
  - intros env ev st' Hty Hstep.
    assert (Hinv : WidgetInv ok st) by (exists items; auto).
    destruct (WidgetInv_step variant opts ok Hslice env ev st st' Hty Hinv Hstep)
      as (items' & K1 & K2 & K3 & _).
    exists items'; auto.
Qed.

Lemma active_index_in_range_witness :
  0 <= maxSuggestions Demo.options /\
  ReachableTyped TypeScript Demo.options (Demo.shownState TypeScript Demo.options) /\
  -1 <= activeIndex (Demo.shownState TypeScript Demo.options) <= 0.
Proof.
  assert (Hmax : 0 <= maxSuggestions Demo.options) by (vm_compute; discriminate).
  assert (Hreach : ReachableTyped TypeScript Demo.options
                     (Demo.shownState TypeScript Demo.options)).
  { exists EmptyString, false, Demo.typeCan. split; vm_compute; reflexivity. }
  split; [exact Hmax |]. split; [exact Hreach |].
  destruct (active_index_in_range TypeScript Demo.options _ Hmax Hreach)
    as (items & Hs & Hrange & _).
  vm_compute in Hs. injection Hs as <-. exact Hrange.
Defined.

(** ** Timers *)

Section TimerFacts.

Context {T : Type}.
Variable variant : Variant.
Variable opts : Options T.

Implicit Types st : State T.

Lemma sameTimers_refl st : sameTimers st st.
Proof. repeat split. Qed.

Lemma sameTimers_trans st1 st2 st3 :
  sameTimers st1 st2 -> sameTimers st2 st3 -> sameTimers st1 st3.
Proof. unfold sameTimers; intuition congruence. Qed.

Lemma sameTimers_hide st : sameTimers st (hide st).
Proof.
  repeat split; [apply hide_timers | apply hide_nextTimer | apply hide_debounceTimer].
Qed.

Lemma sameTimers_show env st : sameTimers st (show variant env st).
Proof.
  repeat split; [apply show_timers | apply show_nextTimer | apply show_debounceTimer].
Qed.

Lemma sameTimers_handleKeyDown key st :
  sameTimers st (state_of (handleKeyDown opts key st)).
Proof.
  unfold handleKeyDown, selectSuggestion, sameTimers.
  destruct (visible st); simpl; [| auto].
  destruct key; simpl; auto.
  - destruct (suggestions st); simpl; auto.
  - destruct (activeIndex st >=? 0); simpl; auto.
    destruct (suggestions st); simpl; auto.
    destruct (nth_error _ _); simpl; auto.
    rewrite hide_timers, hide_nextTimer, hide_debounceTimer; auto.
  - rewrite hide_timers, hide_nextTimer, hide_debounceTimer; auto.
Qed.

Lemma sameTimers_settle env r st :
  sameTimers st (state_of (settle variant opts env r st)).
Proof.
  destruct r as [[items |] |].
  - rewrite settle_items; simpl. destruct (_ >? 0).
    + eapply sameTimers_trans; [| apply sameTimers_show]. repeat split.
    + eapply sameTimers_trans; [| apply sameTimers_hide]. repeat split.
  - unfold settle, afterAwait; simpl. destruct variant; simpl.
    + eapply sameTimers_trans; [| apply sameTimers_hide]. repeat split.
    + repeat split.
  - rewrite settle_rejected; simpl.
    eapply sameTimers_trans; [| apply sameTimers_hide]. repeat split.
Qed.

Lemma sameTimers_reposition env st :
  sameTimers st (handlePositionUpdate variant env st).
Proof. unfold handlePositionUpdate; destruct (visible st); repeat split. Qed.

Lemma TimerInv_ext st st' : sameTimers st st' -> TimerInv st -> TimerInv st'.
Proof.
  intros (Ht & Hn & Hd) (H1 & H2 & H3). unfold TimerInv.
  rewrite Ht, Hn, Hd. auto.
Qed.

(** Handles stay distinct when timers are removed. *)
Lemma distinct_ids_filter (keep : Timer -> bool) (pendingTimers : list Timer) :
  NoDup (map timer_id pendingTimers) ->
  NoDup (map timer_id (filter keep pendingTimers)).
Proof.
  intros Hdistinct.
  induction pendingTimers as [| t rest IH]; simpl in *; [constructor |].
  apply NoDup_cons_iff in Hdistinct as [Hfresh Hrest].
  destruct (keep t); simpl; [| exact (IH Hrest)].
  apply NoDup_cons_iff; split; [| exact (IH Hrest)].
  intros Hin; apply Hfresh.
  apply in_map_iff in Hin as (u & Hu & Hin).
  apply filter_In in Hin as [Hin _].
  apply in_map_iff; exists u; split; assumption.
Qed.

(** Removing timers keeps the invariant. *)
Lemma TimerInv_filter (p : Timer -> bool) st st' :
  timers st' = filter p (timers st) ->
  nextTimer st' = nextTimer st ->
  debounceTimer st' = debounceTimer st ->
  TimerInv st -> TimerInv st'.
Proof.
  intros Ht Hn Hd (H1 & H2 & H3). unfold TimerInv. rewrite Ht, Hn, Hd.
  split; [| split].
  - intros t Hin; apply filter_In in Hin as [Hin _]; auto.
  - apply distinct_ids_filter; exact H2.
  - intros t q Hin; apply filter_In in Hin as [Hin _]; eauto.
Qed.

Lemma TimerInv_cancelled st : TimerInv st -> TimerInv (cancelled st).
Proof.
  intros H. destruct (cancelled_fields st) as (_ & _ & _ & _ & _ & _ & Hn & Hd & _).
  pose proof (cancelled_timers st) as Ht.
  destruct (debounceTimer st) as [id |] eqn:E.
  - eapply TimerInv_filter; eauto. congruence.
  - apply TimerInv_ext with (st := st); [repeat split; congruence | exact H].
Qed.

(** Once the timer the widget refers to is cleared, no fetch is pending. *)
Lemma cancelled_no_fetch st :
  TimerInv st -> filter isFetch (timers (cancelled st)) = [].
Proof.
  intros (H1 & H2 & H3). rewrite cancelled_timers.
  assert (Hnone : forall l : list Timer,
             (forall t, In t l -> isFetch t = false) -> filter isFetch l = []).
  { induction l as [| a l IH]; intros Hall; [reflexivity |]. simpl.
    rewrite (Hall a) by (left; reflexivity). apply IH; intros; apply Hall; right; auto. }
  apply Hnone. intros t Hin. unfold isFetch.
  destruct (action t) as [q |] eqn:Ha; [| reflexivity].
  destruct (debounceTimer st) as [id |] eqn:E.
  - apply filter_In in Hin as [Hin Hne].
    specialize (H3 t q Hin Ha). injection H3 as Heq.
    rewrite Heq, Nat.eqb_refl in Hne; discriminate.
  - specialize (H3 t q Hin Ha); discriminate.
Qed.

(** Registering a timer under the next handle keeps the invariant when it
    is not a fetch, or when the widget now refers to it and no other fetch
    is pending. *)
Lemma TimerInv_add st (t : Timer) (d : option nat) :
  timer_id t = nextTimer st ->
  (isFetch t = true ->
   d = Some (timer_id t) /\ filter isFetch (timers st) = []) ->
  (isFetch t = false -> d = debounceTimer st) ->
  TimerInv st ->
  TimerInv (set_debounceTimer d (set_timers (timers st ++ [t]) (S (nextTimer st)) st)).
Proof.
  intros Hid Hfetch Hother (H1 & H2 & H3). unfold TimerInv; simpl.
  split; [| split].
  - intros u Hin; apply in_app_or in Hin as [Hin | [<- | []]].
    + specialize (H1 u Hin); lia.
    + lia.
  - rewrite map_app; simpl. apply NoDup_app; [exact H2 | repeat constructor; auto |].
    intros x Hin [<- | []]. apply in_map_iff in Hin as (u & Hu & Hin).
    specialize (H1 u Hin); lia.
  - intros u q Hin Ha.
    destruct (isFetch t) eqn:Hf.
    + destruct (Hfetch eq_refl) as [Hd Hnone].
      apply in_app_or in Hin as [Hin | [<- | []]]; [| exact Hd].
      exfalso. assert (Hin' : In u (filter isFetch (timers st))).
      { apply filter_In; split; [exact Hin |]. unfold isFetch; rewrite Ha; reflexivity. }
      rewrite Hnone in Hin'; exact Hin'.
    + rewrite (Hother eq_refl).
      apply in_app_or in Hin as [Hin | [<- | []]]; [eauto |].
      unfold isFetch in Hf; rewrite Ha in Hf; discriminate.
Qed.

End TimerFacts.

Section TimerInvariantSteps.

Context {T : Type}.
Variable variant : Variant.
Variable opts : Options T.

Implicit Types st : State T.

Lemma TimerInv_construct value isFocused :
  @TimerInv T (construct variant opts value isFocused).
Proof.
  unfold TimerInv; simpl. split; [| split].
  - intros t [].
  - constructor.
  - intros t q [].
Qed.

Lemma TimerInv_handleInput env st :
  TimerInv st -> TimerInv (handleInput opts env st).
Proof.
  intros H. rewrite handleInput_cases.
  pose proof (TimerInv_cancelled st H) as Hc.
  destruct (cancelled_fields st) as (_ & _ & _ & _ & _ & _ & Hn & _).
  destruct (schedules opts st).
  - rewrite <- Hn at 2.
    apply TimerInv_add; auto.
    + intros _; split; [reflexivity | apply cancelled_no_fetch; exact H].
    + discriminate.
  - apply TimerInv_ext with (st := cancelled st); [apply sameTimers_hide | exact Hc].
Qed.

Lemma sameTimers_runTimer a reply st : sameTimers st (runTimer a reply st).
Proof.
  destruct a as [q |]; simpl; [| apply sameTimers_hide].
  destruct reply; simpl; [| repeat split].
  eapply sameTimers_trans; [| apply sameTimers_hide]. repeat split.
Qed.

Lemma TimerInv_fire id a reply st :
  TimerInv st -> TimerInv (runTimer a reply (clearTimeout id st)).
Proof.
  intros H. eapply TimerInv_ext; [apply sameTimers_runTimer |].
  eapply TimerInv_filter with (st := st); eauto; reflexivity.
Qed.

Lemma TimerInv_blur env st : TimerInv st -> TimerInv (onBlur env st).
Proof.
  intros H. unfold onBlur, setTimeout; simpl.
  eapply TimerInv_ext;
    [| apply (TimerInv_add st (mkTimer (nextTimer st) (now env + Z.max 150 0) HideCallback)
                (debounceTimer st)); auto; discriminate].
  repeat split.
Qed.

Lemma TimerInv_step env ev st st' :
  TimerInv st -> step variant opts env ev st = Some st' -> TimerInv st'.
Proof.
  intros H Hstep. destruct ev; simpl in Hstep.
  - injection Hstep as <-. apply TimerInv_handleInput.
    apply TimerInv_ext with (st := st); [repeat split | exact H].
  - injection Hstep as <-. apply TimerInv_handleInput.
    apply TimerInv_ext with (st := st); [repeat split | exact H].
  - injection Hstep as <-. apply TimerInv_blur.
    apply TimerInv_ext with (st := st); [repeat split | exact H].
  - destruct (dropdownIcon st); [| discriminate]. injection Hstep as <-.
    unfold onIconClick.
    assert (H1 : TimerInv (if focused st then st
                           else handleInput opts env (set_focused true st))).
    { destruct (focused st); [exact H |]. apply TimerInv_handleInput.
      apply TimerInv_ext with (st := st); [repeat split | exact H]. }
    destruct (visible _).
    + eapply TimerInv_ext; [apply sameTimers_hide | exact H1].
    + apply TimerInv_handleInput; exact H1.
  - injection Hstep as <-.
    eapply TimerInv_ext; [apply sameTimers_handleKeyDown | exact H].
  - destruct (visible st); [| discriminate].
    destruct (nth_error _ _); [| discriminate]. injection Hstep as <-.
    apply TimerInv_ext with (st := st); [repeat split | exact H].
  - destruct (visible st); [| discriminate].
    destruct (nth_error _ _); [| discriminate]. injection Hstep as <-.
    unfold onClick, selectSuggestion.
    eapply TimerInv_ext; [apply sameTimers_hide |].
    apply TimerInv_ext with (st := st); [repeat split | exact H].
  - destruct (pending id st) as [t |]; [| discriminate].
    destruct (due t <=? now env); [| discriminate].
    injection Hstep as <-. apply TimerInv_fire; exact H.
  - destruct (inflight st); [discriminate |]. injection Hstep as <-.
    eapply TimerInv_ext; [apply sameTimers_settle | exact H].
  - injection Hstep as <-.
    eapply TimerInv_ext; [apply sameTimers_reposition | exact H].
Qed.

Lemma TimerInv_exec script st st' :
  TimerInv st -> exec variant opts script st = Some st' -> TimerInv st'.
Proof.
  revert st; induction script as [| [env ev] script IH]; intros st H Hex.
  - injection Hex as <-; exact H.
  - simpl in Hex.
    destruct (step variant opts env ev st) as [st1 |] eqn:Hstep; [| discriminate].
    apply (IH st1); auto. eapply TimerInv_step; eauto.
Qed.

Lemma TimerInv_reachable st : Reachable variant opts st -> TimerInv st.
Proof.
  intros (value & isFocused & script & Hex).
  eapply TimerInv_exec; eauto. apply TimerInv_construct.
Qed.

Lemma ReachableTyped_Reachable st :
  ReachableTyped variant opts st -> Reachable variant opts st.
Proof. intros (v & f & s & _ & H); exists v, f, s; exact H. Qed.

End TimerInvariantSteps.

(** ** Input too short: the panel is hidden and no fetch is scheduled *)

Lemma handleInput_sameInput {T : Type} (opts : Options T) env (st : State T) :
  sameInput st (handleInput opts env st).
Proof.
  rewrite handleInput_cases.
  destruct (cancelled_fields st) as (_ & _ & _ & _ & Hv & Hf & _).
  destruct (schedules opts st); split; simpl; auto.
  - rewrite hide_inputValue; exact Hv.
  - rewrite hide_focused; exact Hf.
Qed.

Lemma schedules_ext {T : Type} (opts : Options T) (st st' : State T) :
  sameInput st st' -> schedules opts st' = schedules opts st.
Proof. intros [Hv Hf]; unfold schedules; rewrite Hv, Hf; reflexivity. Qed.

Lemma no_fetch_pending (l : list Timer) :
  filter isFetch l = [] -> forall t, In t l -> isFetch t = false.
Proof.
  intros H t Hin. destruct (isFetch t) eqn:E; [| reflexivity].
  assert (Hin' : In t (filter isFetch l)) by (apply filter_In; auto).
  rewrite H in Hin'; destruct Hin'.
Qed.

(** C2: when an input or a focus event fires and the trimmed value of the
    field is shorter than [minChars] (and the field is not both empty and
    focused, the case in which a fetch of the empty query is scheduled), the
    panel is hidden, the source is not called, and no fetch is left pending:
    the event cleared the timer of the previous one and registered none. *)
Theorem short_input_hides_without_fetch {T : Type} (variant : Variant)
        (opts : Options T) (env : Env) (k : Typing) (st st' : State T) :
  Reachable variant opts st ->
  step variant opts env (typingEvent k) st = Some st' ->
  Js.length (Js.trim (inputValue st')) < minChars opts ->
  ~ (Js.trim (inputValue st') = EmptyString /\ focused st' = true) ->
  inputValue st' = match k with Edit value => value | Focus => inputValue st end /\
  display st' = DisplayNone /\
  trace st' = trace st /\
  inflight st' = inflight st /\
  forall t, In t (timers st') -> isFetch t = false.
Proof.
  intros Hreach Hstep Hshort Hnot.
  pose proof (TimerInv_reachable variant opts st Hreach) as Hinv.
  set (st0 := match k with
              | Edit value => set_inputValue value st
              | Focus => set_focused true st
              end).
  assert (Hst' : st' = handleInput opts env st0)
    by (destruct k; simpl in Hstep; injection Hstep as <-; reflexivity).
  assert (Hinv0 : TimerInv st0)
    by (apply TimerInv_ext with (st := st); [destruct k; repeat split | exact Hinv]).
  assert (Htr : trace st0 = trace st) by (destruct k; reflexivity).
  assert (Hfl : inflight st0 = inflight st) by (destruct k; reflexivity).
  pose proof (handleInput_sameInput opts env st0) as Hsame.
  rewrite <- Hst' in Hsame. destruct Hsame as [Hv Hf].
  assert (Hno : schedules opts st0 = false).
  { unfold schedules. rewrite <- Hv, <- Hf.
    apply orb_false_iff; split.
    - destruct (Js.length (Js.trim (inputValue st')) =? 0) eqn:Hz; [| reflexivity].
      apply Z.eqb_eq, length_zero_empty in Hz.
      destruct (focused st'); [exfalso; apply Hnot; auto | reflexivity].
    - apply negb_false_iff, Z.ltb_lt; exact Hshort. }
  rewrite handleInput_cases, Hno in Hst'.
  destruct (cancelled_fields st0) as (_ & _ & _ & Ht & _ & _ & _ & _ & Hi).
  subst st'.
  split; [rewrite hide_inputValue in *; rewrite Hv; destruct k; reflexivity |].
  split; [apply hide_display |].
  split; [rewrite hide_trace; congruence |].
  split; [rewrite hide_inflight; congruence |].
  rewrite hide_timers. apply no_fetch_pending, cancelled_no_fetch; exact Hinv0.
Qed.

Lemma short_input_hides_without_fetch_witness :
  display (handleInput Demo.plain (Demo.at_ 400)
             (set_inputValue "c" (Demo.shownState TypeScript Demo.plain)))
  = DisplayNone.
Proof.
  refine (proj1 (proj2
    (short_input_hides_without_fetch TypeScript Demo.plain (Demo.at_ 400) (Edit "c")
       (Demo.shownState TypeScript Demo.plain) _ _ _ _ _))).
  - exists EmptyString, false, Demo.typeCan; vm_compute; reflexivity.
  - reflexivity.
  - vm_compute; reflexivity.
  - intros [H _]; vm_compute in H; discriminate.
Defined.

(** ** Truncation of the fetched sequence *)

(** C3: whatever sequence the source delivers, the widget stores its first
    [min(length, maxSuggestions)] items, in the order of the source: the
    stored list is a prefix of the delivered one and no longer than the
    maximum.  When that prefix is not empty the panel is displayed and has
    one child per stored item, in the same order, each at its own position;
    when it is empty the panel is hidden. *)
Theorem fetched_items_truncated {T : Type} (variant : Variant) (opts : Options T)
        (env : Env) (st : State T) (items : list T) :
  0 <= maxSuggestions opts ->
  exists st',
    settle variant opts env (Fulfilled (Items items)) st = Done st' /\
    let shown := firstn (Nat.min (List.length items) (Z.to_nat (maxSuggestions opts)))
                        items in
    suggestions st' = Items shown /\
    Z.of_nat (List.length shown) <= maxSuggestions opts /\
    (exists rest, items = shown ++ rest) /\
    (shown <> [] -> visible st' = true /\ Rendered shown (children (container st'))) /\
    (shown = [] -> visible st' = false).
Proof.
  intros Hmax. rewrite settle_items. eexists; split; [reflexivity |]. simpl.
  rewrite <- slice0_nonneg by exact Hmax.
  set (shown := Js.slice0 items (maxSuggestions opts)).
  assert (Hlen : Z.of_nat (List.length shown) <= maxSuggestions opts)
    by (apply slice0_length; exact Hmax).
  assert (Hpre : exists rest, items = shown ++ rest) by apply slice0_prefix.
  clearbody shown.
  destruct (Z.of_nat (List.length shown) >? 0) eqn:Hpos.
  - rewrite show_suggestions, show_visible, show_children; simpl.
    split; [reflexivity |]. split; [exact Hlen |]. split; [exact Hpre |].
    split.
    + intros _; split; [reflexivity | apply renderFrom_Rendered].
    + intros ->; simpl in Hpos; discriminate.
  - rewrite hide_suggestions, hide_visible; simpl.
    split; [reflexivity |]. split; [exact Hlen |]. split; [exact Hpre |].
    split; [| reflexivity].
    intros Hne. destruct shown; [contradiction |].
    discriminate Hpos.
Qed.

Lemma fetched_items_truncated_witness :
  exists st',
    settle TypeScript Demo.atMostTwo (Demo.at_ 320) (Fulfilled (Items Demo.countries))
           (Demo.shownState TypeScript Demo.atMostTwo) = Done st' /\
    map click_suggestion (children (container st'))
    = [Demo.mkCountry "United States" 1; Demo.mkCountry "United Kingdom" 2].
Proof.
  destruct (fetched_items_truncated TypeScript Demo.atMostTwo (Demo.at_ 320)
              (Demo.shownState TypeScript Demo.atMostTwo) Demo.countries)
    as (st' & Hdone & _ & _ & _ & Hshown & _).
  - vm_compute; discriminate.
  - exists st'; split; [exact Hdone |].
    apply Hshown. vm_compute; discriminate.
Defined.

(** ** Selection *)

Lemma selectSuggestion_spec {T : Type} (opts : Options T) (item : T) (st : State T) :
  inputValue (selectSuggestion opts item st) = formatSelectedItem opts item /\
  trace (selectSuggestion opts item st) = trace st ++ [OnSelect item] /\
  display (selectSuggestion opts item st) = DisplayNone.
Proof.
  unfold selectSuggestion.
  rewrite hide_inputValue, hide_trace, hide_display; simpl; auto.
Qed.

(** C5: selecting a suggestion, by a click on its element or by Enter while
    it is the active one, writes the formatter's string for that item into
    the input, calls [onSelect] once, with the item itself, and leaves the
    panel hidden.  The item is the suggestion at the position of the clicked
    element, respectively at the active index. *)
Theorem selection_commits {T : Type} (variant : Variant) (opts : Options T)
        (st : State T) :
  ReachableTyped variant opts st ->
  exists items,
    suggestions st = Items items /\
    (forall env child st',
        step variant opts env (EvClick child) st = Some st' ->
        exists item,
          nth_error items child = Some item /\
          inputValue st' = formatSelectedItem opts item /\
          trace st' = trace st ++ [OnSelect item] /\
          display st' = DisplayNone) /\
    (forall i : nat,
        activeIndex st = Z.of_nat i ->
        exists item st',
          nth_error items i = Some item /\
          handleKeyDown opts Enter st = Done st' /\
          inputValue st' = formatSelectedItem opts item /\
          trace st' = trace st ++ [PreventDefault; OnSelect item] /\
          display st' = DisplayNone).
Proof.
  intros Hreach.
  pose proof (WidgetInv_reachable variant opts (fun _ => True) I (fun _ => I) st Hreach)
    as (items & H1 & H2 & _ & H4 & H5).
  exists items. split; [exact H1 |]. split.
  - intros env child st' Hstep. simpl in Hstep.
    destruct (visible st) eqn:Hv; [| discriminate].
    destruct (nth_error (children (container st)) child) as [el |] eqn:Hn;
      [| discriminate].
    injection Hstep as <-.
    destruct (Rendered_nth items _ child el (H4 eq_refl) Hn) as [_ Hitem].
    exists (click_suggestion el). split; [exact Hitem |].
    apply selectSuggestion_spec.
  - intros i Hi.
    destruct (visible st) eqn:Hv; [| specialize (H5 eq_refl); lia].
    destruct (nth_error items i) as [item |] eqn:Hn.
    + exists item. eexists. split; [reflexivity |].
      unfold handleKeyDown. rewrite Hv; simpl.
      replace (activeIndex st >=? 0) with true by (symmetry; apply Z.geb_le; lia).
      simpl. rewrite H1, Hi, Nat2Z.id, Hn.
      split; [reflexivity |].
      destruct (selectSuggestion_spec opts item (emit [PreventDefault] st))
        as (Ka & Kb & Kc).
      split; [exact Ka |]. split; [| exact Kc].
      rewrite Kb; simpl. rewrite <- app_assoc; reflexivity.
    + apply nth_error_None in Hn. lia.
Qed.

Lemma selection_commits_witness :
  exists st',
    handleKeyDown Demo.options Enter (Demo.highlighted TypeScript Demo.options) = Done st' /\
    inputValue st' = "Canada"%string /\
    trace st' = trace (Demo.highlighted TypeScript Demo.options)
                  ++ [PreventDefault; OnSelect Demo.canada] /\
    display st' = DisplayNone.
Proof.
  destruct (selection_commits TypeScript Demo.options
              (Demo.highlighted TypeScript Demo.options))
    as (items & Hs & _ & Henter).
  - exists EmptyString, false, (Demo.typeCan ++ [(Demo.at_ 500, EvKeyDown ArrowDown)]).
    split; vm_compute; reflexivity.
  - vm_compute in Hs. injection Hs as <-.
    destruct (Henter 0%nat) as (item & st' & Hn & Hk & Hv & Ht & Hd);
      [vm_compute; reflexivity |].
    injection Hn as <-.
    exists st'; auto.
Defined.

(** ** Keyboard navigation *)

(** The claim C7 as stated fails: with the panel displayed and no active
    item, Enter runs through the handler without any effect, so the default
    action of the key (submitting the enclosing form) is not suppressed. *)
Lemma enter_without_active_item_keeps_default :
  visible (Demo.shownState TypeScript Demo.options) = true /\
  activeIndex (Demo.shownState TypeScript Demo.options) = -1 /\
  handleKeyDown Demo.options Enter (Demo.shownState TypeScript Demo.options)
  = Done (Demo.shownState TypeScript Demo.options) /\
  ~ In PreventDefault
       (trace (state_of (handleKeyDown Demo.options Enter
                           (Demo.shownState TypeScript Demo.options)))).
Proof.
  split; [vm_compute; reflexivity |].
  split; [vm_compute; reflexivity |].
  split; [vm_compute; reflexivity |].
  vm_compute. intros [H | [H | [H | []]]]; discriminate.
Qed.

(** C7, amended: the key handler does nothing while the panel is hidden.
    While it is displayed, ArrowDown moves the active index up by one but not
    past the last suggestion, ArrowUp moves it down by one but not below -1,
    Escape hides the panel, and these three keys always suppress the default
    action; Enter suppresses the default action and commits the selection
    when an item is active, and does nothing at all otherwise; other keys are
    ignored. *)
Theorem keyboard_navigation {T : Type} (opts : Options T) (st : State T)
        (items : list T) :
  suggestions st = Items items ->
  (visible st = false -> forall key, handleKeyDown opts key st = Done st) /\
  (visible st = true ->
   (exists st',
       handleKeyDown opts ArrowDown st = Done st' /\
       activeIndex st' = Z.min (activeIndex st + 1) (Z.of_nat (List.length items) - 1) /\
       trace st' = trace st ++ [PreventDefault] /\
       visible st' = true) /\
   (exists st',
       handleKeyDown opts ArrowUp st = Done st' /\
       activeIndex st' = Z.max (activeIndex st - 1) (-1) /\
       trace st' = trace st ++ [PreventDefault] /\
       visible st' = true) /\
   (activeIndex st < 0 -> handleKeyDown opts Enter st = Done st) /\
   (forall item,
       0 <= activeIndex st ->
       nth_error items (Z.to_nat (activeIndex st)) = Some item ->
       handleKeyDown opts Enter st
       = Done (selectSuggestion opts item (emit [PreventDefault] st)) /\
       trace (selectSuggestion opts item (emit [PreventDefault] st))
       = trace st ++ [PreventDefault; OnSelect item]) /\
   (exists st',
       handleKeyDown opts Escape st = Done st' /\
       display st' = DisplayNone /\
       trace st' = trace st ++ [PreventDefault]) /\
   (forall name, handleKeyDown opts (OtherKey name) st = Done st)).
Proof.
  intros Hs. split.
  - intros Hv key. unfold handleKeyDown. rewrite Hv; reflexivity.
  - intros Hv. unfold handleKeyDown. rewrite Hv; simpl. rewrite Hs.
    split; [| split; [| split; [| split; [| split]]]].
    + eexists; split; [reflexivity |]. simpl. repeat split. exact Hv.
    + eexists; split; [reflexivity |]. simpl. repeat split. exact Hv.
    + intros Hneg.
      replace (activeIndex st >=? 0) with false; [reflexivity |].
      symmetry. rewrite Z.geb_leb. apply Z.leb_gt. exact Hneg.
    + intros item Hpos Hn.
      replace (activeIndex st >=? 0) with true by (symmetry; apply Z.geb_le; exact Hpos).
      rewrite Hn. split; [reflexivity |].
      destruct (selectSuggestion_spec opts item (emit [PreventDefault] st))
        as (_ & Kb & _).
      rewrite Kb; simpl. rewrite <- app_assoc; reflexivity.
    + eexists; split; [reflexivity |].
      rewrite hide_display, hide_trace. split; reflexivity.
    + reflexivity.
Qed.

Lemma keyboard_navigation_witness :
  exists st',
    handleKeyDown Demo.options ArrowDown (Demo.shownState TypeScript Demo.options)
    = Done st' /\
    activeIndex st' = 0.
Proof.
  destruct (keyboard_navigation Demo.options (Demo.shownState TypeScript Demo.options)
              [Demo.canada]) as [_ Hvisible].
  - vm_compute; reflexivity.
  - destruct Hvisible as ((st' & Hk & Ha & _) & _); [vm_compute; reflexivity |].
    exists st'. split; [exact Hk |]. rewrite Ha. vm_compute; reflexivity.
Defined.

(** ** Faults of the suggestion source *)

(** The claim C6 as stated fails in its second half.  In the JavaScript
    build a [null] result is caught by the guard, but it is not treated like
    an empty result: the panel keeps showing the previous suggestions where
    an empty result hides it, the value is stored, and the next ArrowDown
    throws out of the key handler.  In the TypeScript source there is no
    guard: the value is used, and the resulting [TypeError] is handled by the
    [catch] clause like any fault of the source, which logs it. *)
Lemma nullish_result_is_not_an_empty_result :
  visible (state_of (settle JavaScript Demo.options (Demo.at_ 720) (Fulfilled Nullish)
                            (Demo.refetching JavaScript Demo.options))) = true /\
  visible (state_of (settle JavaScript Demo.options (Demo.at_ 720) (Fulfilled (Items []))
                            (Demo.refetching JavaScript Demo.options))) = false /\
  completes (handleKeyDown Demo.options ArrowDown
               (state_of (settle JavaScript Demo.options (Demo.at_ 720) (Fulfilled Nullish)
                                 (Demo.refetching JavaScript Demo.options)))) = false /\
  trace (state_of (settle TypeScript Demo.options (Demo.at_ 720) (Fulfilled Nullish)
                          (Demo.refetching TypeScript Demo.options)))
  = trace (Demo.refetching TypeScript Demo.options) ++ [ConsoleError] /\
  trace (state_of (settle TypeScript Demo.options (Demo.at_ 720) (Fulfilled (Items []))
                          (Demo.refetching TypeScript Demo.options)))
  = trace (Demo.refetching TypeScript Demo.options).
Proof.
  split; [vm_compute; reflexivity |].
  split; [vm_compute; reflexivity |].
  split; [vm_compute; reflexivity |].
  split; vm_compute; reflexivity.
Qed.

(** C6, amended: when the source throws or its awaited result rejects, the
    error is caught and logged and the panel is hidden, and the callback
    completes without an exception.  When the source delivers [null] or
    [undefined], no exception leaves the callback either: the TypeScript
    source uses the value, catches the resulting error, logs it and hides the
    panel; the JavaScript build detects the value with its guard and neither
    truncates nor renders it. *)
Theorem source_faults_are_contained {T : Type} (variant : Variant) (opts : Options T)
        (env : Env) (st : State T) :
  (forall query,
      exists st',
        debounced query ReplyThrows st = Done st' /\
        display st' = DisplayNone /\
        trace st' = trace st ++ [GetSuggestions query; ConsoleError]) /\
  (exists st',
      settle variant opts env Rejected st = Done st' /\
      display st' = DisplayNone /\
      trace st' = trace st ++ [ConsoleError] /\
      suggestions st' = suggestions st) /\
  (exists st',
      settle variant opts env (Fulfilled Nullish) st = Done st' /\
      match variant with
      | TypeScript =>
          display st' = DisplayNone /\ trace st' = trace st ++ [ConsoleError]
      | JavaScript =>
          children (container st') = children (container st) /\ trace st' = trace st
      end).
Proof.
  split; [| split].
  - intros query. eexists; split; [reflexivity |].
    rewrite hide_display, hide_trace; simpl. rewrite <- app_assoc. split; reflexivity.
  - rewrite settle_rejected. eexists; split; [reflexivity |].
    rewrite hide_display, hide_trace, hide_suggestions. repeat split.
  - unfold settle, afterAwait; simpl. destruct variant; simpl.
    + eexists; split; [reflexivity |].
      rewrite hide_display, hide_trace. split; reflexivity.
    + eexists; split; [reflexivity |]. split; reflexivity.
Qed.

(** ** Position of the panel *)

Section PositionFacts.

Context {T : Type}.
Variable variant : Variant.
Variable opts : Options T.

Implicit Types st : State T.

Lemma update_position g (c : Container T) :
  style_position c = scheme variant ->
  style_position (updateContainerPosition variant g c) = scheme variant.
Proof.
  intros H. unfold updateContainerPosition.
  destruct variant, (_ && _); simpl; auto.
Qed.

Lemma PositionInv_hide v st : PositionInv v st -> PositionInv v (hide st).
Proof. unfold PositionInv; rewrite hide_style_position; auto. Qed.

Lemma PositionInv_show env st :
  PositionInv variant st -> PositionInv variant (show variant env st).
Proof.
  unfold PositionInv, show; intros H.
  destruct (dropdownIcon _); simpl; apply update_position; exact H.
Qed.

Lemma PositionInv_ext st st' :
  style_position (container st') = style_position (container st) ->
  PositionInv variant st -> PositionInv variant st'.
Proof. unfold PositionInv; congruence. Qed.

Lemma PositionInv_handleInput env st :
  PositionInv variant st -> PositionInv variant (handleInput opts env st).
Proof.
  intros H. rewrite handleInput_cases.
  destruct (cancelled_fields st) as (_ & _ & Hc & _).
  destruct (schedules opts st).
  - apply PositionInv_ext with (st := st); [simpl; rewrite Hc; reflexivity | exact H].
  - apply PositionInv_hide, PositionInv_ext with (st := st); [rewrite Hc; reflexivity | exact H].
Qed.

Lemma PositionInv_handleKeyDown key st :
  PositionInv variant st -> PositionInv variant (state_of (handleKeyDown opts key st)).
Proof.
  intros H. unfold handleKeyDown.
  destruct (visible st); simpl; [| exact H].
  destruct key; simpl; try exact H.
  - destruct (suggestions st); exact H.
  - destruct (activeIndex st >=? 0); simpl; [| exact H].
    destruct (suggestions st); simpl; [| exact H].
    destruct (nth_error _ _); simpl; [| exact H].
    unfold selectSuggestion. apply PositionInv_hide. exact H.
  - apply PositionInv_hide. exact H.
Qed.

Lemma PositionInv_settle env r st :
  PositionInv variant st -> PositionInv variant (state_of (settle variant opts env r st)).
Proof.
  intros H. destruct r as [[items |] |].
  - rewrite settle_items; simpl. destruct (_ >? 0).
    + apply PositionInv_show. exact H.
    + apply PositionInv_hide. exact H.
  - unfold settle, afterAwait; simpl. destruct variant; simpl;
      [apply PositionInv_hide |]; exact H.
  - rewrite settle_rejected; simpl. apply PositionInv_hide. exact H.
Qed.

Lemma PositionInv_step env ev st st' :
  PositionInv variant st -> step variant opts env ev st = Some st' ->
  PositionInv variant st'.
Proof.
  intros H Hstep. destruct ev; simpl in Hstep.
  - injection Hstep as <-. apply PositionInv_handleInput. exact H.
  - injection Hstep as <-. apply PositionInv_handleInput. exact H.
  - injection Hstep as <-. exact H.
  - destruct (dropdownIcon st); [| discriminate]. injection Hstep as <-.
    unfold onIconClick.
    assert (H1 : PositionInv variant
                   (if focused st then st
                    else handleInput opts env (set_focused true st)))
      by (destruct (focused st); [| apply PositionInv_handleInput]; exact H).
    destruct (visible _); [apply PositionInv_hide | apply PositionInv_handleInput];
      exact H1.
  - injection Hstep as <-. apply PositionInv_handleKeyDown. exact H.
  - destruct (visible st); [| discriminate].
    destruct (nth_error _ _); [| discriminate]. injection Hstep as <-. exact H.
  - destruct (visible st); [| discriminate].
    destruct (nth_error _ _); [| discriminate]. injection Hstep as <-.
    unfold onClick, selectSuggestion. apply PositionInv_hide. exact H.
  - destruct (pending id st) as [t |]; [| discriminate].
    destruct (due t <=? now env); [| discriminate].
    injection Hstep as <-. destruct (action t) as [q |]; simpl.
    + destruct reply; simpl; [apply PositionInv_hide |]; exact H.
    + apply PositionInv_hide. exact H.
  - destruct (inflight st); [discriminate |]. injection Hstep as <-.
    apply PositionInv_settle. exact H.
  - injection Hstep as <-. unfold handlePositionUpdate.
    destruct (visible st); [| exact H].
    unfold PositionInv; simpl. apply update_position. exact H.
Qed.

Lemma PositionInv_reachable st : Reachable variant opts st -> PositionInv variant st.
Proof.
  intros (value & isFocused & script & Hex).
  assert (H0 : PositionInv variant (construct variant opts value isFocused))
    by (unfold PositionInv; destruct variant; reflexivity).
  revert Hex H0. generalize (construct variant opts value isFocused).
  induction script as [| [env ev] script IH]; intros s Hex H0.
  - injection Hex as <-; exact H0.
  - simpl in Hex.
    destruct (step variant opts env ev s) as [s1 |] eqn:Hstep; [| discriminate].
    apply (IH s1 Hex). eapply PositionInv_step; eauto.
Qed.

(** What [updateContainerPosition] leaves in the style and the class list
    of the panel. *)
Lemma update_spec g (c : Container T) :
  style_position c = scheme variant ->
  let c' := updateContainerPosition variant g c in
  style_width c' = Some (rect_width g) /\
  viewportLeft g c' = Some (rect_left g) /\
  (innerHeight g - rect_bottom g < offsetHeight g /\
   rect_top g > innerHeight g - rect_bottom g ->
   markedAbove c' = true /\ markedBelow c' = false /\
   viewportTop g c' = Some (rect_top g - offsetHeight g)) /\
  (~ (innerHeight g - rect_bottom g < offsetHeight g /\
      rect_top g > innerHeight g - rect_bottom g) ->
   markedBelow c' = true /\ markedAbove c' = false /\
   viewportTop g c' = Some (rect_bottom g)).
Proof.
  intros Hpos c'.
  assert (Habove : forall cls,
             Js.has_class "autocomplete-above"
               (Js.classList_remove "autocomplete-below"
                  (Js.classList_add "autocomplete-above" cls)) = true).
  { intros cls. rewrite has_class_remove_other by reflexivity.
    apply has_class_add_same. }
  assert (Hbelow : forall cls,
             Js.has_class "autocomplete-below"
               (Js.classList_remove "autocomplete-above"
                  (Js.classList_add "autocomplete-below" cls)) = true).
  { intros cls. rewrite has_class_remove_other by reflexivity.
    apply has_class_add_same. }
  assert (Hcond : (innerHeight g - rect_bottom g <? offsetHeight g)
                  && (rect_top g >? innerHeight g - rect_bottom g) = true
                  <-> (innerHeight g - rect_bottom g < offsetHeight g /\
                       rect_top g > innerHeight g - rect_bottom g)).
  { rewrite andb_true_iff, Z.ltb_lt, Z.gtb_lt. lia. }
  subst c'. unfold updateContainerPosition, viewportLeft, viewportTop,
            markedAbove, markedBelow.
  destruct ((innerHeight g - rect_bottom g <? offsetHeight g)
            && (rect_top g >? innerHeight g - rect_bottom g)) eqn:Hc.
  - assert (Hyes : innerHeight g - rect_bottom g < offsetHeight g /\
                   rect_top g > innerHeight g - rect_bottom g)
      by (apply Hcond; reflexivity).
    destruct variant; simpl; rewrite ?Hpos; simpl;
      rewrite Habove, has_class_remove_same; simpl.
    + split; [reflexivity |]. split; [f_equal; lia |].
      split; [| intros Hn; contradiction].
      intros _. split; [reflexivity |]. split; [reflexivity |]. f_equal; lia.
    + split; [reflexivity |]. split; [reflexivity |].
      split; [| intros Hn; contradiction].
      intros _. split; [reflexivity |]. split; reflexivity.
  - assert (Hno : ~ (innerHeight g - rect_bottom g < offsetHeight g /\
                     rect_top g > innerHeight g - rect_bottom g))
      by (intros Hy; apply Hcond in Hy; discriminate).
    destruct variant; simpl; rewrite ?Hpos; simpl;
      rewrite Hbelow, has_class_remove_same; simpl.
    + split; [reflexivity |]. split; [f_equal; lia |].
      split; [intros Hy; contradiction |].
      intros _. split; [reflexivity |]. split; [reflexivity |]. f_equal; lia.
    + split; [reflexivity |]. split; [reflexivity |].
      split; [intros Hy; contradiction |].
      intros _. split; [reflexivity |]. split; reflexivity.
Qed.

End PositionFacts.

(** C8: when the panel is shown, and whenever a resize or a scroll
    repositions a displayed panel, its width is the width of the input's
    bounding rectangle and its left edge is at the input's left edge; when
    the space below the input is less than the height of the panel and the
    space above is greater than the space below, the panel is marked as above
    and its top lies its own height above the top of the input; otherwise it
    is marked as below and its top lies at the bottom of the input. *)
Theorem panel_position {T : Type} (variant : Variant) (opts : Options T)
        (env : Env) (st st' : State T) :
  Reachable variant opts st ->
  st' = show variant env st \/
  (visible st = true /\ step variant opts env EvReposition st = Some st') ->
  style_width (container st') = Some (rect_width (geom env)) /\
  viewportLeft (geom env) (container st') = Some (rect_left (geom env)) /\
  (innerHeight (geom env) - rect_bottom (geom env) < offsetHeight (geom env) /\
   rect_top (geom env) > innerHeight (geom env) - rect_bottom (geom env) ->
   markedAbove (container st') = true /\ markedBelow (container st') = false /\
   viewportTop (geom env) (container st')
   = Some (rect_top (geom env) - offsetHeight (geom env))) /\
  (~ (innerHeight (geom env) - rect_bottom (geom env) < offsetHeight (geom env) /\
      rect_top (geom env) > innerHeight (geom env) - rect_bottom (geom env)) ->
   markedBelow (container st') = true /\ markedAbove (container st') = false /\
   viewportTop (geom env) (container st') = Some (rect_bottom (geom env))).
Proof.
  intros Hreach Hst'.
  pose proof (PositionInv_reachable variant opts st Hreach) as Hpos.
  unfold PositionInv in Hpos.
  destruct Hst' as [-> | [Hv Hstep]].
  - assert (Hc : container (show variant env st)
                 = updateContainerPosition variant (geom env)
                     (set_style_display DisplayBlock (container st)))
      by (unfold show; simpl; destruct (dropdownIcon st); reflexivity).
    rewrite Hc. apply update_spec. exact Hpos.
  - simpl in Hstep. injection Hstep as <-.
    unfold handlePositionUpdate. rewrite Hv. simpl.
    apply update_spec. exact Hpos.
Qed.

Lemma panel_position_witness :
  style_width (container (show TypeScript (Demo.at_ 900)
                               (Demo.shownState TypeScript Demo.options)))
  = Some 200 /\
  viewportTop Demo.geometry
              (container (show TypeScript (Demo.at_ 900)
                               (Demo.shownState TypeScript Demo.options)))
  = Some 130.
Proof.
  destruct (panel_position TypeScript Demo.options (Demo.at_ 900)
              (Demo.shownState TypeScript Demo.options)
              (show TypeScript (Demo.at_ 900) (Demo.shownState TypeScript Demo.options)))
    as (Hw & _ & _ & Hbelow).
  - exists EmptyString, false, Demo.typeCan. vm_compute; reflexivity.
  - left; reflexivity.
  - split; [exact Hw |]. apply Hbelow. vm_compute. intros [H _]. discriminate H.
Defined.

(** ** Plain-text rendering *)

Section PlainFacts.

Context {T : Type}.
Variable variant : Variant.
Variable opts : Options T.
Hypothesis no_markup : allowHTML opts = false.
Hypothesis default_renderer : renderSuggestion opts = DefaultRenderer.

Implicit Types st : State T.

Lemma MarkupFree_app (l l' : list (Effect T)) :
  MarkupFree l -> MarkupFree l' -> MarkupFree (l ++ l').
Proof. intros H H' e Hin; apply in_app_or in Hin as [Hin | Hin]; auto. Qed.

Lemma Quiet_refl st : Quiet st st.
Proof.
  split.
  - exists []; split; [symmetry; apply app_nil_r | intros e []].
  - intros el Hin; exists el; auto.
Qed.

Lemma Quiet_trans st1 st2 st3 : Quiet st1 st2 -> Quiet st2 st3 -> Quiet st1 st3.
Proof.
  intros [(l & Hl & Hf) Hc] [(l' & Hl' & Hf') Hc']. split.
  - exists (l ++ l'); split; [rewrite Hl', Hl, app_assoc; reflexivity |].
    apply MarkupFree_app; assumption.
  - intros el Hin. destruct (Hc' el Hin) as (el1 & Hin1 & Hc1 & Hk1).
    destruct (Hc el1 Hin1) as (el0 & Hin0 & Hc0 & Hk0).
    exists el0; repeat split; congruence.
Qed.

(** A step that leaves the trace and the children alone. *)
Lemma Quiet_same st st' :
  trace st' = trace st -> children (container st') = children (container st) ->
  Quiet st st'.
Proof.
  intros Ht Hc. split.
  - exists []; split; [rewrite Ht; symmetry; apply app_nil_r | intros e []].
  - rewrite Hc. intros el Hin; exists el; auto.
Qed.

Lemma Quiet_hide st : Quiet st (hide st).
Proof. apply Quiet_same; [apply hide_trace | apply hide_children]. Qed.

Lemma Quiet_emit st (e : Effect T) : isMarkupCall e = false -> Quiet st (emit [e] st).
Proof.
  intros He. split.
  - exists [e]; split; [reflexivity |]. intros x [<- | []]; exact He.
  - intros el Hin; exists el; auto.
Qed.

Lemma highlightFrom_In (a k : Z) (els : list (Element T)) (el : Element T) :
  In el (highlightFrom opts a k els) ->
  exists el0, In el0 els /\ content (node el) = content (node el0) /\
              click_suggestion el = click_suggestion el0.
Proof.
  revert k; induction els as [| e els IH]; intros k Hin; [destruct Hin |].
  simpl in Hin. destruct (Js.has_class _ _).
  - destruct Hin as [<- | Hin].
    + exists e; simpl; auto.
    + destruct (IH _ Hin) as (el0 & H0 & H1 & H2). exists el0; simpl; auto.
  - destruct Hin as [<- | Hin].
    + exists e; simpl; auto.
    + destruct (IH _ Hin) as (el0 & H0 & H1 & H2). exists el0; simpl; auto.
Qed.

Lemma Quiet_highlight st (i : Z) : Quiet st (highlightActive opts (set_activeIndex i st)).
Proof.
  split.
  - exists []; split; [simpl; symmetry; apply app_nil_r | intros e []].
  - simpl. intros el Hin. apply highlightFrom_In in Hin. exact Hin.
Qed.

Lemma Quiet_handleInput env st : Quiet st (handleInput opts env st).
Proof.
  rewrite handleInput_cases.
  destruct (cancelled_fields st) as (_ & _ & Hc & Ht & _).
  destruct (schedules opts st).
  - apply Quiet_same; simpl; [exact Ht | rewrite Hc; reflexivity].
  - eapply Quiet_trans; [| apply Quiet_hide].
    apply Quiet_same; [exact Ht | rewrite Hc; reflexivity].
Qed.

Lemma Quiet_select (item : T) st : Quiet st (selectSuggestion opts item st).
Proof.
  unfold selectSuggestion. eapply Quiet_trans; [| apply Quiet_hide].
  eapply Quiet_trans; [| apply Quiet_emit; reflexivity].
  apply Quiet_same; reflexivity.
Qed.

Lemma Quiet_handleKeyDown key st : Quiet st (state_of (handleKeyDown opts key st)).
Proof.
  unfold handleKeyDown. destruct (visible st); simpl; [| apply Quiet_refl].
  destruct key; simpl; try apply Quiet_refl.
  - destruct (suggestions st); simpl.
    + eapply Quiet_trans; [apply (Quiet_emit st PreventDefault); reflexivity |].
      apply Quiet_highlight.
    + apply Quiet_emit; reflexivity.
  - eapply Quiet_trans; [apply (Quiet_emit st PreventDefault); reflexivity |].
    apply Quiet_highlight.
  - destruct (activeIndex st >=? 0); simpl; [| apply Quiet_refl].
    destruct (suggestions st); simpl; [| apply Quiet_emit; reflexivity].
    destruct (nth_error _ _); simpl; [| apply Quiet_emit; reflexivity].
    eapply Quiet_trans; [apply (Quiet_emit st PreventDefault); reflexivity |].
    apply Quiet_select.
  - eapply Quiet_trans; [apply (Quiet_emit st PreventDefault); reflexivity |].
    apply Quiet_hide.
Qed.

(** With the default renderer and markup off, [render] calls no markup
    callback and writes the formatter's string as text. *)
Lemma renderFrom_plain (k : Z) (items : list T) :
  snd (renderFrom opts k items) = [] /\
  forall el, In el (fst (renderFrom opts k items)) ->
             content (node el) = TextContent (formatSelectedItem opts (click_suggestion el)).
Proof.
  revert k; induction items as [| s items IH]; intros k; simpl.
  - split; [reflexivity | intros el []].
  - unfold runRenderSuggestion. rewrite default_renderer, no_markup.
    destruct (IH (k + 1)) as [Hcalls Hels].
    destruct (renderFrom opts (k + 1) items) as [els calls]. simpl in *.
    split; [exact Hcalls |].
    intros el [<- | Hin]; [reflexivity | auto].
Qed.

End PlainFacts.

Section PlainInvariant.

Context {T : Type}.
Variable variant : Variant.
Variable opts : Options T.
Hypothesis no_markup : allowHTML opts = false.
Hypothesis default_renderer : renderSuggestion opts = DefaultRenderer.

Implicit Types st : State T.

Lemma Plain_Quiet st st' : Plain opts st -> Quiet st st' -> Plain opts st'.
Proof.
  intros [Hp Hm] [(l & Hl & Hf) Hc]. split.
  - intros el Hin. destruct (Hc el Hin) as (el0 & Hin0 & Hc0 & Hk0).
    rewrite Hc0, Hk0. apply Hp; exact Hin0.
  - rewrite Hl. apply MarkupFree_app; assumption.
Qed.

Lemma Plain_construct value isFocused : Plain opts (construct variant opts value isFocused).
Proof. split; [intros el [] | intros e []]. Qed.

Lemma Quiet_runTimer a reply st : Quiet st (runTimer a reply st).
Proof.
  destruct a as [q |]; simpl; [| apply Quiet_hide].
  destruct reply; simpl.
  - eapply Quiet_trans; [apply (Quiet_emit st (GetSuggestions q)); reflexivity |].
    eapply Quiet_trans; [apply (Quiet_emit _ ConsoleError); reflexivity |].
    apply Quiet_hide.
  - eapply Quiet_trans; [apply (Quiet_emit st (GetSuggestions q)); reflexivity |].
    apply Quiet_same; reflexivity.
Qed.

Lemma Plain_settle env r st :
  Plain opts st -> Plain opts (state_of (settle variant opts env r st)).
Proof.
  intros H. destruct r as [[items |] |].
  - rewrite settle_items; simpl.
    destruct (renderFrom_plain opts no_markup default_renderer 0
                (Js.slice0 items (maxSuggestions opts))) as [Hcalls Hels].
    destruct (_ >? 0).
    + destruct H as [_ Hm]. split.
      * intros el. rewrite show_children; simpl. apply Hels.
      * rewrite show_trace; simpl. rewrite Hcalls, app_nil_r. exact Hm.
    + eapply Plain_Quiet; [exact H |].
      eapply Quiet_trans; [| apply Quiet_hide]. apply Quiet_same; reflexivity.
  - eapply Plain_Quiet; [exact H |].
    unfold settle, afterAwait; simpl. destruct variant; simpl.
    + eapply Quiet_trans; [| apply Quiet_hide].
      eapply Quiet_trans; [| apply Quiet_emit; reflexivity].
      apply Quiet_same; reflexivity.
    + apply Quiet_same; reflexivity.
  - eapply Plain_Quiet; [exact H |]. rewrite settle_rejected; simpl.
    eapply Quiet_trans; [| apply Quiet_hide].
    eapply Quiet_trans; [| apply Quiet_emit; reflexivity].
    apply Quiet_same; reflexivity.
Qed.

Lemma Plain_step env ev st st' :
  Plain opts st -> step variant opts env ev st = Some st' -> Plain opts st'.
Proof.
  intros H Hstep. destruct ev; simpl in Hstep.
  - injection Hstep as <-. eapply Plain_Quiet; [exact H |].
    eapply Quiet_trans; [| apply Quiet_handleInput]. apply Quiet_same; reflexivity.
  - injection Hstep as <-. eapply Plain_Quiet; [exact H |].
    eapply Quiet_trans; [| apply Quiet_handleInput]. apply Quiet_same; reflexivity.
  - injection Hstep as <-. eapply Plain_Quiet; [exact H |]. apply Quiet_same; reflexivity.
  - destruct (dropdownIcon st); [| discriminate]. injection Hstep as <-.
    eapply Plain_Quiet; [exact H |]. unfold onIconClick.
    assert (H1 : Quiet st (if focused st then st
                           else handleInput opts env (set_focused true st))).
    { destruct (focused st); [apply Quiet_refl |].
      eapply Quiet_trans; [| apply Quiet_handleInput]. apply Quiet_same; reflexivity. }
    destruct (visible _); (eapply Quiet_trans; [exact H1 |]);
      [apply Quiet_hide | apply Quiet_handleInput].
  - injection Hstep as <-. eapply Plain_Quiet; [exact H | apply Quiet_handleKeyDown].
  - destruct (visible st); [| discriminate].
    destruct (nth_error _ _); [| discriminate]. injection Hstep as <-.
    eapply Plain_Quiet; [exact H | apply Quiet_highlight].
  - destruct (visible st); [| discriminate].
    destruct (nth_error _ _); [| discriminate]. injection Hstep as <-.
    eapply Plain_Quiet; [exact H | apply Quiet_select].
  - destruct (pending id st) as [t |]; [| discriminate].
    destruct (due t <=? now env); [| discriminate]. injection Hstep as <-.
    eapply Plain_Quiet; [exact H |].
    eapply Quiet_trans; [| apply Quiet_runTimer]. apply Quiet_same; reflexivity.
  - destruct (inflight st); [discriminate |]. injection Hstep as <-.
    apply Plain_settle; exact H.
  - injection Hstep as <-. eapply Plain_Quiet; [exact H |].
    unfold handlePositionUpdate. destruct (visible st); [| apply Quiet_refl].
    apply Quiet_same; [reflexivity | apply update_children].
Qed.

Lemma Plain_reachable st : Reachable variant opts st -> Plain opts st.
Proof.
  intros (value & isFocused & script & Hex).
  pose proof (Plain_construct value isFocused) as H0.
  revert Hex H0. generalize (construct variant opts value isFocused).
  induction script as [| [env ev] script IH]; intros s Hex H0.
  - injection Hex as <-; exact H0.
  - simpl in Hex.
    destruct (step variant opts env ev s) as [s1 |] eqn:Hstep; [| discriminate].
    apply (IH s1 Hex). eapply Plain_step; eauto.
Qed.

End PlainInvariant.

(** C10: a caller that leaves [allowHTML] and [renderSuggestion] out gets
    the default renderer with markup off.  In every state the widget can
    reach, whatever the source delivers, every suggestion element holds the
    string of [formatSelectedItem] for its item as a text node, no element
    holds markup, and neither [formatSuggestionHTML] nor [sanitizeHTML] has
    been called. *)
Theorem default_rendering_is_plain_text {T : Type} (variant : Variant)
        (user : UserOptions T) (st : State T) :
  user_allowHTML user = None ->
  user_renderSuggestion user = None ->
  Reachable variant (resolveOptions user) st ->
  (forall el, In el (children (container st)) ->
              content (node el)
              = TextContent (user_formatSelectedItem user (click_suggestion el))) /\
  (forall el html, In el (children (container st)) ->
                   content (node el) <> InnerHTML html) /\
  (forall item, ~ In (FormatSuggestionHTML item) (trace st)) /\
  (forall html, ~ In (SanitizeHTML html) (trace st)).
Proof.
  intros Hallow Hrender Hreach.
  assert (Hno : allowHTML (resolveOptions user) = false)
    by (simpl; rewrite Hallow; reflexivity).
  assert (Hdef : renderSuggestion (resolveOptions user) = DefaultRenderer)
    by (simpl; rewrite Hrender; reflexivity).
  destruct (Plain_reachable variant (resolveOptions user) Hno Hdef st Hreach)
    as [Hplain Hfree].
  split; [exact Hplain |].
  split; [intros el html Hin; rewrite (Hplain el Hin); discriminate |].
  split.
  - intros item Hin. specialize (Hfree _ Hin). discriminate.
  - intros html Hin. specialize (Hfree _ Hin). discriminate.
Qed.

Lemma default_rendering_is_plain_text_witness :
  (forall el, In el (children (container (Demo.shownState JavaScript Demo.plain))) ->
              content (node el) = TextContent (Demo.name (click_suggestion el))) /\
  ~ In (SanitizeHTML "Canada") (trace (Demo.shownState JavaScript Demo.plain)).
Proof.
  destruct (default_rendering_is_plain_text JavaScript (onlyFormatter Demo.name)
              (Demo.shownState JavaScript Demo.plain)) as (Htext & _ & _ & Hsan).
  - reflexivity.
  - reflexivity.
  - exists EmptyString, false, Demo.typeCan. vm_compute; reflexivity.
  - split; [exact Htext | exact (Hsan _)].
Defined.

(** ** Teardown *)

Lemma removeEventListener_removes_nothing tg type c (p : Page.Page) :
  KnownFunctions p ->
  Page.listeners (Page.removeEventListener tg type c p) = Page.listeners p /\
  Page.tree (Page.removeEventListener tg type c p) = Page.tree p /\
  KnownFunctions (Page.removeEventListener tg type c p).
Proof.
  intros Hknown. unfold Page.removeEventListener; simpl.
  assert (Hsame : filter
                    (fun l => negb (Page.target_eqb (Page.target l) tg
                                    && String.eqb (Page.event l) type
                                    && (Page.fn l =? Page.nextFn p)%nat))
                    (Page.listeners p) = Page.listeners p).
  { apply forallb_filter_id, forallb_forall. intros l Hin.
    specialize (Hknown l Hin).
    replace (Page.fn l =? Page.nextFn p)%nat with false
      by (symmetry; apply Nat.eqb_neq; lia).
    rewrite andb_false_r; reflexivity. }
  split; [exact Hsame |]. split; [reflexivity |].
  intros l Hin; simpl in *. rewrite Hsame in Hin. specialize (Hknown l Hin). lia.
Qed.

Lemma removeEventListener_fold (targets : list Page.NodeId) (p : Page.Page) :
  KnownFunctions p ->
  let q := fold_left
             (fun q parent =>
                Page.removeEventListener (Page.OnNode parent) "scroll"
                                         Page.HandlePositionUpdate q)
             targets p in
  Page.listeners q = Page.listeners p /\ Page.tree q = Page.tree p /\ KnownFunctions q.
Proof.
  revert p; induction targets as [| n targets IH]; intros p Hknown; simpl.
  - auto.
  - destruct (removeEventListener_removes_nothing
                (Page.OnNode n) "scroll" Page.HandlePositionUpdate p Hknown)
      as (Hl & Ht & Hk).
    destruct (IH _ Hk) as (Hl' & Ht' & Hk').
    split; [congruence |]. split; [congruence | exact Hk'].
Qed.

(** Whatever the page, [destroy] leaves every registered listener in place:
    each [removeEventListener] is handed a function object made on the spot. *)
Lemma destroy_removes_no_listener (variant : Variant) (hasWrapper : bool)
      (p : Page.Page) :
  KnownFunctions p ->
  Page.listeners (Page.destroy variant hasWrapper p) = Page.listeners p.
Proof.
  intros Hknown. unfold Page.destroy.
  set (p1 := if hasWrapper then _ else p).
  assert (H1 : Page.listeners p1 = Page.listeners p /\ Page.nextFn p1 = Page.nextFn p).
  { subst p1. destruct hasWrapper; [| auto]. simpl.
    destruct (Page.parentNode Page.Wrapper (Page.tree p)); auto. }
  set (p2 := match Page.parentNode Page.Panel (Page.tree p1) with
             | Some parent => _
             | None => p1
             end).
  assert (H2 : Page.listeners p2 = Page.listeners p /\ Page.nextFn p2 = Page.nextFn p).
  { subst p2. destruct (Page.parentNode Page.Panel (Page.tree p1)); simpl; exact H1. }
  assert (K2 : KnownFunctions p2).
  { intros l Hin. destruct H2 as [Hl Hn]. rewrite Hl in Hin. rewrite Hn. auto. }
  clearbody p2. clear p1 H1.
  destruct (removeEventListener_removes_nothing
              (Page.OnNode Page.Input) "input" Page.HandleInput p2 K2) as (L3 & _ & K3).
  destruct (removeEventListener_removes_nothing
              (Page.OnNode Page.Input) "focus" Page.HandleInput _ K3) as (L4 & _ & K4).
  destruct (removeEventListener_removes_nothing
              (Page.OnNode Page.Input) "keydown" Page.HandleKeyDown _ K4) as (L5 & _ & K5).
  destruct variant.
  - destruct (removeEventListener_removes_nothing
                Page.OnWindow "resize" Page.HandlePositionUpdate _ K5) as (L6 & _).
    destruct H2; congruence.
  - match goal with
    | |- context [fold_left ?f ?l ?q] =>
        destruct (removeEventListener_fold l q K5) as (L6 & _ & K6)
    end.
    destruct (removeEventListener_removes_nothing
                Page.OnWindow "scroll" Page.HandlePositionUpdate _ K6) as (L7 & _ & K7).
    destruct (removeEventListener_removes_nothing
                Page.OnWindow "resize" Page.HandlePositionUpdate _ K7) as (L8 & _).
    destruct H2; congruence.
Qed.

(** C9 on the demonstration page, with the icon shown: [destroy] puts the
    input back between its siblings, removes the wrapper and the panel and
    clears the padding, but every listener the constructor registered is
    still registered afterwards, on the input, on the window and (in the
    JavaScript build) on the ancestors of the input. *)
Theorem destroy_leaves_listeners_registered :
  forall variant : Variant,
    let attached := Page.attach variant true Demo.page in
    let destroyed := Page.destroy variant true attached in
    Page.childNodes (Page.Other 0) (Page.tree destroyed)
    = [Page.Other 1; Page.Input; Page.Other 2] /\
    Page.childNodes Page.Body (Page.tree destroyed) = [Page.Other 0] /\
    Page.paddingRight destroyed = EmptyString /\
    Page.listeners destroyed = Page.listeners attached /\
    map Page.event (Page.listenersOn (Page.OnNode Page.Input) destroyed)
    = ["input"; "focus"; "blur"; "keydown"]%string /\
    map Page.event (Page.listenersOn Page.OnWindow destroyed)
    = ["resize"; "scroll"]%string /\
    map Page.event (Page.listenersOn (Page.OnNode Page.Body) destroyed)
    = match variant with
      | TypeScript => []
      | JavaScript => ["scroll"%string]
      end.
Proof.
  intros variant attached destroyed. subst attached destroyed.
  destruct variant.
  - split; [vm_compute; reflexivity |]. split; [vm_compute; reflexivity |].
    split; [vm_compute; reflexivity |]. split; [vm_compute; reflexivity |].
    split; [vm_compute; reflexivity |]. split; vm_compute; reflexivity.
  - split; [vm_compute; reflexivity |]. split; [vm_compute; reflexivity |].
    split; [vm_compute; reflexivity |]. split; [vm_compute; reflexivity |].
    split; [vm_compute; reflexivity |]. split; vm_compute; reflexivity.
Qed.

(** ** Debouncing *)

Section DebounceFacts.

Context {T : Type}.
Variable variant : Variant.
Variable opts : Options T.
Variable reply : nat -> SourceReply.

Implicit Types st : State T.

Lemma queries_app (l l' : list (Effect T)) : queries (l ++ l') = queries l ++ queries l'.
Proof.
  induction l as [| e l IH]; [reflexivity |].
  simpl; destruct e; simpl; rewrite IH; reflexivity.
Qed.

(** What firing one timer does. *)
Lemma fire_spec st (t : Timer) :
  queries (trace (fire reply st t)) = queries (trace st) ++ actionQueries (action t) /\
  sameInput st (fire reply st t) /\
  (TimerInv st -> TimerInv (fire reply st t)).
Proof.
  unfold fire. split; [| split].
  - destruct (action t) as [q |]; simpl.
    + destruct (reply (timer_id t)); simpl.
      * rewrite hide_trace; simpl. rewrite <- app_assoc, queries_app. reflexivity.
      * rewrite queries_app. reflexivity.
    + rewrite hide_trace; simpl. symmetry; apply app_nil_r.
  - destruct (action t) as [q |]; simpl.
    + destruct (reply (timer_id t)); simpl; split;
        rewrite ?hide_inputValue, ?hide_focused; reflexivity.
    + split; rewrite ?hide_inputValue, ?hide_focused; reflexivity.
  - apply TimerInv_fire.
Qed.

Lemma fire_all_spec (l : list Timer) st :
  queries (trace (fold_left (fire reply) l st))
  = queries (trace st) ++ flat_map (fun t => actionQueries (action t)) l /\
  sameInput st (fold_left (fire reply) l st) /\
  (TimerInv st -> TimerInv (fold_left (fire reply) l st)).
Proof.
  revert st; induction l as [| t l IH]; intros st; simpl.
  - rewrite app_nil_r. split; [reflexivity |]. split; [split; reflexivity | auto].
  - destruct (fire_spec st t) as (Hq & [Hv Hf] & Hi).
    destruct (IH (fire reply st t)) as (Hq' & [Hv' Hf'] & Hi').
    split; [rewrite Hq', Hq, app_assoc; reflexivity |].
    split; [split; congruence | auto].
Qed.

(** The queries of a list of timers are those of its pending fetches. *)
Lemma queries_of_pendingFetches (l : list Timer) :
  flat_map (fun t => actionQueries (action t)) l
  = flat_map (fun p => actionQueries (snd p)) (pendingFetches l).
Proof.
  unfold pendingFetches. induction l as [| t l IH]; [reflexivity |].
  simpl. unfold isFetch at 1. destruct (action t) as [q |] eqn:Ha; simpl.
  - rewrite Ha, IH; reflexivity.
  - exact IH.
Qed.

Lemma pendingFetches_insert (t : Timer) (l : list Timer) :
  pendingFetches (insertByDue t l) =
    if isFetch t
    then match pendingFetches l with
         | [] => [(due t, action t)]
         | _ => pendingFetches (insertByDue t l)
         end
    else pendingFetches l.
Proof.
  unfold pendingFetches. induction l as [| u l IH]; simpl.
  - destruct (isFetch t); reflexivity.
  - destruct (due t <=? due u); simpl.
    + destruct (isFetch t); simpl; [| reflexivity].
      destruct (isFetch u); simpl; [reflexivity |].
      destruct (map _ (filter isFetch l)); reflexivity.
    + destruct (isFetch u) eqn:Hu; simpl.
      * destruct (isFetch t); [reflexivity |]. rewrite IH; reflexivity.
      * rewrite IH. destruct (isFetch t); [| reflexivity].
        destruct (map _ (filter isFetch l)); reflexivity.
Qed.

(** Sorting does not disturb the pending fetches when there is at most one. *)
Lemma pendingFetches_sort (l : list Timer) :
  (List.length (pendingFetches l) <= 1)%nat ->
  pendingFetches (sortByDue l) = pendingFetches l.
Proof.
  induction l as [| t l IH]; intros Hlen; [reflexivity |].
  simpl. rewrite pendingFetches_insert.
  unfold pendingFetches in *. simpl in *.
  destruct (isFetch t); simpl in *.
  - assert (Hnil : map (fun t0 => (due t0, action t0)) (filter isFetch l) = [])
      by (destruct (map _ (filter isFetch l)); [reflexivity | simpl in Hlen; lia]).
    rewrite Hnil in *. rewrite IH by (simpl; lia). reflexivity.
  - apply IH; exact Hlen.
Qed.

Lemma pendingFetches_filter (p : Timer -> bool) (q : Z * TimerAction -> bool)
      (l : list Timer) :
  (forall t, p t = q (due t, action t)) ->
  pendingFetches (filter p l) = filter q (pendingFetches l).
Proof.
  intros Hpq. unfold pendingFetches. induction l as [| t l IH]; [reflexivity |].
  simpl. destruct (p t) eqn:Hp; destruct (isFetch t) eqn:Hf; simpl;
    rewrite ?Hf; simpl; rewrite <- ?Hpq, ?Hp; simpl; rewrite IH; reflexivity.
Qed.

End DebounceFacts.

Section DebounceSteps.

Context {T : Type}.
Variable variant : Variant.
Variable opts : Options T.
Variable reply : nat -> SourceReply.

Implicit Types st : State T.

Lemma pendingFetches_app (l l' : list Timer) :
  pendingFetches (l ++ l') = pendingFetches l ++ pendingFetches l'.
Proof. unfold pendingFetches. rewrite filter_app, map_app. reflexivity. Qed.

Lemma cancelled_pendingFetches st :
  TimerInv st -> pendingFetches (timers (cancelled st)) = [].
Proof.
  intros H. unfold pendingFetches. rewrite (cancelled_no_fetch st H). reflexivity.
Qed.

(** [handleInput] calls nothing and leaves exactly its own fetch pending. *)
Lemma handleInput_Armed env st :
  TimerInv st ->
  Armed opts (now env) (handleInput opts env st) /\
  trace (handleInput opts env st) = trace st.
Proof.
  intros H. unfold Armed.
  rewrite (schedules_ext opts _ _ (handleInput_sameInput opts env st)).
  destruct (handleInput_sameInput opts env st) as [Hv _]. rewrite Hv.
  rewrite handleInput_cases.
  destruct (cancelled_fields st) as (_ & _ & _ & Ht & _).
  destruct (schedules opts st); simpl.
  - rewrite pendingFetches_app, (cancelled_pendingFetches st H). auto.
  - rewrite hide_timers, hide_trace, (cancelled_pendingFetches st H). auto.
Qed.

(** Running the due timers from a state in which at most the fetch of the
    event at [t0] is pending: the source is called exactly when that fetch
    exists and is due. *)
Lemma fireDue_spec env st (t0 : Z) :
  TimerInv st -> Armed opts t0 st ->
  queries (trace (fireDue reply env st))
  = queries (trace st)
    ++ (if schedules opts st && (t0 + Z.max (debounceTime opts) 0 <=? now env)
        then [Js.trim (inputValue st)] else []) /\
  sameInput st (fireDue reply env st) /\
  TimerInv (fireDue reply env st).
Proof.
  intros Hinv Harmed. unfold fireDue.
  destruct (fire_all_spec reply
              (sortByDue (filter (fun t => due t <=? now env) (timers st))) st)
    as (Hq & Hsame & Hi).
  split; [| split; [exact Hsame | exact (Hi Hinv)]].
  rewrite Hq. f_equal. rewrite queries_of_pendingFetches.
  assert (Hready : pendingFetches (filter (fun t => due t <=? now env) (timers st))
                   = filter (fun p => fst p <=? now env) (pendingFetches (timers st)))
    by (apply pendingFetches_filter; reflexivity).
  unfold Armed in Harmed. rewrite Harmed in Hready.
  rewrite pendingFetches_sort; rewrite Hready.
  - destruct (schedules opts st); simpl; [| reflexivity].
    destruct (_ <=? now env); reflexivity.
  - destruct (schedules opts st); simpl; [| lia].
    destruct (_ <=? now env); simpl; lia.
Qed.

Lemma deliver_eq env k st :
  deliver variant opts reply env k st =
    handleInput opts env
      (match k with
       | Edit value => set_inputValue value (fireDue reply env st)
       | Focus => set_focused true (fireDue reply env st)
       end).
Proof. unfold deliver; destruct k; reflexivity. Qed.

(** An event that arrives before the pending fetch is due replaces it. *)
Lemma deliver_spec env k st (t0 : Z) :
  TimerInv st -> Armed opts t0 st ->
  now env < t0 + Z.max (debounceTime opts) 0 ->
  queries (trace (deliver variant opts reply env k st)) = queries (trace st) /\
  TimerInv (deliver variant opts reply env k st) /\
  Armed opts (now env) (deliver variant opts reply env k st).
Proof.
  intros Hinv Harmed Hearly.
  destruct (fireDue_spec env st t0 Hinv Harmed) as (Hq & _ & Hi).
  replace (t0 + Z.max (debounceTime opts) 0 <=? now env) with false in Hq
    by (symmetry; apply Z.leb_gt; exact Hearly).
  rewrite andb_false_r, app_nil_r in Hq.
  rewrite deliver_eq.
  set (st1 := match k with
              | Edit value => set_inputValue value (fireDue reply env st)
              | Focus => set_focused true (fireDue reply env st)
              end).
  assert (Hi1 : TimerInv st1)
    by (apply TimerInv_ext with (st := fireDue reply env st);
        [subst st1; destruct k; repeat split | exact Hi]).
  assert (Ht1 : trace st1 = trace (fireDue reply env st))
    by (subst st1; destruct k; reflexivity).
  destruct (handleInput_Armed env st1 Hi1) as [Ha Ht].
  split; [rewrite Ht, Ht1; exact Hq |].
  split; [apply TimerInv_handleInput; exact Hi1 | exact Ha].
Qed.

(** The rest of a burst, from the state its first event left. *)
Lemma burst_rest (script : list (Env * Typing)) :
  forall st env0 k0 env_end,
    TimerInv st -> Armed opts (now env0) st ->
    0 <= debounceTime opts ->
    rapid (debounceTime opts) ((env0, k0) :: script) ->
    lastTime (now env0) script + debounceTime opts <= now env_end ->
    let final := deliverAll variant opts reply script st in
    queries (trace (fireDue reply env_end final))
    = queries (trace st)
      ++ (if schedules opts final then [Js.trim (inputValue final)] else []) /\
    Armed opts (lastTime (now env0) script) final /\
    queries (trace final) = queries (trace st).
Proof.
  induction script as [| [env1 k1] script IH];
    intros st env0 k0 env_end Hinv Harmed Hd Hrapid Hend; simpl.
  - destruct (fireDue_spec env_end st (now env0) Hinv Harmed) as (Hq & _).
    simpl in Hend.
    replace (now env0 + Z.max (debounceTime opts) 0 <=? now env_end) with true in Hq
      by (symmetry; apply Z.leb_le; lia).
    rewrite andb_true_r in Hq. split; [exact Hq |]. split; [exact Harmed | reflexivity].
  - destruct Hrapid as [Hgap Hrapid]. simpl in Hend.
    destruct (deliver_spec env1 k1 st (now env0) Hinv Harmed) as (Hq & Hi & Ha);
      [lia |].
    destruct (IH _ env1 k1 env_end Hi Ha Hd Hrapid Hend) as (Hq' & Ha' & Hq'').
    simpl in Hq', Hq''. rewrite Hq in Hq', Hq''.
    split; [exact Hq' |]. split; [exact Ha' | exact Hq''].
Qed.

End DebounceSteps.

(** The claim C4 as stated fails: the user types "ab" and, 100 ms later,
    deletes the "b".  With the default [minChars] of 2 the second event
    clears the timer of the first and schedules nothing, so no fetch is
    issued at all, where the claim promises exactly one. *)
Lemma rapid_input_can_fetch_nothing :
  rapid (debounceTime Demo.plain)
        [(Demo.at_ 1000, Edit "ab"); (Demo.at_ 1100, Edit "a")] /\
  queries (trace (fireDue (fun _ => ReplyAwaited) (Demo.at_ 5000)
                    (deliverAll TypeScript Demo.plain (fun _ => ReplyAwaited)
                       [(Demo.at_ 1000, Edit "ab"); (Demo.at_ 1100, Edit "a")]
                       (Demo.shownState TypeScript Demo.plain))))
  = queries (trace (fireDue (fun _ => ReplyAwaited) (Demo.at_ 1000)
                      (Demo.shownState TypeScript Demo.plain))) /\
  queries (trace (fireDue (fun _ => ReplyAwaited) (Demo.at_ 5000)
                    (deliverAll TypeScript Demo.plain (fun _ => ReplyAwaited)
                       [(Demo.at_ 1000, Edit "ab"); (Demo.at_ 1100, Edit "a")]
                       (Demo.shownState TypeScript Demo.plain))))
  <> queries (trace (fireDue (fun _ => ReplyAwaited) (Demo.at_ 1000)
                       (Demo.shownState TypeScript Demo.plain))) ++ ["a"%string].
Proof.
  split; [| split; [vm_compute; reflexivity | vm_compute; discriminate]].
  simpl. split; [| exact I]. vm_compute. split; [discriminate | reflexivity].
Qed.

(** C4, amended: when input and focus events follow one another with gaps
    shorter than the debounce delay, each event clears the timer of the
    previous one, so the source is not called during the burst and at most
    one fetch is pending after it.  Once the delay has passed after the final
    event the source has been called exactly once, with the trimmed value the
    field held at the final event, if that value is at least [minChars] long
    or is empty with the field focused; otherwise it has not been called. *)
Theorem rapid_input_fetches_final_value_only {T : Type} (variant : Variant)
        (opts : Options T) (reply : nat -> SourceReply) (st : State T)
        (first : Env) (key : Typing) (script : list (Env * Typing)) (env_end : Env) :
  Reachable variant opts st ->
  0 <= debounceTime opts ->
  rapid (debounceTime opts) ((first, key) :: script) ->
  lastTime (now first) script + debounceTime opts <= now env_end ->
  let arrived := fireDue reply first st in
  let final := deliverAll variant opts reply ((first, key) :: script) st in
  queries (trace final) = queries (trace arrived) /\
  pendingFetches (timers final)
  = (if schedules opts final
     then [(lastTime (now first) script + debounceTime opts,
            FetchCallback (Js.trim (inputValue final)))]
     else []) /\
  queries (trace (fireDue reply env_end final))
  = queries (trace arrived)
    ++ (if schedules opts final then [Js.trim (inputValue final)] else []).
Proof.
  intros Hreach Hd Hrapid Hend arrived final.
  pose proof (TimerInv_reachable variant opts st Hreach) as Hinv.
  destruct (fire_all_spec reply
              (sortByDue (filter (fun t => due t <=? now first) (timers st))) st)
    as (_ & _ & Hi).
  fold (fireDue reply first st) in Hi. fold arrived in Hi. specialize (Hi Hinv).
  set (st1 := match key with
              | Edit value => set_inputValue value arrived
              | Focus => set_focused true arrived
              end).
  assert (Hi1 : TimerInv st1)
    by (apply TimerInv_ext with (st := arrived);
        [subst st1; destruct key; repeat split | exact Hi]).
  assert (Ht1 : trace st1 = trace arrived) by (subst st1; destruct key; reflexivity).
  destruct (handleInput_Armed opts first st1 Hi1) as [Ha Ht].
  assert (Hfirst : deliver variant opts reply first key st = handleInput opts first st1)
    by (rewrite deliver_eq; reflexivity).
  destruct (burst_rest variant opts reply script (handleInput opts first st1)
              first key env_end (TimerInv_handleInput opts first st1 Hi1) Ha Hd
              Hrapid Hend) as (Hq & Harmed & Hquiet).
  simpl in Hq, Harmed, Hquiet.
  assert (Hfinal : final = deliverAll variant opts reply script
                             (handleInput opts first st1))
    by (subst final; simpl; rewrite Hfirst; reflexivity).
  rewrite <- Hfinal in Hq, Harmed, Hquiet. rewrite Ht, Ht1 in Hq, Hquiet.
  split; [exact Hquiet |]. split; [| exact Hq].
  unfold Armed in Harmed. rewrite Harmed.
  rewrite Z.max_l by exact Hd. reflexivity.
Qed.

Lemma rapid_input_fetches_final_value_only_witness :
  queries (trace (fireDue (fun _ => ReplyAwaited) (Demo.at_ 5000)
                    (deliverAll TypeScript Demo.plain (fun _ => ReplyAwaited)
                       [(Demo.at_ 1000, Edit "c"); (Demo.at_ 1100, Edit "ca");
                        (Demo.at_ 1250, Edit "can ")]
                       (Demo.shownState TypeScript Demo.plain))))
  = ["can"; "can"]%string.
Proof.
  destruct (rapid_input_fetches_final_value_only TypeScript Demo.plain
              (fun _ => ReplyAwaited) (Demo.shownState TypeScript Demo.plain)
              (Demo.at_ 1000) (Edit "c")
              [(Demo.at_ 1100, Edit "ca"); (Demo.at_ 1250, Edit "can ")]
              (Demo.at_ 5000)) as (_ & _ & Hq).
  - exists EmptyString, false, Demo.typeCan. vm_compute; reflexivity.
  - vm_compute; discriminate.
  - simpl. vm_compute. repeat split; discriminate.
  - vm_compute; discriminate.
  - rewrite Hq. vm_compute. reflexivity.
Defined.

(** * Further properties of the code *)

(** ** Induction over the events of an execution *)

Section StepInduction.

Context {T : Type}.
Variable variant : Variant.
Variable opts : Options T.
Variable admitted : Event T -> bool.
Variable P : State T -> Prop.

Hypothesis P_value : forall value st, P st -> P (set_inputValue value st).
Hypothesis P_focus : forall b st, P st -> P (set_focused b st).
Hypothesis P_input : forall env st, P st -> P (handleInput opts env st).
Hypothesis P_blur : forall env st, P st -> P (onBlur env st).
Hypothesis P_hide : forall st, P st -> P (hide st).
Hypothesis P_key : forall key st, P st -> P (state_of (handleKeyDown opts key st)).
Hypothesis P_enter : forall el st,
    visible st = true -> In el (children (container st)) -> P st ->
    P (onMouseEnter opts el st).
Hypothesis P_click : forall el st,
    visible st = true -> In el (children (container st)) -> P st ->
    P (onClick opts el st).
Hypothesis P_timer : forall t reply st,
    In t (timers st) -> P st ->
    P (runTimer (action t) reply (clearTimeout (timer_id t) st)).
Hypothesis P_settle : forall env r st,
    admitted (EvSettle r) = true -> P st -> P (state_of (settle variant opts env r st)).
Hypothesis P_reposition : forall env st, P st -> P (handlePositionUpdate variant env st).

Lemma step_preserves env ev (st st' : State T) :
  admitted ev = true -> P st -> step variant opts env ev st = Some st' -> P st'.
Proof.
  intros Hadm H Hstep. destruct ev; simpl in Hstep.
  - injection Hstep as <-. auto.
  - injection Hstep as <-. auto.
  - injection Hstep as <-. auto.
  - destruct (dropdownIcon st); [| discriminate]. injection Hstep as <-.
    unfold onIconClick.
    assert (H1 : P (if focused st then st
                    else handleInput opts env (set_focused true st)))
      by (destruct (focused st); auto).
    destruct (visible _); auto.
  - injection Hstep as <-. auto.
  - destruct (visible st) eqn:Hv; [| discriminate].
    destruct (nth_error (children (container st)) child) as [el |] eqn:Hn;
      [| discriminate].
    injection Hstep as <-. apply P_enter; auto. eapply nth_error_In; eauto.
  - destruct (visible st) eqn:Hv; [| discriminate].
    destruct (nth_error (children (container st)) child) as [el |] eqn:Hn;
      [| discriminate].
    injection Hstep as <-. apply P_click; auto. eapply nth_error_In; eauto.
  - destruct (pending id st) as [t |] eqn:Hp; [| discriminate].
    destruct (due t <=? now env); [| discriminate].
    injection Hstep as <-. unfold pending in Hp.
    apply find_some in Hp as [Hin Hid]. apply Nat.eqb_eq in Hid. subst id.
    apply P_timer; assumption.
  - destruct (inflight st); [discriminate |]. injection Hstep as <-. auto.
  - injection Hstep as <-. auto.
Qed.

Lemma exec_preserves script (st st' : State T) :
  forallb (fun p => admitted (snd p)) script = true ->
  P st -> exec variant opts script st = Some st' -> P st'.
Proof.
  revert st; induction script as [| [env ev] script IH]; intros st Hadm H Hex.
  - injection Hex as <-; exact H.
  - simpl in Hadm, Hex. apply andb_prop in Hadm as [Hev Hrest].
    destruct (step variant opts env ev st) as [st1 |] eqn:Hstep; [| discriminate].
    apply (IH st1); auto. eapply step_preserves; eauto.
Qed.

End StepInduction.

(** Every event is admitted. *)
Lemma all_admitted {T : Type} (script : list (Env * Event T)) :
  forallb (fun p => (fun _ : Event T => true) (snd p)) script = true.
Proof. induction script as [| p script IH]; [reflexivity | exact IH]. Qed.

(** Invariants of the panel: properties that depend only on the stored
    suggestions, the active index, the panel and the icon are kept by every
    event once they are kept by [hide], by a new highlight, by the
    continuation of a fetch and by a reposition. *)

Section PanelInduction.

Context {T : Type}.
Variable variant : Variant.
Variable opts : Options T.
Variable admitted : Event T -> bool.
Variable P : State T -> Prop.

Hypothesis P_frame : forall st st' : State T,
    suggestions st' = suggestions st -> activeIndex st' = activeIndex st ->
    container st' = container st -> dropdownIcon st' = dropdownIcon st ->
    P st -> P st'.
Hypothesis P_hide : forall st, P st -> P (hide st).
Hypothesis P_highlight : forall i st,
    visible st = true -> P st -> P (highlightActive opts (set_activeIndex i st)).
Hypothesis P_settle : forall env r st,
    admitted (EvSettle r) = true -> P st -> P (state_of (settle variant opts env r st)).
Hypothesis P_reposition : forall env st, P st -> P (handlePositionUpdate variant env st).

Lemma cancelled_dropdownIcon (st : State T) : dropdownIcon (cancelled st) = dropdownIcon st.
Proof. unfold cancelled; destruct (debounceTimer st); reflexivity. Qed.

Lemma panel_handleInput env (st : State T) : P st -> P (handleInput opts env st).
Proof.
  intros H. rewrite handleInput_cases.
  destruct (cancelled_fields st) as (Hs & Ha & Hc & _).
  pose proof (cancelled_dropdownIcon st) as Hi.
  destruct (schedules opts st).
  - apply P_frame with (st := st); simpl; auto.
  - apply P_hide. apply P_frame with (st := st); auto.
Qed.

Lemma panel_handleKeyDown key (st : State T) :
  P st -> P (state_of (handleKeyDown opts key st)).
Proof.
  intros H. unfold handleKeyDown.
  destruct (visible st) eqn:Hv; simpl; [| exact H].
  assert (He : P (emit [PreventDefault] st))
    by (apply P_frame with (st := st); auto).
  destruct key; simpl; try exact H.
  - destruct (suggestions st); simpl; [| exact He].
    apply P_highlight; [exact Hv | exact He].
  - apply P_highlight; [exact Hv | exact He].
  - destruct (activeIndex st >=? 0); simpl; [| exact H].
    destruct (suggestions st); simpl; [| exact He].
    destruct (nth_error _ _); simpl; [| exact He].
    unfold selectSuggestion. apply P_hide.
    apply P_frame with (st := st); auto.
  - apply P_hide. exact He.
Qed.

Lemma panel_step env ev (st st' : State T) :
  admitted ev = true -> P st -> step variant opts env ev st = Some st' -> P st'.
Proof.
  apply (step_preserves variant opts admitted P).
  - intros value s H. apply P_frame with (st := s); auto.
  - intros b s H. apply P_frame with (st := s); auto.
  - apply panel_handleInput.
  - intros e s H. apply P_frame with (st := s); auto.
  - exact P_hide.
  - apply panel_handleKeyDown.
  - intros el s Hv _ H. unfold onMouseEnter. apply P_highlight; auto.
  - intros el s _ _ H. unfold onClick, selectSuggestion. apply P_hide.
    apply P_frame with (st := s); auto.
  - intros t reply s _ H.
    assert (H0 : P (clearTimeout (timer_id t) s))
      by (apply P_frame with (st := s); auto).
    destruct (action t) as [q |]; simpl; [| apply P_hide; exact H0].
    destruct reply; simpl.
    + apply P_hide. apply P_frame with (st := clearTimeout (timer_id t) s); auto.
    + apply P_frame with (st := clearTimeout (timer_id t) s); auto.
  - exact P_settle.
  - exact P_reposition.
Qed.

Lemma panel_exec script (st st' : State T) :
  forallb (fun p => admitted (snd p)) script = true ->
  P st -> exec variant opts script st = Some st' -> P st'.
Proof.
  revert st; induction script as [| [env ev] script IH]; intros st Hadm H Hex.
  - injection Hex as <-; exact H.
  - simpl in Hadm, Hex. apply andb_prop in Hadm as [Hev Hrest].
    destruct (step variant opts env ev st) as [st1 |] eqn:Hstep; [| discriminate].
    apply (IH st1); auto. eapply panel_step; eauto.
Qed.

End PanelInduction.

(** ** The icon follows the panel *)

Section IconFacts.

Context {T : Type}.
Variable variant : Variant.
Variable opts : Options T.
Hypothesis own_class :
  Js.has_class "autocomplete-icon-active" [dropdownIconClass opts] = false.

Implicit Types st : State T.

Lemma hide_dropdownIcon st :
  dropdownIcon (hide st)
  = option_map (Js.classList_remove "autocomplete-icon-active") (dropdownIcon st).
Proof.
  unfold hide; simpl. destruct (dropdownIcon st) eqn:E; simpl; rewrite ?E; reflexivity.
Qed.

Lemma show_dropdownIcon v env st :
  dropdownIcon (show v env st)
  = option_map (Js.classList_add "autocomplete-icon-active") (dropdownIcon st).
Proof.
  unfold show; simpl. destruct (dropdownIcon st) eqn:E; simpl; rewrite ?E; reflexivity.
Qed.

Lemma IconInv_hide st : IconInv opts st -> IconInv opts (hide st).
Proof.
  unfold IconInv. rewrite hide_dropdownIcon, hide_visible.
  destruct (dropdownIcon st) as [cl |]; simpl; [| auto].
  intros [Hs _]. split; [exact Hs | apply has_class_remove_same].
Qed.

Lemma IconInv_show v env st : IconInv opts st -> IconInv opts (show v env st).
Proof.
  unfold IconInv. rewrite show_dropdownIcon, show_visible.
  destruct (dropdownIcon st) as [cl |]; simpl; [| auto].
  intros [Hs _]. split; [exact Hs | apply has_class_add_same].
Qed.

Lemma IconInv_same st st' :
  visible st' = visible st -> dropdownIcon st' = dropdownIcon st ->
  IconInv opts st -> IconInv opts st'.
Proof. unfold IconInv; intros -> ->; auto. Qed.

Lemma IconInv_settle env r st :
  IconInv opts st -> IconInv opts (state_of (settle variant opts env r st)).
Proof.
  intros H. destruct r as [[items |] |].
  - rewrite settle_items; simpl. destruct (_ >? 0).
    + apply IconInv_show. apply IconInv_same with (st := st); auto.
    + apply IconInv_hide. apply IconInv_same with (st := st); auto.
  - unfold settle, afterAwait; simpl. destruct variant; simpl.
    + apply IconInv_hide. apply IconInv_same with (st := st); auto.
    + apply IconInv_same with (st := st); auto.
  - rewrite settle_rejected; simpl.
    apply IconInv_hide. apply IconInv_same with (st := st); auto.
Qed.

Lemma IconInv_reachable st : Reachable variant opts st -> IconInv opts st.
Proof.
  intros (value & isFocused & script & Hex).
  eapply (panel_exec variant opts (fun _ => true) (IconInv opts));
    [ | | | | | apply all_admitted | | exact Hex ].
  - intros s s' _ _ Hc Hi. apply IconInv_same; [| exact Hi].
    unfold visible, display; rewrite Hc; reflexivity.
  - apply IconInv_hide.
  - intros i s _. apply IconInv_same; reflexivity.
  - intros env r s _. apply IconInv_settle.
  - intros env s. unfold handlePositionUpdate. destruct (visible s); [| auto].
    apply IconInv_same; [| reflexivity].
    unfold visible, display; simpl. rewrite update_display. reflexivity.
  - unfold IconInv, construct; simpl.
    destruct (showDropdownIcon opts); [| reflexivity].
    split; [reflexivity | exact own_class].
Qed.

End IconFacts.

(** The icon exists exactly when [showDropdownIcon] is set, and in every
    state the widget can reach it carries the class
    [autocomplete-icon-active] exactly while the panel is displayed. *)
Theorem icon_follows_panel {T : Type} (variant : Variant) (opts : Options T)
        (st : State T) :
  Js.has_class "autocomplete-icon-active" [dropdownIconClass opts] = false ->
  Reachable variant opts st ->
  (showDropdownIcon opts = false -> dropdownIcon st = None) /\
  (showDropdownIcon opts = true ->
   exists cl, dropdownIcon st = Some cl /\
              Js.has_class "autocomplete-icon-active" cl = visible st).
Proof.
  intros Hown Hreach.
  pose proof (IconInv_reachable variant opts Hown st Hreach) as H.
  unfold IconInv in H. destruct (dropdownIcon st) as [cl |].
  - destruct H as [Hs Hc]. split; [intros Hf; congruence |].
    intros _; exists cl; auto.
  - split; [reflexivity | intros Ht; congruence].
Qed.

Lemma icon_follows_panel_witness :
  exists cl,
    dropdownIcon (Examples.afterScript JavaScript Examples.withIcon Demo.typeCan) = Some cl /\
    Js.has_class "autocomplete-icon-active" cl = true.
Proof.
  destruct (icon_follows_panel JavaScript Examples.withIcon
              (Examples.afterScript JavaScript Examples.withIcon Demo.typeCan))
    as [_ Hshown].
  - vm_compute; reflexivity.
  - exists EmptyString, false, Demo.typeCan. vm_compute; reflexivity.
  - destruct Hshown as (cl & Hcl & Hactive); [vm_compute; reflexivity |].
    exists cl. split; [exact Hcl |]. rewrite Hactive. vm_compute; reflexivity.
Defined.

(** ** What a displayed panel lists *)

Section ShownFacts.

Context {T : Type}.
Variable variant : Variant.
Variable opts : Options T.

Implicit Types st : State T.

Lemma ShownInv_hidden st : visible st = false -> ShownInv st.
Proof. intros Hv Habs; congruence. Qed.

Lemma ShownInv_same st st' :
  visible st' = visible st -> suggestions st' = suggestions st ->
  ShownInv st -> ShownInv st'.
Proof. unfold ShownInv; intros -> ->; auto. Qed.

Lemma ShownInv_settle env r st :
  well_typed (EvSettle r) = true ->
  ShownInv st -> ShownInv (state_of (settle variant opts env r st)).
Proof.
  intros Hty H. destruct r as [[items |] |]; try discriminate.
  - rewrite settle_items; simpl.
    destruct (Js.slice0 items (maxSuggestions opts)) as [| item rest] eqn:Hs; simpl.
    + apply ShownInv_hidden, hide_visible.
    + intros _. rewrite show_suggestions; simpl. eauto.
  - rewrite settle_rejected; simpl. apply ShownInv_hidden, hide_visible.
Qed.

Lemma ShownInv_reachable st : ReachableTyped variant opts st -> ShownInv st.
Proof.
  intros (value & isFocused & script & Hty & Hex).
  eapply (panel_exec variant opts well_typed (@ShownInv T));
    [ | | | | | exact Hty | | exact Hex ].
  - intros s s' Hs _ Hc _. apply ShownInv_same; [| exact Hs].
    unfold visible, display; rewrite Hc; reflexivity.
  - intros s _. apply ShownInv_hidden, hide_visible.
  - intros i s _. apply ShownInv_same; reflexivity.
  - intros env r s. apply ShownInv_settle.
  - intros env s. unfold handlePositionUpdate. destruct (visible s); [| auto].
    apply ShownInv_same; [| reflexivity].
    unfold visible, display; simpl. rewrite update_display. reflexivity.
  - apply ShownInv_hidden. reflexivity.
Qed.

End ShownFacts.

(** Whenever the panel is displayed (and the source delivers sequences), it
    has exactly one child per stored suggestion, in the same order and each
    at its own position, and there is at least one: the panel is never
    displayed empty and never shows elements of an earlier result. *)
Theorem displayed_panel_lists_the_suggestions {T : Type} (variant : Variant)
        (opts : Options T) (st : State T) :
  ReachableTyped variant opts st ->
  visible st = true ->
  exists item items,
    suggestions st = Items (item :: items) /\
    map click_suggestion (children (container st)) = item :: items /\
    map mouseenter_index (children (container st))
    = map Z.of_nat (seq 0 (S (List.length items))).
Proof.
  intros Hreach Hv.
  destruct (ShownInv_reachable variant opts st Hreach Hv) as (item & items & Hs).
  pose proof (WidgetInv_reachable variant opts (fun _ => True) I (fun _ => I) st Hreach)
    as (items' & H1 & _ & _ & H4 & _).
  rewrite Hs in H1. injection H1 as <-.
  destruct (H4 Hv) as [Hc Hi].
  exists item, items. split; [exact Hs |]. split; [exact Hc |].
  rewrite Hi. rewrite <- (length_map click_suggestion), Hc. reflexivity.
Qed.

Lemma displayed_panel_lists_the_suggestions_witness :
  map click_suggestion (children (container (Demo.highlighted JavaScript Demo.options)))
  = [Demo.canada].
Proof.
  destruct (displayed_panel_lists_the_suggestions JavaScript Demo.options
              (Demo.highlighted JavaScript Demo.options))
    as (item & items & Hs & Hc & _).
  - exists EmptyString, false, (Demo.typeCan ++ [(Demo.at_ 500, EvKeyDown ArrowDown)]).
    split; vm_compute; reflexivity.
  - vm_compute; reflexivity.
  - rewrite Hc. vm_compute in Hs. injection Hs as <- <-. reflexivity.
Defined.

(** ** The highlighted child *)

Section HighlightFacts.

Context {T : Type}.
Variable variant : Variant.
Variable opts : Options T.
Hypothesis default_renderer : renderSuggestion opts = DefaultRenderer.
Hypothesis distinct_classes : String.eqb (suggestionClass opts) (activeClass opts) = false.

Implicit Types st : State T.








End HighlightFacts.



(** ** What the default renderer leaves in the panel *)

Section ContentFacts.

Context {T : Type}.
Variable variant : Variant.
Variable opts : Options T.
Hypothesis default_renderer : renderSuggestion opts = DefaultRenderer.

Implicit Types st : State T.

Lemma highlightFrom_keeps (a k : Z) (els : list (Element T)) (el : Element T) :
  In el (highlightFrom opts a k els) ->
  exists el0, In el0 els /\ content (node el) = content (node el0) /\
              role (node el) = role (node el0) /\
              click_suggestion el = click_suggestion el0.
Proof.
  revert k; induction els as [| e els IH]; intros k Hin; [destruct Hin |].
  simpl in Hin. destruct (Js.has_class _ _).
  - destruct Hin as [<- | Hin].
    + exists e; simpl; auto.
    + destruct (IH _ Hin) as (el0 & H0 & H1 & H2 & H3). exists el0; simpl; auto.
  - destruct Hin as [<- | Hin].
    + exists e; simpl; auto.
    + destruct (IH _ Hin) as (el0 & H0 & H1 & H2 & H3). exists el0; simpl; auto.
Qed.

Lemma renderFrom_content (k : Z) (items : list T) :
  forall el, In el (fst (renderFrom opts k items)) ->
             content (node el) = defaultContent opts (click_suggestion el) /\
             role (node el) = "option"%string.
Proof.
  revert k; induction items as [| s items IH]; intros k el Hin; simpl in Hin.
  - destruct Hin.
  - unfold runRenderSuggestion in Hin. rewrite default_renderer in Hin.
    specialize (IH (k + 1)). unfold defaultContent in *.
    destruct (renderFrom opts (k + 1) items) as [els calls].
    destruct (allowHTML opts); simpl in Hin;
      (destruct Hin as [<- | Hin]; [split; reflexivity | apply IH; exact Hin]).
Qed.

Lemma ContentInv_same st st' :
  children (container st') = children (container st) ->
  ContentInv opts st -> ContentInv opts st'.
Proof. unfold ContentInv; intros ->; auto. Qed.

Lemma ContentInv_settle env r st :
  ContentInv opts st -> ContentInv opts (state_of (settle variant opts env r st)).
Proof.
  intros H. destruct r as [[items |] |].
  - rewrite settle_items; simpl. destruct (_ >? 0).
    + intros el. rewrite show_children; simpl. apply renderFrom_content.
    + intros el; rewrite hide_children; simpl; apply H.
  - unfold settle, afterAwait; simpl. destruct variant; simpl.
    + intros el; rewrite hide_children; simpl; apply H.
    + exact H.
  - rewrite settle_rejected; simpl.
    intros el; rewrite hide_children; simpl; apply H.
Qed.

Lemma ContentInv_reachable st : Reachable variant opts st -> ContentInv opts st.
Proof.
  intros (value & isFocused & script & Hex).
  eapply (panel_exec variant opts (fun _ => true) (ContentInv opts));
    [ | | | | | apply all_admitted | | exact Hex ].
  - intros s s' _ _ Hc _. apply ContentInv_same. rewrite Hc; reflexivity.
  - intros s. apply ContentInv_same, hide_children.
  - intros i s _ H el Hin. simpl in Hin.
    apply highlightFrom_keeps in Hin as (el0 & Hin0 & Hc & Hr & Hk).
    rewrite Hc, Hr, Hk. apply H; exact Hin0.
  - intros env r s _. apply ContentInv_settle.
  - intros env s. unfold handlePositionUpdate. destruct (visible s); [| auto].
    apply ContentInv_same. apply update_children.
  - intros el [].
Qed.

End ContentFacts.

(** With the default renderer and [allowHTML] set, the markup of every
    suggestion element is what [sanitizeHTML] returned for the string of
    [formatSuggestionHTML] for its item: no string reaches [innerHTML]
    without passing the sanitizer.  Every element has the role [option]. *)
Theorem markup_passes_the_sanitizer {T : Type} (variant : Variant)
        (opts : Options T) (st : State T) :
  renderSuggestion opts = DefaultRenderer ->
  allowHTML opts = true ->
  Reachable variant opts st ->
  forall el, In el (children (container st)) ->
             content (node el)
             = InnerHTML (sanitizeHTML opts (formatSuggestionHTML opts (click_suggestion el)))
             /\ role (node el) = "option"%string.
Proof.
  intros Hdef Hallow Hreach el Hin.
  destruct (ContentInv_reachable variant opts Hdef st Hreach el Hin) as [Hc Hr].
  unfold defaultContent in Hc. rewrite Hallow in Hc. auto.
Qed.

Lemma markup_passes_the_sanitizer_witness :
  map (fun el => content (node el))
      (children (container (Demo.shownState TypeScript Demo.options)))
  = [InnerHTML (Sanitizer.sanitizeDefaultHTML "Canada <i>ID: 3</i>")].
Proof.
  assert (Hc : exists el, children (container (Demo.shownState TypeScript Demo.options))
                          = [el] /\ click_suggestion el = Demo.canada)
    by (eexists; split; vm_compute; reflexivity).
  destruct Hc as (el & Hel & Hitem). rewrite Hel. simpl. f_equal.
  destruct (markup_passes_the_sanitizer TypeScript Demo.options
              (Demo.shownState TypeScript Demo.options)) with (el := el) as [Hm _].
  - reflexivity.
  - reflexivity.
  - exists EmptyString, false, Demo.typeCan. vm_compute; reflexivity.
  - rewrite Hel; left; reflexivity.
  - rewrite Hm, Hitem. reflexivity.
Defined.

(** ** The queries the source receives *)

Lemma trimStart_head (s : string) : headTrimmed (Js.trimStart s).
Proof.
  induction s as [| c r IH]; simpl; [exact I |].
  destruct (Js.is_space c) eqn:Hc; [exact IH | exact Hc].
Qed.

Lemma trimStart_fixed (s : string) : headTrimmed s -> Js.trimStart s = s.
Proof. destruct s as [| c r]; simpl; [reflexivity | intros ->; reflexivity]. Qed.

Lemma trimEnd_head (s : string) : headTrimmed s -> headTrimmed (Js.trimEnd s).
Proof.
  destruct s as [| c r]; simpl; [auto |]. intros Hc.
  destruct (Js.trimEnd r); [rewrite Hc |]; exact Hc.
Qed.

Lemma trimEnd_idempotent (s : string) : Js.trimEnd (Js.trimEnd s) = Js.trimEnd s.
Proof.
  induction s as [| c r IH]; simpl; [reflexivity |].
  destruct (Js.trimEnd r) as [| c' r'] eqn:Hr.
  - destruct (Js.is_space c) eqn:Hc; simpl; [reflexivity | rewrite Hc; reflexivity].
  - simpl in IH |- *. rewrite IH. reflexivity.
Qed.

(** Trimming a trimmed string changes nothing. *)
Lemma trim_idempotent (s : string) : Js.trim (Js.trim s) = Js.trim s.
Proof.
  unfold Js.trim.
  rewrite (trimStart_fixed (Js.trimEnd (Js.trimStart s)))
    by (apply trimEnd_head, trimStart_head).
  apply trimEnd_idempotent.
Qed.

Section QueryFacts.

Context {T : Type}.
Variable variant : Variant.
Variable opts : Options T.

Implicit Types st : State T.

Lemma QueryInv_sub st st' :
  (forall t, In t (timers st') -> In t (timers st)) ->
  queries (trace st') = queries (trace st) ->
  QueryInv opts st -> QueryInv opts st'.
Proof.
  intros Hsub Hq [Ht Hs]. split.
  - intros t q Hin. apply Ht, Hsub, Hin.
  - rewrite Hq. exact Hs.
Qed.

Lemma cancelled_sub st t : In t (timers (cancelled st)) -> In t (timers st).
Proof.
  rewrite cancelled_timers. destruct (debounceTimer st); [| auto].
  intros Hin; apply filter_In in Hin as [Hin _]; exact Hin.
Qed.

Lemma scheduled_good st :
  schedules opts st = true -> GoodQuery opts (Js.trim (inputValue st)).
Proof.
  unfold schedules, GoodQuery. intros H. split; [apply trim_idempotent |].
  apply orb_true_iff in H as [H | H].
  - apply andb_true_iff in H as [H _]. apply Z.eqb_eq, length_zero_empty in H. auto.
  - apply negb_true_iff, Z.ltb_ge in H. auto.
Qed.

Lemma QueryInv_handleInput env st :
  QueryInv opts st -> QueryInv opts (handleInput opts env st).
Proof.
  intros H. rewrite handleInput_cases.
  destruct (cancelled_fields st) as (_ & _ & _ & Htr & _).
  destruct (schedules opts st) eqn:Hs.
  - destruct H as [Ht Hq]. split; simpl.
    + intros t q Hin Ha. apply in_app_or in Hin as [Hin | [<- | []]].
      * apply (Ht t q); [apply cancelled_sub; exact Hin | exact Ha].
      * simpl in Ha. injection Ha as <-. apply scheduled_good; exact Hs.
    + rewrite Htr. exact Hq.
  - apply QueryInv_sub with (st := st); [| rewrite hide_trace, Htr; reflexivity | exact H].
    intros t. rewrite hide_timers. apply cancelled_sub.
Qed.

Lemma handleKeyDown_queries key st :
  queries (trace (state_of (handleKeyDown opts key st))) = queries (trace st).
Proof.
  unfold handleKeyDown, selectSuggestion.
  destruct (visible st); simpl; [| reflexivity].
  destruct key; simpl; try reflexivity.
  - destruct (suggestions st); simpl; rewrite queries_app; simpl; apply app_nil_r.
  - rewrite queries_app; simpl; apply app_nil_r.
  - destruct (activeIndex st >=? 0); simpl; [| reflexivity].
    destruct (suggestions st); simpl; [| rewrite queries_app; simpl; apply app_nil_r].
    destruct (nth_error _ _); simpl; [| rewrite queries_app; simpl; apply app_nil_r].
    rewrite hide_trace; simpl. rewrite !queries_app; simpl. rewrite !app_nil_r.
    reflexivity.
  - rewrite hide_trace; simpl. rewrite queries_app; simpl; apply app_nil_r.
Qed.

Lemma renderFrom_queries (k : Z) (items : list T) :
  queries (snd (renderFrom opts k items)) = [].
Proof.
  revert k; induction items as [| s items IH]; intros k; simpl; [reflexivity |].
  specialize (IH (k + 1)). unfold runRenderSuggestion.
  destruct (renderFrom opts (k + 1) items) as [els calls]. simpl in IH.
  destruct (renderSuggestion opts); [destruct (allowHTML opts) |]; simpl; exact IH.
Qed.

Lemma settle_queries env r st :
  queries (trace (state_of (settle variant opts env r st))) = queries (trace st).
Proof.
  destruct r as [[items |] |].
  - rewrite settle_items; simpl. destruct (_ >? 0).
    + rewrite show_trace; simpl. rewrite queries_app, renderFrom_queries.
      apply app_nil_r.
    + rewrite hide_trace; reflexivity.
  - unfold settle, afterAwait; simpl. destruct variant; simpl; [| reflexivity].
    rewrite hide_trace; simpl. rewrite queries_app; simpl; apply app_nil_r.
  - rewrite settle_rejected; simpl. rewrite hide_trace; simpl.
    rewrite queries_app; simpl; apply app_nil_r.
Qed.

Lemma QueryInv_timer (t : Timer) reply st :
  In t (timers st) -> QueryInv opts st ->
  QueryInv opts (runTimer (action t) reply (clearTimeout (timer_id t) st)).
Proof.
  intros Hin [Ht Hq].
  assert (Hsub : forall u, In u (timers (clearTimeout (timer_id t) st)) ->
                           In u (timers st))
    by (intros u Hu; simpl in Hu; apply filter_In in Hu as [Hu _]; exact Hu).
  destruct (action t) as [q |] eqn:Ha; simpl.
  - assert (Hgood : GoodQuery opts q) by (apply (Ht t q Hin Ha)).
    destruct reply; simpl; split.
    + intros u q'. rewrite hide_timers; simpl. intros Hu. apply Ht, Hsub, Hu.
    + rewrite hide_trace; simpl. rewrite <- app_assoc, queries_app; simpl.
      intros q' Hq'. apply in_app_or in Hq' as [Hq' | [<- | []]]; auto.
    + simpl. intros u q' Hu. apply Ht, Hsub, Hu.
    + simpl. rewrite queries_app; simpl.
      intros q' Hq'. apply in_app_or in Hq' as [Hq' | [<- | []]]; auto.
  - split.
    + intros u q'. rewrite hide_timers. intros Hu. apply Ht, Hsub, Hu.
    + rewrite hide_trace. exact Hq.
Qed.

Lemma QueryInv_reachable st : Reachable variant opts st -> QueryInv opts st.
Proof.
  intros (value & isFocused & script & Hex).
  eapply (exec_preserves variant opts (fun _ => true) (QueryInv opts));
    [ | | | | | | | | | | | apply all_admitted | | exact Hex ].
  - intros v s. apply QueryInv_sub; auto.
  - intros b s. apply QueryInv_sub; auto.
  - apply QueryInv_handleInput.
  - intros env s [Ht Hq]. split; [| exact Hq].
    intros t q Hin Ha. simpl in Hin. apply in_app_or in Hin as [Hin | [<- | []]].
    + apply (Ht t q Hin Ha).
    + discriminate Ha.
  - intros s. apply QueryInv_sub; [rewrite hide_timers; auto | rewrite hide_trace; auto].
  - intros key s. apply QueryInv_sub; [| apply handleKeyDown_queries].
    destruct (sameTimers_handleKeyDown opts key s) as [Ht _]. rewrite Ht; auto.
  - intros el s _ _. apply QueryInv_sub; auto.
  - intros el s _ _. unfold onClick, selectSuggestion.
    apply QueryInv_sub; [rewrite hide_timers; auto |].
    rewrite hide_trace; simpl. rewrite queries_app; simpl; apply app_nil_r.
  - apply QueryInv_timer.
  - intros env r s _. apply QueryInv_sub; [| apply settle_queries].
    destruct (sameTimers_settle variant opts env r s) as [Ht _]. rewrite Ht; auto.
  - intros env s. apply QueryInv_sub.
    + destruct (sameTimers_reposition variant env s) as [Ht _]. rewrite Ht; auto.
    + unfold handlePositionUpdate. destruct (visible s); reflexivity.
  - split; [intros t q [] | intros q []].
Qed.

End QueryFacts.

(** Whatever the user does, the source is only ever called with a trimmed
    query (no white space at either end) that is empty or at least
    [minChars] long. *)
Theorem source_receives_only_admissible_queries {T : Type} (variant : Variant)
        (opts : Options T) (st : State T) (q : string) :
  Reachable variant opts st ->
  In (GetSuggestions q) (trace st) ->
  Js.trim q = q /\ (q = EmptyString \/ minChars opts <= Js.length q).
Proof.
  intros Hreach Hin.
  destruct (QueryInv_reachable variant opts st Hreach) as [_ Hq].
  apply Hq. clear Hq Hreach.
  induction (trace st) as [| e l IH]; [destruct Hin |].
  destruct Hin as [-> | Hin]; simpl; [left; reflexivity |].
  destruct e; simpl; auto.
Qed.

Lemma source_receives_only_admissible_queries_witness :
  Js.trim "can" = "can"%string /\
  ("can"%string = EmptyString \/ minChars Demo.plain <= Js.length "can").
Proof.
  apply (source_receives_only_admissible_queries TypeScript Demo.plain
           (Demo.shownState TypeScript Demo.plain)).
  - exists EmptyString, false, Demo.typeCan. vm_compute; reflexivity.
  - vm_compute. left; reflexivity.
Defined.

(** ** One debounce timer at a time *)

Lemma same_handle_once (l : list Timer) (id : nat) :
  NoDup (map timer_id l) -> (forall t, In t l -> timer_id t = id) ->
  (List.length l <= 1)%nat.
Proof.
  intros Hnd Hall. destruct l as [| a [| b l]]; simpl; try lia.
  exfalso. simpl in Hnd. apply NoDup_cons_iff in Hnd as [Hnotin _].
  apply Hnotin. left.
  rewrite (Hall a) by (left; reflexivity).
  rewrite (Hall b) by (right; left; reflexivity). reflexivity.
Qed.

(** In every state the widget can reach at most one debounced fetch is
    pending, and it is the one [this.debounceTimer] refers to: an earlier
    keystroke's fetch cannot fire once a later keystroke was handled. *)
Theorem at_most_one_fetch_is_pending {T : Type} (variant : Variant)
        (opts : Options T) (st : State T) :
  Reachable variant opts st ->
  (List.length (filter isFetch (timers st)) <= 1)%nat /\
  forall t, In t (timers st) -> isFetch t = true ->
            debounceTimer st = Some (timer_id t).
Proof.
  intros Hreach.
  destruct (TimerInv_reachable variant opts st Hreach) as (_ & Hnd & Hfetch).
  assert (Href : forall t, In t (timers st) -> isFetch t = true ->
                           debounceTimer st = Some (timer_id t)).
  { intros t Hin Hf. unfold isFetch in Hf.
    destruct (action t) as [q |] eqn:Ha; [| discriminate]. eapply Hfetch; eauto. }
  split; [| exact Href].
  destruct (debounceTimer st) as [id |] eqn:Hd.
  - apply (same_handle_once _ id); [apply distinct_ids_filter; exact Hnd |].
    intros t Hin. apply filter_In in Hin as [Hin Hf].
    specialize (Href t Hin Hf). congruence.
  - destruct (filter isFetch (timers st)) as [| t l] eqn:Hl; simpl; [lia |].
    assert (Hin : In t (filter isFetch (timers st))) by (rewrite Hl; left; reflexivity).
    apply filter_In in Hin as [Hin Hf]. specialize (Href t Hin Hf). discriminate.
Qed.

Lemma at_most_one_fetch_is_pending_witness :
  (List.length (filter isFetch
                  (timers (Examples.afterScript TypeScript Demo.plain
                             [(Demo.at_ 0, EvInput "ca"); (Demo.at_ 100, EvInput "can")])))
   <= 1)%nat.
Proof.
  apply (at_most_one_fetch_is_pending TypeScript Demo.plain).
  exists EmptyString, false, [(Demo.at_ 0, EvInput "ca"); (Demo.at_ 100, EvInput "can")].
  vm_compute; reflexivity.
Defined.

(** ** The icon and the blur timeout *)

Section IconClickFacts.

Context {T : Type}.
Variable variant : Variant.
Variable opts : Options T.

Implicit Types st : State T.

(** [handleInput] never displays the panel. *)
Lemma handleInput_visible env st :
  visible (handleInput opts env st) = true -> visible st = true.
Proof.
  rewrite handleInput_cases.
  destruct (cancelled_fields st) as (_ & _ & Hc & _).
  destruct (schedules opts st).
  - unfold visible, display; simpl. rewrite Hc. auto.
  - rewrite hide_visible. discriminate.
Qed.

Lemma handleInput_hidden env st :
  visible st = false -> visible (handleInput opts env st) = false.
Proof.
  intros Hv. destruct (visible (handleInput opts env st)) eqn:E; [| reflexivity].
  apply handleInput_visible in E. congruence.
Qed.

Lemma onIconClick_hidden env st : visible (onIconClick opts env st) = false.
Proof.
  unfold onIconClick.
  destruct (visible (if focused st then st
                     else handleInput opts env (set_focused true st))) eqn:Hv.
  - apply hide_visible.
  - apply handleInput_hidden. exact Hv.
Qed.

Lemma handleInput_focused env st : focused (handleInput opts env st) = focused st.
Proof. destruct (handleInput_sameInput opts env st) as [_ Hf]; exact Hf. Qed.

End IconClickFacts.

(** A click on the icon never displays the panel at once.  It closes a
    panel that is displayed; on a hidden panel it gives the field the focus
    and leaves pending exactly the fetch [handleInput] schedules for the
    field as it is then: the empty query for an empty field, the trimmed
    value when it is long enough, none otherwise.  The source is not called
    by the click itself. *)
Theorem icon_click_closes_or_schedules {T : Type} (variant : Variant)
        (opts : Options T) (env : Env) (st st' : State T) :
  Reachable variant opts st ->
  step variant opts env EvIconClick st = Some st' ->
  visible st' = false /\
  trace st' = trace st /\
  (visible st = false ->
   focused st' = true /\
   inputValue st' = inputValue st /\
   pendingFetches (timers st')
   = if (Js.length (Js.trim (inputValue st)) =? 0)
        || negb (Js.length (Js.trim (inputValue st)) <? minChars opts)
     then [(now env + Z.max (debounceTime opts) 0,
            FetchCallback (Js.trim (inputValue st)))]
     else []).
Proof.
  intros Hreach Hstep. simpl in Hstep.
  destruct (dropdownIcon st); [| discriminate]. injection Hstep as <-.
  pose proof (TimerInv_reachable variant opts st Hreach) as Hinv.
  split; [apply onIconClick_hidden |].
  set (st1 := if focused st then st else handleInput opts env (set_focused true st)).
  assert (Hinv0 : TimerInv (set_focused true st))
    by (apply TimerInv_ext with (st := st); [repeat split | exact Hinv]).
  assert (Hinv1 : TimerInv st1)
    by (subst st1; destruct (focused st); [exact Hinv |];
        apply TimerInv_handleInput; exact Hinv0).
  assert (Ht1 : trace st1 = trace st).
  { subst st1. destruct (focused st); [reflexivity |].
    destruct (handleInput_Armed opts env _ Hinv0) as [_ Ht]. exact Ht. }
  assert (Hf1 : focused st1 = true).
  { subst st1. destruct (focused st) eqn:Hf; [exact Hf |].
    rewrite handleInput_focused. reflexivity. }
  assert (Hv1 : inputValue st1 = inputValue st).
  { subst st1. destruct (focused st); [reflexivity |].
    destruct (handleInput_sameInput opts env (set_focused true st)) as [Hv _].
    exact Hv. }
  unfold onIconClick. fold st1.
  split.
  - destruct (visible st1); [rewrite hide_trace; exact Ht1 |].
    destruct (handleInput_Armed opts env st1 Hinv1) as [_ Ht]. congruence.
  - intros Hhidden.
    assert (Hh1 : visible st1 = false).
    { subst st1. destruct (focused st); [exact Hhidden |].
      apply handleInput_hidden. exact Hhidden. }
    rewrite Hh1.
    destruct (handleInput_Armed opts env st1 Hinv1) as [Ha _].
    destruct (handleInput_sameInput opts env st1) as [Hv Hf].
    split; [congruence |]. split; [congruence |].
    unfold Armed in Ha. rewrite Ha.
    unfold schedules. rewrite Hv, Hf, Hv1, Hf1.
    rewrite andb_true_r. reflexivity.
Qed.

Lemma icon_click_closes_or_schedules_witness :
  visible (onIconClick Examples.withIcon (Demo.at_ 900)
             (Examples.afterScript JavaScript Examples.withIcon Demo.typeCan))
  = false.
Proof.
  refine (proj1 (icon_click_closes_or_schedules JavaScript Examples.withIcon
                   (Demo.at_ 900)
                   (Examples.afterScript JavaScript Examples.withIcon Demo.typeCan)
                   _ _ _)).
  - exists EmptyString, false, Demo.typeCan. vm_compute; reflexivity.
  - vm_compute; reflexivity.
Defined.

Section BlurFacts.

Context {T : Type}.
Variable variant : Variant.
Variable opts : Options T.
Variable reply : nat -> SourceReply.

Implicit Types st : State T.






End BlurFacts.



(** ** The document tree *)

Section TreeFacts.

Implicit Types t : Page.Tree.
Implicit Types n p x : Page.NodeId.

Lemma node_eqb_eq n p : Page.node_eqb n p = true <-> n = p.
Proof.
  destruct n, p; simpl; split; intros H; try reflexivity; try discriminate;
    try (apply Nat.eqb_eq in H; congruence).
  injection H as ->. apply Nat.eqb_refl.
Qed.

Lemma node_eqb_refl n : Page.node_eqb n n = true.
Proof. apply node_eqb_eq; reflexivity. Qed.

Lemma node_eqb_neq n p : Page.node_eqb n p = false <-> n <> p.
Proof.
  split.
  - intros H Heq. apply node_eqb_eq in Heq. congruence.
  - intros H. destruct (Page.node_eqb n p) eqn:E; [| reflexivity].
    apply node_eqb_eq in E. contradiction.
Qed.

(** Removing a node that is not in a list leaves the list alone. *)
Lemma filter_absent x (l : list Page.NodeId) :
  ~ In x l -> filter (fun c => negb (Page.node_eqb c x)) l = l.
Proof.
  induction l as [| c l IH]; intros Hnot; simpl; [reflexivity |].
  destruct (Page.node_eqb c x) eqn:E; simpl.
  - apply node_eqb_eq in E. subst c. exfalso. apply Hnot. left; reflexivity.
  - rewrite IH; [reflexivity |]. intros Hin. apply Hnot. right; exact Hin.
Qed.

Lemma filter_removes x (l : list Page.NodeId) :
  ~ In x (filter (fun c => negb (Page.node_eqb c x)) l).
Proof.
  intros Hin. apply filter_In in Hin as [_ H].
  rewrite node_eqb_refl in H. discriminate.
Qed.

Lemma childNodes_detach x n t :
  Page.childNodes n (Page.detach x t)
  = filter (fun c => negb (Page.node_eqb c x)) (Page.childNodes n t).
Proof.
  unfold Page.childNodes, Page.detach.
  induction t as [| e t IH]; simpl; [reflexivity |].
  destruct (Page.node_eqb (fst e) n); [reflexivity | exact IH].
Qed.

Lemma find_key_replaced p (l : list Page.NodeId) t :
  existsb (fun e => Page.node_eqb (fst e) p) t = true ->
  find (fun e => Page.node_eqb (fst e) p)
       (map (fun e => if Page.node_eqb (fst e) p then (p, l) else e) t)
  = Some (p, l).
Proof.
  induction t as [| e t IH]; simpl; [discriminate |].
  destruct (Page.node_eqb (fst e) p) eqn:He; simpl.
  - intros _. rewrite node_eqb_refl. reflexivity.
  - intros H. rewrite He. apply IH. exact H.
Qed.

Lemma find_key_other p (l : list Page.NodeId) n t :
  n <> p ->
  find (fun e => Page.node_eqb (fst e) n)
       (map (fun e => if Page.node_eqb (fst e) p then (p, l) else e) t)
  = find (fun e => Page.node_eqb (fst e) n) t.
Proof.
  intros Hnp. assert (Hpn : Page.node_eqb p n = false)
    by (apply node_eqb_neq; congruence).
  induction t as [| e t IH]; simpl; [reflexivity |].
  destruct (Page.node_eqb (fst e) p) eqn:He; simpl.
  - rewrite Hpn. apply node_eqb_eq in He. rewrite He, Hpn. exact IH.
  - destruct (Page.node_eqb (fst e) n); [reflexivity | exact IH].
Qed.

Lemma find_key_appended p (l : list Page.NodeId) n t :
  existsb (fun e => Page.node_eqb (fst e) p) t = false ->
  find (fun e => Page.node_eqb (fst e) n) (t ++ [(p, l)])
  = if Page.node_eqb n p then Some (p, l)
    else find (fun e => Page.node_eqb (fst e) n) t.
Proof.
  induction t as [| e t IH]; simpl.
  - intros _. destruct (Page.node_eqb n p) eqn:E.
    + apply node_eqb_eq in E. subst n. rewrite node_eqb_refl. reflexivity.
    + replace (Page.node_eqb p n) with false; [reflexivity |].
      symmetry. apply node_eqb_neq. apply node_eqb_neq in E. congruence.
  - intros H. apply orb_false_iff in H as [He Hrest].
    destruct (Page.node_eqb (fst e) n) eqn:Hen.
    + apply node_eqb_eq in Hen. subst n. rewrite He. reflexivity.
    + apply IH. exact Hrest.
Qed.

Lemma childNodes_setChildren p (l : list Page.NodeId) n t :
  Page.childNodes n (Page.setChildren p l t)
  = if Page.node_eqb n p then l else Page.childNodes n t.
Proof.
  unfold Page.setChildren, Page.childNodes.
  destruct (existsb (fun e => Page.node_eqb (fst e) p) t) eqn:Hex.
  - destruct (Page.node_eqb n p) eqn:Hnp.
    + apply node_eqb_eq in Hnp. subst n. rewrite find_key_replaced by exact Hex.
      reflexivity.
    + apply node_eqb_neq in Hnp. rewrite find_key_other by exact Hnp. reflexivity.
  - rewrite find_key_appended by exact Hex.
    destruct (Page.node_eqb n p); reflexivity.
Qed.

End TreeFacts.

Section TreeShape.

Implicit Types t : Page.Tree.
Implicit Types n p q x : Page.NodeId.

Lemma keys_detach x t : map fst (Page.detach x t) = map fst t.
Proof. unfold Page.detach. rewrite map_map. reflexivity. Qed.

Lemma WellKeyed_detach x t : WellKeyed t -> WellKeyed (Page.detach x t).
Proof. unfold WellKeyed. rewrite keys_detach. auto. Qed.

Lemma WellKeyed_setChildren p (l : list Page.NodeId) t :
  WellKeyed t -> WellKeyed (Page.setChildren p l t).
Proof.
  unfold WellKeyed, Page.setChildren. intros H.
  destruct (existsb (fun e => Page.node_eqb (fst e) p) t) eqn:Hex.
  - replace (map fst (map (fun e => if Page.node_eqb (fst e) p then (p, l) else e) t))
      with (map fst t); [exact H |].
    rewrite map_map. apply map_ext. intros e.
    destruct (Page.node_eqb (fst e) p) eqn:He; [| reflexivity].
    apply node_eqb_eq in He. simpl. congruence.
  - rewrite map_app. simpl. apply NoDup_app; [exact H | repeat constructor; auto |].
    intros k Hin [<- | []]. apply in_map_iff in Hin as (e & He & Hin).
    assert (Hfalse : existsb (fun e => Page.node_eqb (fst e) p) t = true).
    { apply existsb_exists. exists e. split; [exact Hin |]. apply node_eqb_eq. exact He. }
    congruence.
Qed.

(** In a well-keyed tree every entry holds the children of its node. *)
Lemma entry_children t (e : Page.NodeId * list Page.NodeId) :
  WellKeyed t -> In e t -> Page.childNodes (fst e) t = snd e.
Proof.
  unfold WellKeyed, Page.childNodes.
  induction t as [| a t IH]; intros Hnd Hin; [destruct Hin |].
  simpl in Hnd. apply NoDup_cons_iff in Hnd as [Hfresh Hnd]. simpl.
  destruct (Page.node_eqb (fst a) (fst e)) eqn:Hk.
  - destruct Hin as [-> | Hin]; [reflexivity |].
    apply node_eqb_eq in Hk. exfalso. apply Hfresh. rewrite Hk.
    apply in_map. exact Hin.
  - destruct Hin as [-> | Hin]; [rewrite node_eqb_refl in Hk; discriminate |].
    apply IH; assumption.
Qed.

Lemma parentNode_child x q t :
  WellKeyed t -> Page.parentNode x t = Some q -> In x (Page.childNodes q t).
Proof.
  unfold Page.parentNode. intros Hk H.
  destruct (find _ t) as [e |] eqn:Hf; [| discriminate]. injection H as <-.
  apply find_some in Hf as [Hin Hx].
  rewrite (entry_children t e Hk Hin).
  apply existsb_exists in Hx as (c & Hc & Heq). apply node_eqb_eq in Heq. congruence.
Qed.

Lemma parentNode_only x q t :
  WellKeyed t -> OnlyChildOf x q t -> Page.parentNode x t = Some q.
Proof.
  intros Hk [Hin Honly]. unfold Page.parentNode.
  destruct (find (fun e => existsb (Page.node_eqb x) (snd e)) t) as [e |] eqn:Hf.
  - simpl. f_equal. apply Honly.
    apply find_some in Hf as [He Hx].
    rewrite (entry_children t e Hk He).
    apply existsb_exists in Hx as (c & Hc & Heq). apply node_eqb_eq in Heq. congruence.
  - exfalso. unfold Page.childNodes in Hin.
    destruct (find (fun e => Page.node_eqb (fst e) q) t) as [e |] eqn:Hq;
      [| destruct Hin].
    apply find_some in Hq as [He _].
    pose proof (find_none _ _ Hf e He) as Hno. simpl in Hno.
    assert (Hyes : existsb (Page.node_eqb x) (snd e) = true)
      by (apply existsb_exists; exists x; split; [exact Hin | apply node_eqb_refl]).
    congruence.
Qed.

Lemma parentNode_detached x t : Detached x t -> WellKeyed t -> Page.parentNode x t = None.
Proof.
  intros Hd Hk. unfold Page.parentNode.
  destruct (find (fun e => existsb (Page.node_eqb x) (snd e)) t) as [e |] eqn:Hf;
    [| reflexivity].
  exfalso. apply find_some in Hf as [He Hx].
  apply (Hd (fst e)). rewrite (entry_children t e Hk He).
  apply existsb_exists in Hx as (c & Hc & Heq). apply node_eqb_eq in Heq. congruence.
Qed.

(** *** The tree operations, seen through [childNodes] *)

Lemma childNodes_appendChild p x n t :
  Page.childNodes n (Page.appendChild p x t)
  = if Page.node_eqb n p
    then filter (fun c => negb (Page.node_eqb c x)) (Page.childNodes p t) ++ [x]
    else filter (fun c => negb (Page.node_eqb c x)) (Page.childNodes n t).
Proof.
  unfold Page.appendChild. rewrite childNodes_setChildren, !childNodes_detach.
  reflexivity.
Qed.

Lemma childNodes_insertBefore p x ref n t :
  Page.childNodes n (Page.insertBefore p x ref t)
  = if Page.node_eqb n p
    then Page.insertAt x ref
           (filter (fun c => negb (Page.node_eqb c x)) (Page.childNodes p t))
    else filter (fun c => negb (Page.node_eqb c x)) (Page.childNodes n t).
Proof.
  unfold Page.insertBefore. rewrite childNodes_setChildren, !childNodes_detach.
  reflexivity.
Qed.

Lemma childNodes_removeChild p x n t :
  Page.childNodes n (Page.removeChild p x t)
  = if Page.node_eqb n p
    then filter (fun c => negb (Page.node_eqb c x)) (Page.childNodes p t)
    else Page.childNodes n t.
Proof. unfold Page.removeChild. apply childNodes_setChildren. Qed.

Lemma WellKeyed_appendChild p x t : WellKeyed t -> WellKeyed (Page.appendChild p x t).
Proof. intros H. apply WellKeyed_setChildren, WellKeyed_detach, H. Qed.

Lemma WellKeyed_insertBefore p x ref t :
  WellKeyed t -> WellKeyed (Page.insertBefore p x ref t).
Proof. intros H. apply WellKeyed_setChildren, WellKeyed_detach, H. Qed.

Lemma WellKeyed_removeChild p x t : WellKeyed t -> WellKeyed (Page.removeChild p x t).
Proof. intros H. apply WellKeyed_setChildren, H. Qed.

Lemma insertAt_before x ref (pre post : list Page.NodeId) :
  ~ In ref pre ->
  Page.insertAt x ref (pre ++ ref :: post) = pre ++ x :: ref :: post.
Proof.
  induction pre as [| c pre IH]; intros Hnot; simpl.
  - rewrite node_eqb_refl. reflexivity.
  - destruct (Page.node_eqb c ref) eqn:E.
    + apply node_eqb_eq in E. subst c. exfalso. apply Hnot. left; reflexivity.
    + rewrite IH; [reflexivity |]. intros Hin. apply Hnot. right; exact Hin.
Qed.

Lemma filter_middle x (pre post : list Page.NodeId) :
  ~ In x pre -> ~ In x post ->
  filter (fun c => negb (Page.node_eqb c x)) (pre ++ x :: post) = pre ++ post.
Proof.
  intros Hpre Hpost. rewrite filter_app. simpl. rewrite node_eqb_refl. simpl.
  rewrite !filter_absent by assumption. reflexivity.
Qed.

End TreeShape.

(** ** Attaching and destroying on an arbitrary page *)

Section RoundTrip.

Variable t0 : Page.Tree.
Variable par : Page.NodeId.
Variables pre post : list Page.NodeId.

Hypothesis keyed : WellKeyed t0.
Hypothesis siblings : Page.childNodes par t0 = pre ++ Page.Input :: post.
Hypothesis input_once : ~ In Page.Input pre /\ ~ In Page.Input post.
Hypothesis input_only : forall n, In Page.Input (Page.childNodes n t0) -> n = par.
Hypothesis no_wrapper : Detached Page.Wrapper t0.
Hypothesis no_icon : Detached Page.Icon t0.
Hypothesis no_panel : Detached Page.Panel t0.
Hypothesis wrapper_empty : Page.childNodes Page.Wrapper t0 = [].

Let t1 := Page.appendChild Page.Body Page.Panel t0.
Let t2 := Page.insertBefore par Page.Wrapper Page.Input t1.
Let t3 := Page.appendChild Page.Wrapper Page.Input t2.
Let t4 := Page.appendChild Page.Wrapper Page.Icon t3.
Let t5 := Page.insertBefore par Page.Input Page.Wrapper t4.
Let t6 := Page.removeChild par Page.Wrapper t5.
Let t7 := Page.removeChild Page.Body Page.Panel t6.
Let post1 := post ++ (if Page.node_eqb par Page.Body then [Page.Panel] else []).

Lemma par_not_wrapper : Page.node_eqb par Page.Wrapper = false.
Proof.
  apply node_eqb_neq. intros ->. rewrite wrapper_empty in siblings.
  destruct pre; discriminate.
Qed.

Lemma pre_post_clean x :
  Detached x t0 -> ~ In x pre /\ ~ In x post.
Proof.
  intros Hd. split; intros Hin; apply (Hd par); rewrite siblings;
    apply in_or_app; [left | right; right]; exact Hin.
Qed.

Lemma kids1 n :
  Page.childNodes n t1
  = if Page.node_eqb n Page.Body then Page.childNodes Page.Body t0 ++ [Page.Panel]
    else Page.childNodes n t0.
Proof.
  unfold t1. rewrite childNodes_appendChild.
  rewrite !filter_absent by apply no_panel. reflexivity.
Qed.

Lemma kids1_par : Page.childNodes par t1 = pre ++ Page.Input :: post1.
Proof.
  rewrite kids1. unfold post1. destruct (Page.node_eqb par Page.Body) eqn:E.
  - apply node_eqb_eq in E. rewrite <- E, siblings, <- app_assoc. reflexivity.
  - rewrite app_nil_r. exact siblings.
Qed.

Lemma kids1_without x n :
  Detached x t0 -> x <> Page.Panel -> ~ In x (Page.childNodes n t1).
Proof.
  intros Hd Hx. rewrite kids1. destruct (Page.node_eqb n Page.Body).
  - intros Hin. apply in_app_or in Hin as [Hin | [Heq | []]];
      [exact (Hd _ Hin) | congruence].
  - apply Hd.
Qed.

Lemma kids1_input n : In Page.Input (Page.childNodes n t1) -> n = par.
Proof.
  rewrite kids1. destruct (Page.node_eqb n Page.Body) eqn:E.
  - apply node_eqb_eq in E. subst n. intros Hin.
    apply in_app_or in Hin as [Hin | [Heq | []]]; [auto | discriminate].
  - apply input_only.
Qed.

Lemma kids1_panel n : In Page.Panel (Page.childNodes n t1) -> n = Page.Body.
Proof.
  rewrite kids1. destruct (Page.node_eqb n Page.Body) eqn:E.
  - intros _. apply node_eqb_eq. exact E.
  - intros Hin. destruct (no_panel _ Hin).
Qed.

Lemma post1_clean x :
  Detached x t0 -> x <> Page.Panel -> ~ In x pre /\ ~ In x post1.
Proof.
  intros Hd Hx. destruct (pre_post_clean x Hd) as [Hpre Hpost].
  split; [exact Hpre |]. unfold post1. intros Hin.
  apply in_app_or in Hin as [Hin | Hin]; [auto |].
  destruct (Page.node_eqb par Page.Body); [| destruct Hin].
  destruct Hin as [Heq | []]. congruence.
Qed.

Lemma input_not_post1 : ~ In Page.Input post1.
Proof.
  unfold post1. intros Hin. apply in_app_or in Hin as [Hin | Hin].
  - destruct input_once as [_ H]; auto.
  - destruct (Page.node_eqb par Page.Body); [| destruct Hin].
    destruct Hin as [Heq | []]. discriminate.
Qed.

Lemma keyed1 : WellKeyed t1.
Proof. apply WellKeyed_appendChild, keyed. Qed.

Lemma parent1 : Page.parentNode Page.Input t1 = Some par.
Proof.
  apply parentNode_only; [apply keyed1 |]. split.
  - rewrite kids1_par. apply in_or_app. right. left. reflexivity.
  - apply kids1_input.
Qed.

Lemma kids1_wrapper : Page.childNodes Page.Wrapper t1 = [].
Proof. rewrite kids1. simpl. exact wrapper_empty. Qed.

Lemma kids2 n :
  Page.childNodes n t2
  = if Page.node_eqb n par then pre ++ Page.Wrapper :: Page.Input :: post1
    else Page.childNodes n t1.
Proof.
  unfold t2. rewrite childNodes_insertBefore.
  rewrite !filter_absent by (apply kids1_without; [exact no_wrapper | discriminate]).
  destruct (Page.node_eqb n par); [| reflexivity].
  rewrite kids1_par. apply insertAt_before. apply input_once.
Qed.

Lemma kids3 n :
  Page.childNodes n t3
  = if Page.node_eqb n Page.Wrapper then [Page.Input]
    else if Page.node_eqb n par then pre ++ Page.Wrapper :: post1
         else Page.childNodes n t1.
Proof.
  unfold t3. rewrite childNodes_appendChild, !kids2.
  rewrite (proj2 (node_eqb_neq Page.Wrapper par))
    by (intros Heq; pose proof par_not_wrapper as H; rewrite <- Heq in H;
        rewrite node_eqb_refl in H; discriminate).
  rewrite kids1_wrapper.
  destruct (Page.node_eqb n Page.Wrapper); [reflexivity |].
  destruct (Page.node_eqb n par) eqn:E.
  - change (pre ++ Page.Wrapper :: Page.Input :: post1)
      with (pre ++ [Page.Wrapper] ++ Page.Input :: post1).
    rewrite app_assoc, filter_middle.
    + rewrite <- app_assoc. reflexivity.
    + intros Hin. apply in_app_or in Hin as [Hin | [Heq | []]];
        [destruct input_once as [H _]; auto | discriminate].
    + apply input_not_post1.
  - apply filter_absent. intros Hin. apply kids1_input in Hin.
    apply node_eqb_neq in E. contradiction.
Qed.

Lemma kids4 n :
  Page.childNodes n t4
  = if Page.node_eqb n Page.Wrapper then [Page.Input; Page.Icon]
    else if Page.node_eqb n par then pre ++ Page.Wrapper :: post1
         else Page.childNodes n t1.
Proof.
  unfold t4. rewrite childNodes_appendChild, !kids3. simpl.
  destruct (Page.node_eqb n Page.Wrapper); [reflexivity |].
  destruct (Page.node_eqb n par).
  - apply filter_absent. intros Hin.
    destruct (post1_clean Page.Icon no_icon) as [Hpre Hpost]; [discriminate |].
    apply in_app_or in Hin as [Hin | [Heq | Hin]]; [auto | discriminate | auto].
  - apply filter_absent. apply kids1_without; [exact no_icon | discriminate].
Qed.

Lemma keyed4 : WellKeyed t4.
Proof.
  unfold t4, t3, t2.
  apply WellKeyed_appendChild, WellKeyed_appendChild, WellKeyed_insertBefore, keyed1.
Qed.

Lemma parent4 : Page.parentNode Page.Wrapper t4 = Some par.
Proof.
  apply parentNode_only; [apply keyed4 |]. split.
  - rewrite kids4, par_not_wrapper, node_eqb_refl.
    apply in_or_app. right. left. reflexivity.
  - intros n. rewrite kids4.
    destruct (Page.node_eqb n Page.Wrapper).
    + intros [H | [H | []]]; discriminate.
    + destruct (Page.node_eqb n par) eqn:E; [intros _; apply node_eqb_eq; exact E |].
      intros Hin. exfalso. revert Hin.
      apply kids1_without; [exact no_wrapper | discriminate].
Qed.

Lemma kids6 n :
  Page.childNodes n t6
  = if Page.node_eqb n Page.Wrapper then [Page.Icon] else Page.childNodes n t1.
Proof.
  unfold t6, t5. rewrite childNodes_removeChild, !childNodes_insertBefore, !kids4.
  rewrite node_eqb_refl, par_not_wrapper.
  destruct (post1_clean Page.Wrapper no_wrapper) as [Wpre Wpost]; [discriminate |].
  assert (Hclean : filter (fun c => negb (Page.node_eqb c Page.Input))
                          (pre ++ Page.Wrapper :: post1)
                   = pre ++ Page.Wrapper :: post1).
  { apply filter_absent. intros Hin.
    apply in_app_or in Hin as [Hin | [Heq | Hin]];
      [destruct input_once as [H _]; auto | discriminate |].
    exact (input_not_post1 Hin). }
  destruct (Page.node_eqb n par) eqn:E.
  - apply node_eqb_eq in E. subst n. rewrite par_not_wrapper.
    rewrite Hclean, insertAt_before by exact Wpre.
    change (pre ++ Page.Input :: Page.Wrapper :: post1)
      with (pre ++ [Page.Input] ++ Page.Wrapper :: post1).
    rewrite app_assoc, filter_middle.
    + rewrite <- app_assoc. symmetry. apply kids1_par.
    + intros Hin. apply in_app_or in Hin as [Hin | [Heq | []]]; [auto | discriminate].
    + exact Wpost.
  - destruct (Page.node_eqb n Page.Wrapper); [reflexivity |].
    apply filter_absent. intros Hin. apply kids1_input in Hin.
    apply node_eqb_neq in E. contradiction.
Qed.

Lemma keyed6 : WellKeyed t6.
Proof.
  unfold t6, t5. apply WellKeyed_removeChild, WellKeyed_insertBefore, keyed4.
Qed.

Lemma parent6 : Page.parentNode Page.Panel t6 = Some Page.Body.
Proof.
  apply parentNode_only; [apply keyed6 |]. split.
  - rewrite kids6, kids1. simpl. apply in_or_app. right. left. reflexivity.
  - intros n. rewrite kids6. destruct (Page.node_eqb n Page.Wrapper).
    + intros [H | []]; discriminate.
    + apply kids1_panel.
Qed.

Lemma kids7 n :
  Page.childNodes n t7
  = if Page.node_eqb n Page.Wrapper then [Page.Icon] else Page.childNodes n t0.
Proof.
  unfold t7. rewrite childNodes_removeChild, !kids6, !kids1. simpl.
  destruct (Page.node_eqb n Page.Body) eqn:E.
  - apply node_eqb_eq in E. subst n. simpl.
    rewrite filter_app. simpl.
    rewrite filter_absent by apply no_panel. apply app_nil_r.
  - reflexivity.
Qed.

(** Without the icon only the panel comes and goes. *)
Lemma kids_plain n :
  Page.childNodes n (Page.removeChild Page.Body Page.Panel t1) = Page.childNodes n t0.
Proof.
  rewrite childNodes_removeChild, !kids1. simpl.
  destruct (Page.node_eqb n Page.Body) eqn:E; [| reflexivity].
  apply node_eqb_eq in E. subst n.
  rewrite filter_app. simpl. rewrite filter_absent by apply no_panel. apply app_nil_r.
Qed.

Lemma parent1_panel : Page.parentNode Page.Panel t1 = Some Page.Body.
Proof.
  apply parentNode_only; [apply keyed1 |]. split.
  - rewrite kids1. simpl. apply in_or_app. right. left. reflexivity.
  - apply kids1_panel.
Qed.

(** Registering and removing listeners does not touch the tree or the
    style of the input. *)
Lemma add_fold_tree (targets : list Page.NodeId) (q : Page.Page) :
  let q' := fold_left
              (fun r parent =>
                 Page.addEventListener (Page.OnNode parent) "scroll"
                                       Page.HandlePositionUpdate r)
              targets q in
  Page.tree q' = Page.tree q /\ Page.paddingRight q' = Page.paddingRight q.
Proof.
  revert q; induction targets as [| n targets IH]; intros q; simpl; [auto |].
  destruct (IH (Page.addEventListener (Page.OnNode n) "scroll"
                                      Page.HandlePositionUpdate q)) as [Ht Hp].
  simpl in Ht, Hp. split; [exact Ht | exact Hp].
Qed.

Lemma remove_fold_tree (targets : list Page.NodeId) (q : Page.Page) :
  let q' := fold_left
              (fun r parent =>
                 Page.removeEventListener (Page.OnNode parent) "scroll"
                                          Page.HandlePositionUpdate r)
              targets q in
  Page.tree q' = Page.tree q /\ Page.paddingRight q' = Page.paddingRight q.
Proof.
  revert q; induction targets as [| n targets IH]; intros q; simpl; [auto |].
  destruct (IH (Page.removeEventListener (Page.OnNode n) "scroll"
                                         Page.HandlePositionUpdate q)) as [Ht Hp].
  simpl in Ht, Hp. split; [exact Ht | exact Hp].
Qed.

Lemma setupEventListeners_tree (variant : Variant) (hasIcon : bool) (q : Page.Page) :
  Page.tree (Page.setupEventListeners variant hasIcon q) = Page.tree q /\
  Page.paddingRight (Page.setupEventListeners variant hasIcon q) = Page.paddingRight q.
Proof.
  unfold Page.setupEventListeners. destruct variant.
  - destruct hasIcon; simpl; auto.
  - match goal with
    | |- context [fold_left ?f ?l ?r] => destruct (add_fold_tree l r) as [Ht Hp]
    end.
    simpl in *. rewrite Ht, Hp. destruct hasIcon; simpl; auto.
Qed.

Lemma attach_tree_icon (variant : Variant) (p : Page.Page) :
  Page.tree p = t0 -> Page.tree (Page.attach variant true p) = t4.
Proof.
  intros Hp. unfold Page.attach.
  destruct (setupEventListeners_tree variant true
              (Page.setupDropdownIcon
                 (Page.set_tree (Page.appendChild Page.Body Page.Panel (Page.tree p)) p)))
    as [Ht _].
  rewrite Ht. unfold Page.setupDropdownIcon. simpl. rewrite Hp.
  fold t1. rewrite parent1. reflexivity.
Qed.

Lemma attach_tree_plain (variant : Variant) (p : Page.Page) :
  Page.tree p = t0 -> Page.tree (Page.attach variant false p) = t1.
Proof.
  intros Hp. unfold Page.attach.
  destruct (setupEventListeners_tree variant false
              (Page.set_tree (Page.appendChild Page.Body Page.Panel (Page.tree p)) p))
    as [Ht _].
  rewrite Ht. simpl. rewrite Hp. reflexivity.
Qed.

Lemma destroy_tree (variant : Variant) (hasWrapper : bool) (q : Page.Page) :
  Page.tree (Page.destroy variant hasWrapper q)
  = Page.tree
      (let q1 :=
         if hasWrapper then
           match Page.parentNode Page.Wrapper (Page.tree q) with
           | Some parent =>
               Page.set_tree
                 (Page.removeChild parent Page.Wrapper
                    (Page.insertBefore parent Page.Input Page.Wrapper (Page.tree q))) q
           | None => q
           end
         else q in
       match Page.parentNode Page.Panel (Page.tree q1) with
       | Some parent => Page.set_tree (Page.removeChild parent Page.Panel (Page.tree q1)) q1
       | None => q1
       end) /\
  Page.paddingRight (Page.destroy variant hasWrapper q)
  = if hasWrapper then EmptyString else Page.paddingRight q.
Proof.
  unfold Page.destroy. destruct variant.
  - simpl. destruct hasWrapper; simpl.
    + destruct (Page.parentNode Page.Wrapper (Page.tree q)); simpl;
        destruct (Page.parentNode Page.Panel _); simpl; auto.
    + destruct (Page.parentNode Page.Panel _); simpl; auto.
  - match goal with
    | |- context [fold_left ?f ?l ?r] => destruct (remove_fold_tree l r) as [Ht Hp]
    end.
    simpl in *. rewrite Ht, Hp. destruct hasWrapper; simpl.
    + destruct (Page.parentNode Page.Wrapper (Page.tree q)); simpl;
        destruct (Page.parentNode Page.Panel _); simpl; auto.
    + destruct (Page.parentNode Page.Panel _); simpl; auto.
Qed.

Lemma round_trip_icon (variant : Variant) (p : Page.Page) :
  Page.tree p = t0 ->
  Page.tree (Page.destroy variant true (Page.attach variant true p)) = t7.
Proof.
  intros Hp. destruct (destroy_tree variant true (Page.attach variant true p)) as [Ht _].
  rewrite Ht. rewrite (attach_tree_icon variant p Hp). simpl.
  rewrite parent4. simpl. fold t5. fold t6. rewrite parent6. reflexivity.
Qed.

Lemma round_trip_plain (variant : Variant) (p : Page.Page) :
  Page.tree p = t0 ->
  Page.tree (Page.destroy variant false (Page.attach variant false p))
  = Page.removeChild Page.Body Page.Panel t1.
Proof.
  intros Hp. destruct (destroy_tree variant false (Page.attach variant false p)) as [Ht _].
  rewrite Ht. lazy beta zeta iota. rewrite (attach_tree_plain variant p Hp).
  rewrite parent1_panel. reflexivity.
Qed.

End RoundTrip.

(** On a page where the input sits once among the children of its parent
    and the nodes the widget creates are not in the document yet, attaching
    the widget and destroying it gives every node its children back, in
    order, whether or not the icon is shown: the input returns to its place
    between its siblings and the panel leaves the body.  What remains is the
    detached wrapper holding the icon.  The inline [padding-right] of the
    input is not put back to what it was when the icon was shown: it is
    cleared. *)
Theorem destroy_restores_the_document (variant : Variant) (icon : bool)
        (p : Page.Page) (par : Page.NodeId) (pre post : list Page.NodeId) :
  WellKeyed (Page.tree p) ->
  Page.childNodes par (Page.tree p) = pre ++ Page.Input :: post ->
  ~ In Page.Input pre /\ ~ In Page.Input post ->
  (forall n, In Page.Input (Page.childNodes n (Page.tree p)) -> n = par) ->
  Detached Page.Wrapper (Page.tree p) ->
  Detached Page.Icon (Page.tree p) ->
  Detached Page.Panel (Page.tree p) ->
  Page.childNodes Page.Wrapper (Page.tree p) = [] ->
  (forall n, n <> Page.Wrapper ->
             Page.childNodes n (Page.tree (Page.destroy variant icon
                                             (Page.attach variant icon p)))
             = Page.childNodes n (Page.tree p)) /\
  Page.childNodes Page.Wrapper
                  (Page.tree (Page.destroy variant icon (Page.attach variant icon p)))
  = (if icon then [Page.Icon] else []) /\
  Page.paddingRight (Page.destroy variant icon (Page.attach variant icon p))
  = (if icon then EmptyString else Page.paddingRight p).
Proof.
  intros Hk Hsib Honce Honly HW HI HP HWe.
  destruct icon.
  - rewrite (round_trip_icon (Page.tree p) par pre post Hk Hsib Honce Honly HW HI HP HWe
               variant p eq_refl).
    split; [| split].
    + intros n Hn. rewrite (kids7 (Page.tree p) par pre post) by assumption.
      apply node_eqb_neq in Hn. rewrite Hn. reflexivity.
    + rewrite (kids7 (Page.tree p) par pre post) by assumption.
      reflexivity.
    + destruct (destroy_tree variant true (Page.attach variant true p)) as [_ Hp].
      exact Hp.
  - rewrite (round_trip_plain (Page.tree p) Hk HP variant p eq_refl).
    split; [| split].
    + intros n _. apply kids_plain. exact HP.
    + rewrite kids_plain by exact HP. exact HWe.
    + destruct (destroy_tree variant false (Page.attach variant false p)) as [_ Hp].
      rewrite Hp. unfold Page.attach.
      destruct (setupEventListeners_tree variant false
                  (Page.set_tree (Page.appendChild Page.Body Page.Panel (Page.tree p)) p))
        as [_ Hpad].
      rewrite Hpad. reflexivity.
Qed.

Lemma destroy_restores_the_document_witness :
  Page.childNodes (Page.Other 0)
                  (Page.tree (Page.destroy JavaScript true
                                (Page.attach JavaScript true Demo.page)))
  = [Page.Other 1; Page.Input; Page.Other 2].
Proof.
  refine (proj1 (destroy_restores_the_document JavaScript true Demo.page (Page.Other 0)
                   [Page.Other 1] [Page.Other 2] _ _ _ _ _ _ _ _)
                (Page.Other 0) _).
  - unfold WellKeyed. simpl. repeat constructor; simpl; intuition discriminate.
  - reflexivity.
  - split; simpl; intuition discriminate.
  - intros n Hin. destruct n as [| | | | | | [| [| k]]]; simpl in Hin;
      try reflexivity; intuition discriminate.
  - intros n Hin. destruct n as [| | | | | | [| [| k]]]; simpl in Hin;
      intuition discriminate.
  - intros n Hin. destruct n as [| | | | | | [| [| k]]]; simpl in Hin;
      intuition discriminate.
  - intros n Hin. destruct n as [| | | | | | [| [| k]]]; simpl in Hin;
      intuition discriminate.
  - reflexivity.
  - discriminate.
Defined.

(** ** Listeners of other code *)

Lemma Extends_refl (p : Page.Page) : Extends p p.
Proof.
  split; [lia |]. exists []. split; [symmetry; apply app_nil_r | intros l []].
Qed.

Lemma Extends_trans (p q r : Page.Page) : Extends p q -> Extends q r -> Extends p r.
Proof.
  intros [Hpq (a & Ha & Hfa)] [Hqr (b & Hb & Hfb)]. split; [lia |].
  exists (a ++ b). split; [rewrite Hb, Ha, app_assoc; reflexivity |].
  intros l Hin. apply in_app_or in Hin as [Hin | Hin].
  - specialize (Hfa l Hin). lia.
  - specialize (Hfb l Hin). lia.
Qed.

Lemma Extends_same (p q : Page.Page) :
  Page.listeners q = Page.listeners p -> Page.nextFn q = Page.nextFn p -> Extends p q.
Proof.
  intros Hl Hn. split; [lia |]. exists [].
  split; [rewrite Hl; symmetry; apply app_nil_r | intros l []].
Qed.

Lemma Extends_add tg type c (p : Page.Page) :
  Extends p (Page.addEventListener tg type c p).
Proof.
  split; [simpl; lia |]. exists [Page.mkListener tg type (Page.nextFn p) c].
  split; [reflexivity |]. intros l [<- | []]. simpl. lia.
Qed.

Lemma Extends_add_fold (targets : list Page.NodeId) (p : Page.Page) :
  Extends p (fold_left
               (fun q parent =>
                  Page.addEventListener (Page.OnNode parent) "scroll"
                                        Page.HandlePositionUpdate q)
               targets p).
Proof.
  revert p; induction targets as [| n targets IH]; intros p; simpl.
  - apply Extends_refl.
  - eapply Extends_trans; [apply Extends_add | apply IH].
Qed.

Lemma Extends_add_after tg type c (p q : Page.Page) :
  Extends p q -> Extends p (Page.addEventListener tg type c q).
Proof.
  intros H. eapply Extends_trans; [exact H | apply Extends_add].
Qed.

Lemma Extends_setupEventListeners (variant : Variant) (hasIcon : bool) (p : Page.Page) :
  Extends p (Page.setupEventListeners variant hasIcon p).
Proof.
  unfold Page.setupEventListeners.
  destruct variant, hasIcon; cbv zeta.
  - repeat apply Extends_add_after. apply Extends_refl.
  - repeat apply Extends_add_after. apply Extends_refl.
  - apply Extends_add_after.
    eapply Extends_trans; [| apply Extends_add_fold].
    repeat apply Extends_add_after. apply Extends_refl.
  - apply Extends_add_after.
    eapply Extends_trans; [| apply Extends_add_fold].
    repeat apply Extends_add_after. apply Extends_refl.
Qed.

(** The constructor removes no listener and reorders none: the listeners
    other code registered before stay in place and the widget's own come
    after them, each with a function object of its own. *)
Theorem attach_only_appends_listeners (variant : Variant) (icon : bool) (p : Page.Page) :
  exists added,
    Page.listeners (Page.attach variant icon p) = Page.listeners p ++ added /\
    (6 <= List.length added)%nat /\
    forall l, In l added ->
              (Page.nextFn p <= Page.fn l < Page.nextFn (Page.attach variant icon p))%nat.
Proof.
  assert (H : Extends p (Page.attach variant icon p)).
  { unfold Page.attach.
    eapply Extends_trans; [| apply Extends_setupEventListeners].
    destruct icon; apply Extends_same; reflexivity. }
  destruct H as [_ (added & Ha & Hf)]. exists added.
  split; [exact Ha |]. split; [| exact Hf].
  apply (f_equal (@List.length _)) in Ha. rewrite length_app in Ha.
  assert (Hlen : (List.length (Page.listeners p) + 6
                  <= List.length (Page.listeners (Page.attach variant icon p)))%nat).
  { clear Ha Hf. unfold Page.attach, Page.setupEventListeners.
    destruct variant.
    - destruct icon; simpl; rewrite !length_app; simpl; lia.
    - match goal with
      | |- context [fold_left ?f ?l ?q] =>
          destruct (Extends_add_fold l q) as [_ (b & Hb & _)]
      end.
      simpl. rewrite length_app. simpl in Hb. rewrite Hb.
      destruct icon; simpl; rewrite !length_app; simpl; lia. }
  lia.
Qed.

(** On any page, to destroy the widget after attaching it removes no
    listener at all: the listeners of other code stay, and so does every
    listener of the widget. *)
Theorem destroy_after_attach_removes_no_listener (variant : Variant) (icon : bool)
        (p : Page.Page) :
  KnownFunctions p ->
  Page.listeners (Page.destroy variant icon (Page.attach variant icon p))
  = Page.listeners (Page.attach variant icon p).
Proof.
  intros Hknown. apply destroy_removes_no_listener.
  assert (H : Extends p (Page.attach variant icon p)).
  { unfold Page.attach.
    eapply Extends_trans; [| apply Extends_setupEventListeners].
    destruct icon; apply Extends_same; reflexivity. }
  destruct H as [Hn (added & Ha & Hf)].
  intros l Hin. rewrite Ha in Hin. apply in_app_or in Hin as [Hin | Hin].
  - specialize (Hknown l Hin). lia.
  - specialize (Hf l Hin). lia.
Qed.

Lemma destroy_after_attach_removes_no_listener_witness :
  List.length (Page.listeners (Page.destroy TypeScript false
                                 (Page.attach TypeScript false Demo.page)))
  = 6%nat.
Proof.
  rewrite (destroy_after_attach_removes_no_listener TypeScript false Demo.page).
  - reflexivity.
  - intros l [].
Defined.

(** ** The default sanitizer *)




Lemma occurs_ci_cons (p : string) (c : ascii) (r : string) :
  occurs_ci p (String c r) = false ->
  Sanitizer.starts_with_ci p (String c r) = false /\ occurs_ci p r = false.
Proof.
  simpl. intros H. apply orb_false_elim in H. exact H.
Qed.

Lemma occurs_ci_drop (p : string) (n : nat) (s : string) :
  occurs_ci p s = false -> occurs_ci p (Sanitizer.drop n s) = false.
Proof.
  revert s; induction n as [| n IH]; intros s H.
  - destruct s; exact H.
  - destruct s as [| c r]; [exact H |].
    simpl. apply IH. apply (occurs_ci_cons _ _ _ H).
Qed.

Lemma close_index_absent (s : string) :
  occurs_ci "</script>" s = false -> Sanitizer.close_index s = None.
Proof.
  induction s as [| c r IH]; intros H; [reflexivity |].
  destruct (occurs_ci_cons _ _ _ H) as [Hs Hr].
  change (Sanitizer.close_index (String c r))
    with (if Sanitizer.starts_with_ci "</script>" (String c r) then Some 9%nat
          else option_map S (Sanitizer.close_index r)).
  rewrite Hs, (IH Hr). reflexivity.
Qed.


Lemma script_match_needs_open (s : string) :
  Sanitizer.starts_with_ci "<script" s = false -> Sanitizer.script_match s = None.
Proof.
  intros H. unfold Sanitizer.script_match. rewrite H. reflexivity.
Qed.

Lemma script_match_needs_close (s : string) :
  occurs_ci "</script>" s = false -> Sanitizer.script_match s = None.
Proof.
  intros H. unfold Sanitizer.script_match.
  destruct (Sanitizer.starts_with_ci "<script" s); [| reflexivity].
  pose proof (occurs_ci_drop "</script>" 7 s H) as Hd.
  destruct (Sanitizer.drop 7 s) as [| c r] eqn:E; [reflexivity |].
  destruct (Sanitizer.is_word c); [reflexivity |].
  rewrite (close_index_absent _ Hd). reflexivity.
Qed.

Lemma strip_unmatched (c : ascii) (r : string) :
  Sanitizer.script_match (String c r) = None ->
  Sanitizer.strip 0 (String c r) = String c (Sanitizer.strip 0 r).
Proof.
  intros H.
  change (Sanitizer.strip 0 (String c r))
    with (match Sanitizer.script_match (String c r) with
          | Some (S k) => Sanitizer.strip k r
          | _ => String c (Sanitizer.strip 0 r)
          end).
  rewrite H. reflexivity.
Qed.



(** Markup passes the default sanitizer unchanged unless it holds both an
    opening and a closing script tag: other elements, event-handler
    attributes and a script element that is never closed all stay. *)
Theorem sanitizer_keeps_what_is_no_script_block (html : string) :
  occurs_ci "<script" html = false \/ occurs_ci "</script>" html = false ->
  Sanitizer.sanitizeDefaultHTML html = html.
Proof.
  unfold Sanitizer.sanitizeDefaultHTML.
  induction html as [| c r IH]; intros H; [reflexivity |].
  rewrite strip_unmatched.
  - rewrite IH; [reflexivity |].
    destruct H as [H | H]; [left | right]; apply (occurs_ci_cons _ _ _ H).
  - destruct H as [H | H].
    + apply script_match_needs_open. apply (occurs_ci_cons _ _ _ H).
    + apply script_match_needs_close. exact H.
Qed.

Lemma sanitizer_keeps_what_is_no_script_block_witness :
  Sanitizer.sanitizeDefaultHTML "<img src=x onerror=alert(1)><script>alert(2)"
  = "<img src=x onerror=alert(1)><script>alert(2)"%string.
Proof.
  apply sanitizer_keeps_what_is_no_script_block. right. vm_compute. reflexivity.
Defined.


